(** * Crossword grids by constraint programming: the constraint model, verified

    A shallow embedding of [crosswords.py].  The script builds a CP-SAT model
    (variables and constraints posted through [cp_model.CpModel]), hands it to
    the solver once and prints the solved grid.  Here the model under
    construction is an explicit state threaded through a state-and-exception
    monad, Python containers keep their Python behaviour (negative indices
    wrap, out-of-range raises [IndexError]), and the meaning of a constraint is
    given by a satisfaction relation on assignments.  The solver itself is
    external: a "solved grid" is any assignment that satisfies the model. *)

From Stdlib Require Import ZArith Lia Ascii String.
From Stdlib Require Floats.SpecFloat.
From stdpp Require Import base numbers list gmap strings pretty.

Open Scope Z_scope.
Set Warnings "-clear-no-such-hyp".

(** ** Python values: exceptions, ranges, list indexing *)

Inductive exn :=
  | IndexError | KeyError | ValueError | ZeroDivisionError | OverflowError
  | SystemExit.

Inductive result (A : Type) :=
  | Ok (a : A)
  | Raise (e : exn).
Arguments Ok {A} a.
Arguments Raise {A} e.

#[global] Instance result_ret : MRet result := λ A a, Ok a.
#[global] Instance result_bind : MBind result := λ A B f r,
  match r with Ok a => f a | Raise e => Raise e end.

(** [len(xs)], [range(n)] and [range(a, b)]. *)
Definition len {A} (xs : list A) : Z := Z.of_nat (length xs).
Definition range (n : Z) : list Z := seqZ 0 n.
Definition range2 (a b : Z) : list Z := seqZ a (b - a).

(** [xs[i]]: a negative index counts from the end, anything else out of range
    raises [IndexError]. *)
Definition getitem {A} (xs : list A) (i : Z) : result A :=
  let j := if bool_decide (i < 0) then i + len xs else i in
  if bool_decide (0 ≤ j) then
    match xs !! Z.to_nat j with
    | Some x => Ok x
    | None => Raise IndexError
    end
  else Raise IndexError.

(** [d[k]] on a dict: a missing key raises [KeyError]. *)
Definition getkey {V} (d : gmap Z V) (k : Z) : result V :=
  match d !! k with
  | Some v => Ok v
  | None => Raise KeyError
  end.

(** [max(xs)]: an empty argument raises [ValueError]. *)
Definition py_max (xs : list Z) : result Z :=
  match xs with
  | [] => Raise ValueError
  | x :: xs' => Ok (foldl Z.max x xs')
  end.

(** [enumerate(xs)]. *)
Definition enumerate {A} (xs : list A) : list (Z * A) :=
  imap (λ i x, (Z.of_nat i, x)) xs.

(** [mapM] in the exception monad, for comprehensions that only read. *)
Fixpoint traverse {A B} (f : A → result B) (xs : list A) : result (list B) :=
  match xs with
  | [] => Ok []
  | x :: xs' => y ← f x; ys ← traverse f xs'; Ok (y :: ys)
  end.

(** ** The CP-SAT model

    A variable is its index in the model's variable table, as in the
    [CpModelProto] that [cp_model.CpModel] fills in.  A Boolean variable is an
    integer variable with domain [0..1]; [x.Not()] is the literal [Neg x]. *)

Definition var := nat.

Record IntVar := { lb : Z; ub : Z; name : string }.

Inductive lit :=
  | Pos (x : var)
  | Neg (x : var).

#[warnings="-register-all"]
Inductive expr :=
  | EVar (x : var)
  | EConst (k : Z)
  | EAdd (e1 e2 : expr)
  | ESum (es : list expr).

Inductive rel := REq | RNe | RLe | RGe.

(** [Linear e1 r e2 g] is [model.Add(e1 r e2)], with [.OnlyEnforceIf(l)] when
    [g = Some l]; [BoolAnd ls g] is [model.AddBoolAnd(ls)] likewise;
    [AllDifferent xs] is [model.AddAllDifferent(xs)]. *)
Inductive constraint :=
  | Linear (e1 : expr) (r : rel) (e2 : expr) (g : option lit)
  | BoolAnd (ls : list lit) (g : option lit)
  | AllDifferent (xs : list var).

Record CpModel := {
  variables : list IntVar;
  constraints : list constraint
}.

Definition empty_model : CpModel := {| variables := []; constraints := [] |}.

(** ** The model-building monad: the model is the state, exceptions abort *)

Definition M (A : Type) : Type := CpModel → result (A * CpModel).

#[global] Instance M_ret : MRet M := λ A a m, Ok (a, m).
#[global] Instance M_bind : MBind M := λ A B f c m,
  match c m with
  | Ok (a, m') => f a m'
  | Raise e => Raise e
  end.

(** A computation that reads Python values but never touches the model. *)
Definition lift {A} (r : result A) : M A := λ m,
  match r with Ok a => Ok (a, m) | Raise e => Raise e end.

Definition NewIntVar (lo hi : Z) (nm : string) : M var := λ m,
  Ok (length (variables m),
      {| variables := variables m ++ [{| lb := lo; ub := hi; name := nm |}];
         constraints := constraints m |}).

Definition NewBoolVar (nm : string) : M var := NewIntVar 0 1 nm.

Definition Add (ct : constraint) : M () := λ m,
  Ok ((), {| variables := variables m; constraints := constraints m ++ [ct] |}).

(** [[f x for x in xs]] where [f] may create variables. *)
Fixpoint comp {A B} (xs : list A) (f : A → M B) : M (list B) :=
  match xs with
  | [] => mret []
  | x :: xs' => y ← f x; ys ← comp xs' f; mret (y :: ys)
  end.

(** [[f x y for x in xs for y in ys x]]. *)
Definition comp2 {A B C} (xs : list A) (ys : A → list B) (f : A → B → M C)
  : M (list C) :=
  rows ← comp xs (λ x, comp (ys x) (f x)); mret (concat rows).

(** [for x in xs: body x]. *)
Fixpoint for_ {A} (xs : list A) (body : A → M ()) : M () :=
  match xs with
  | [] => mret ()
  | x :: xs' => body x;; for_ xs' body
  end.

(** [X[r][c]] and [X[l][r][c]]. *)
Definition at2 {A} (X : list (list A)) (r c : Z) : M A :=
  lift (row ← getitem X r; getitem row c).
Definition at3 {A} (X : list (list (list A))) (l r c : Z) : M A :=
  lift (plane ← getitem X l; row ← getitem plane r; getitem row c).

(** Python's f-strings for the variable names. *)
Definition idx (i : Z) : string := "[" +:+ pretty i +:+ "]".

(** ** Meaning of a model: assignments and satisfaction *)

Definition assignment := var → Z.

Fixpoint eval (σ : assignment) (e : expr) : Z :=
  match e with
  | EVar x => σ x
  | EConst k => k
  | EAdd e1 e2 => eval σ e1 + eval σ e2
  | ESum es => foldr (λ e acc, eval σ e + acc) 0 es
  end.

Definition lit_holds (σ : assignment) (l : lit) : Prop :=
  match l with
  | Pos x => σ x = 1
  | Neg x => σ x = 0
  end.

Definition rel_holds (r : rel) (a b : Z) : Prop :=
  match r with
  | REq => a = b
  | RNe => a ≠ b
  | RLe => a ≤ b
  | RGe => b ≤ a
  end.

Definition enforced (σ : assignment) (g : option lit) (P : Prop) : Prop :=
  match g with
  | None => P
  | Some l => lit_holds σ l → P
  end.

Definition sat (σ : assignment) (ct : constraint) : Prop :=
  match ct with
  | Linear e1 r e2 g => enforced σ g (rel_holds r (eval σ e1) (eval σ e2))
  | BoolAnd ls g => enforced σ g (Forall (lit_holds σ) ls)
  | AllDifferent xs => NoDup (σ <$> xs)
  end.

Definition in_domain (σ : assignment) (x : var) (d : IntVar) : Prop :=
  lb d ≤ σ x ≤ ub d.

(** [σ] is a solution of [m]: every variable lies in its domain and every
    constraint holds. *)
Definition solution (m : CpModel) (σ : assignment) : Prop :=
  (∀ x d, variables m !! x = Some d → in_domain σ x d) ∧
  Forall (sat σ) (constraints m).

(** ** The word index ([word_to_numbers], [load_words])

    Words are modelled as ASCII strings; the argument of [load_words] is the
    list of lines of the word file after [strip()]. *)

(** [str.upper()] on an ASCII letter. *)
Definition upper_ascii (a : ascii) : ascii :=
  let n := nat_of_ascii a in
  if bool_decide (97 ≤ n ≤ 122)%nat then ascii_of_nat (n - 32) else a.

(** [s.find(a)], searching from position [i]: the first position of [a], or
    [-1] when [a] does not occur. *)
Fixpoint find_from (s : string) (a : ascii) (i : Z) : Z :=
  match s with
  | EmptyString => -1
  | String b s' => if bool_decide (a = b) then i else find_from s' a (i + 1)
  end.

Fixpoint letters (s : string) : list ascii :=
  match s with
  | EmptyString => []
  | String a s' => a :: letters s'
  end.

Definition word_to_numbers (word : string) : list Z :=
  (λ letter, find_from " ABCDEFGHIJKLMNOPQRSTUVWXYZ" (upper_ascii letter) 0)
    <$> letters word.

(** One iteration of the loop of [load_words]: the state is the dict and the
    id counter [i]. *)
Definition add_word (st : gmap Z (list (list Z)) * Z) (word : string)
  : gmap Z (list (list Z)) * Z :=
  let '(wordlist, i) := st in
  let word_length := Z.of_nat (String.length word) in
  let entry := word_to_numbers word ++ [i] in
  (match wordlist !! word_length with
   | Some ws => <[word_length := ws ++ [entry]]> wordlist
   | None => <[word_length := [entry]]> wordlist
   end, i + 1).

Definition load_words (words : list string) : gmap Z (list (list Z)) :=
  (foldl add_word (∅, 0) words).1.

(** ** Python's [int / int] and [int(float)]

    [a / b] on integers is the exact quotient rounded to the nearest double
    (ties to even); a finite double is kept as [fm * 2 ^ fe].  [int(x)]
    truncates towards zero. *)

Record float := { fm : Z; fe : Z }.

(** [a / (b * 2 ^ e)] as a fraction of integers. *)
Definition scaled (a b e : Z) : Z * Z :=
  if bool_decide (0 ≤ e) then (a, b * 2 ^ e) else (a * 2 ^ (- e), b).

Definition round_half_even (num den : Z) : Z :=
  let q := num `div` den in
  let r := num `mod` den in
  if bool_decide (2 * r < den) then q
  else if bool_decide (den < 2 * r) then q + 1
  else if Z.even q then q else q + 1.

(** The quotient of two positive integers, with 53 bits of precision above
    the subnormal exponent [-1074]. *)
Definition truediv_pos (a b : Z) : float :=
  let k := Z.log2 a - Z.log2 b in
  let '(n0, d0) := scaled a b k in
  let e := Z.max (if bool_decide (d0 ≤ n0) then k - 52 else k - 53) (-1074) in
  let '(n, d) := scaled a b e in
  {| fm := round_half_even n d; fe := e |}.

Definition truediv (a b : Z) : result float :=
  if bool_decide (b = 0) then Raise ZeroDivisionError
  else if bool_decide (a = 0) then Ok {| fm := 0; fe := 0 |}
  else
    let x := truediv_pos (Z.abs a) (Z.abs b) in
    if bool_decide (2 ^ 1024 ≤ fm x * 2 ^ fe x) then Raise OverflowError
    else Ok {| fm := Z.sgn a * Z.sgn b * fm x; fe := fe x |}.

Definition py_int (x : float) : Z :=
  if bool_decide (0 ≤ fe x) then fm x * 2 ^ fe x
  else fm x `quot` 2 ^ (- fe x).

(** The same quotient by the Standard Library's specification of IEEE 754
    binary64 division, for operands that are doubles themselves (below
    [2 ^ 53] in absolute value), where Python's quotient and the division of
    the converted operands coincide. *)
Definition binary64 (n : Z) : SpecFloat.spec_float :=
  SpecFloat.binary_normalize 53 1024 n 0 false.

Definition IEEE_div (a b : Z) : SpecFloat.spec_float :=
  SpecFloat.SFdiv 53 1024 (binary64 a) (binary64 b).

Definition same_float (x : result float) (y : SpecFloat.spec_float) : bool :=
  match x, y with
  | Ok x, SpecFloat.S754_zero _ => bool_decide (fm x = 0)
  | Ok x, SpecFloat.S754_finite s m e =>
      let k := Z.min (fe x) e in
      bool_decide (fm x * 2 ^ (fe x - k) =
                   (if s then Z.neg m else Z.pos m) * 2 ^ (e - k))
  | Raise ZeroDivisionError, (SpecFloat.S754_nan | SpecFloat.S754_infinity _) =>
      true
  | _, _ => false
  end.

Definition division_samples : list Z :=
  range 300 ++
  [2 ^ 40 + 7; 123456789012345; 5 * 2 ^ 50 + 1; 5 * 2 ^ 50 + 2; 5 * 2 ^ 50 + 3;
   5 * 2 ^ 50 + 4; 2 ^ 52 - 1; 2 ^ 52; 2 ^ 52 + 1; 2 ^ 52 + 2; 2 ^ 52 + 3;
   2 ^ 52 + 4; 2 ^ 53 - 7; 2 ^ 53 - 6; 2 ^ 53 - 5; 2 ^ 53 - 4; 2 ^ 53 - 3;
   2 ^ 53 - 2; 2 ^ 53 - 1; -7; -64].

Definition divisor_samples : list Z :=
  [5; 1; 3; 7; -5; 1000001; 2 ^ 53 - 1; 0].

(** ** The reified table constraint ([table])

    [table(model, variables, tuples, option)]; the model is the monad's
    state. *)

(** [for t in tuples: for i, j in enumerate(t): possible_values[i].add(j)]. *)
Definition pv_add (pv : gmap Z (gset Z)) (ij : Z * Z) : result (gmap Z (gset Z)) :=
  s ← getkey pv ij.1; Ok (<[ij.1 := s ∪ {[ij.2]}]> pv).

Fixpoint foldM {A B} (f : A → B → result A) (a : A) (xs : list B) : result A :=
  match xs with
  | [] => Ok a
  | x :: xs' => a' ← f a x; foldM f a' xs'
  end.

Definition collect_values (pv : gmap Z (gset Z)) (tuples : list (list Z))
  : result (gmap Z (gset Z)) :=
  foldM (λ pv t, foldM pv_add pv (enumerate t)) pv tuples.

Definition table_vars (vars : list var) (tuples : list (list Z))
  : M (list var * list (list var) * gmap Z (gset Z) * Z) :=
  b ← comp (range (len tuples)) (λ i, NewBoolVar ("b" +:+ idx i));
  let possible_values0 : gmap Z (gset Z) :=
    list_to_map ((λ i, (i, ∅)) <$> range (len vars)) in
  max_value ← lift (ms ← traverse py_max tuples; py_max ms);
  possible_values ← lift (collect_values possible_values0 tuples);
  is_assigned ← comp (range (len vars)) (λ i,
                   comp (range (max_value + 1)) (λ j,
                     NewBoolVar ("is_assigned" +:+ idx i +:+ idx j)));
  mret (b, is_assigned, possible_values, max_value).

Definition table_constraints (vars : list var) (tuples : list (list Z))
    (option : var) (b : list var) (is_assigned : list (list var))
    (possible_values : gmap Z (gset Z)) (max_value : Z) : M () :=
  (* Some assignments are impossible since the value is found in no tuple. *)
  for_ (range (len vars)) (λ i,
    for_ (range (max_value + 1)) (λ j,
      s ← lift (getkey possible_values i);
      if bool_decide (j ∉ s) then
        a ← at2 is_assigned i j;
        Add (Linear (EVar a) REq (EConst 0) (Some (Pos option)))
      else mret ()));;
  (* One value must be assigned to each variable. *)
  for_ is_assigned (λ i,
    Add (Linear (ESum (EVar <$> i)) REq (EConst 1) (Some (Pos option))));;
  (* Link is_assigned and variables. *)
  for_ (range (len vars)) (λ i,
    for_ (range (max_value + 1)) (λ j,
      x ← lift (getitem vars i);
      a ← at2 is_assigned i j;
      Add (Linear (EVar x) REq (EConst j) (Some (Pos a)))));;
  (* TABLE constraint. *)
  for_ (enumerate tuples) (λ '(i, t),
    ls ← comp (range (len t)) (λ j,
           row ← lift (getitem is_assigned j);
           tj ← lift (getitem t j);
           a ← lift (getitem row tj);
           mret (Pos a));
    bi ← lift (getitem b i);
    Add (BoolAnd ls (Some (Pos bi))));;
  (* Only one tuple may be assigned to the variables. *)
  Add (Linear (ESum (EVar <$> b)) REq (EConst 1) (Some (Pos option))).

Definition table (vars : list var) (tuples : list (list Z)) (option : var) : M () :=
  '(b, is_assigned, possible_values, max_value) ← table_vars vars tuples;
  table_constraints vars tuples option b is_assigned possible_values max_value.

(** ** The crossword model (module level of [crosswords.py])

    The module-level names [wordlist], [rows] and [columns] are the section's
    variables; the arrays of variables the script keeps in globals are
    collected in [Grid.t]. *)

Module Grid.
Record t := {
  L : list (list var);
  B : list (list var);
  A : list (list (list var));
  IA : list (list var);
  D : list (list (list var));
  ID : list (list var);
  LLA : list (list var);
  LLAB : list (list var);
  LLD : list (list var);
  LLDB : list (list var)
}.
End Grid.

Section Crossword.
Variable wordlist : gmap Z (list (list Z)).
Variables rows columns : Z.

(** [L[r][c]] denotes the letter at row [r] and column [c]; 0 is a black
    square. *)
Definition new_L : M (list (list var)) :=
  comp (range rows) (λ r, comp (range columns) (λ c,
    NewIntVar 0 26 ("L" +:+ idx r +:+ idx c))).

(** A [rows] by [columns] array of Boolean variables named [nm[r][c]]. *)
Definition new_bools (nm : string) : M (list (list var)) :=
  comp (range rows) (λ r, comp (range columns) (λ c,
    NewBoolVar (nm +:+ idx r +:+ idx c))).

(** Link B and L. *)
Definition link_B_L (L B : list (list var)) : M () :=
  for_ (range rows) (λ r, for_ (range columns) (λ c,
    l ← at2 L r c; b ← at2 B r c;
    Add (Linear (EVar l) REq (EConst 0) (Some (Pos b)));;
    l ← at2 L r c; b ← at2 B r c;
    Add (Linear (EVar l) RNe (EConst 0) (Some (Neg b))))).

Definition new_A : M (list (list (list var))) :=
  comp (range (columns + 1)) (λ l, comp (range rows) (λ r,
    comp (range columns) (λ c, NewBoolVar ("A" +:+ idx l +:+ idx r +:+ idx c)))).

(** [sum(len(wordlist[l]) for l in wordlist) + rows*columns*2]. *)
Definition id_bound : Z :=
  foldr Z.add 0 ((λ kv, len kv.2) <$> map_to_list wordlist) + rows * columns * 2.

Definition new_ids (nm : string) : M (list (list var)) :=
  comp (range rows) (λ r, comp (range columns) (λ c,
    NewIntVar 0 id_bound (nm +:+ idx r +:+ idx c))).

(** Body of the across loop at [(l, r, c)]. *)
Definition across_cell (L : list (list var)) (A : list (list (list var)))
    (IA : list (list var)) (l r c : Z) : M () :=
  if bool_decide (wordlist !! l = None) then
    a ← at3 A l r c; Add (Linear (EVar a) REq (EConst 0) None)
  else if bool_decide (columns - c < l) then
    a ← at3 A l r c; Add (Linear (EVar a) REq (EConst 0) None)
  else
    (if bool_decide (l = columns) then
       xs ← comp2 (range (columns + 1)) (λ _, range (columns - c))
              (λ i j, at3 A i r (c + j));
       a ← at3 A l r c;
       Add (Linear (ESum (EVar <$> xs)) REq (EConst 1) (Some (Pos a)))
     else if bool_decide (c = 0) then
       xs ← comp2 (range (columns + 1)) (λ _, range (l + 1))
              (λ i j, at3 A i r (c + j));
       a ← at3 A l r c;
       Add (Linear (ESum (EVar <$> xs)) REq (EConst 1) (Some (Pos a)))
     else if bool_decide (c + l = columns) then
       xs ← comp2 (range (columns + 1)) (λ _, range (columns - c))
              (λ i j, at3 A i r (c + j));
       a ← at3 A l r c;
       Add (Linear (ESum (EVar <$> xs)) REq (EConst 1) (Some (Pos a)))
     else
       xs ← comp2 (range (columns + 1)) (λ _, range (l + 2))
              (λ i j, at3 A i r (c - 1 + j));
       a ← at3 A l r c;
       Add (Linear (ESum (EVar <$> xs)) REq (EConst 1) (Some (Pos a))));;
    vs ← comp (range l) (λ i, at2 L r (c + i));
    ia ← at2 IA r c;
    ws ← lift (getkey wordlist l);
    a ← at3 A l r c;
    table (vs ++ [ia]) ws a.

Definition across_constraints (L : list (list var))
    (A : list (list (list var))) (IA : list (list var)) : M () :=
  for_ (range (columns + 1)) (λ l, for_ (range rows) (λ r,
    for_ (range columns) (λ c, across_cell L A IA l r c))).

Definition new_D : M (list (list (list var))) :=
  comp (range (rows + 1)) (λ l, comp (range rows) (λ r,
    comp (range columns) (λ c, NewBoolVar ("D" +:+ idx l +:+ idx r +:+ idx c)))).

(** Body of the down loop at [(l, r, c)]. *)
Definition down_cell (L : list (list var)) (D : list (list (list var)))
    (ID : list (list var)) (l r c : Z) : M () :=
  if bool_decide (wordlist !! l = None) then
    d ← at3 D l r c; Add (Linear (EVar d) REq (EConst 0) None)
  else if bool_decide (rows - r < l) then
    d ← at3 D l r c; Add (Linear (EVar d) REq (EConst 0) None)
  else
    (if bool_decide (l = rows) then
       xs ← comp2 (range (rows + 1)) (λ _, range (rows - r))
              (λ i j, at3 D i (r + j) c);
       d ← at3 D l r c;
       Add (Linear (ESum (EVar <$> xs)) REq (EConst 1) (Some (Pos d)))
     else if bool_decide (r = 0) then
       xs ← comp2 (range (rows + 1)) (λ _, range (l + 1))
              (λ i j, at3 D i (r + j) c);
       d ← at3 D l r c;
       Add (Linear (ESum (EVar <$> xs)) REq (EConst 1) (Some (Pos d)))
     else if bool_decide (r + l = rows) then
       xs ← comp2 (range (rows + 1)) (λ _, range (rows - r))
              (λ i j, at3 D i (r + j) c);
       d ← at3 D l r c;
       Add (Linear (ESum (EVar <$> xs)) REq (EConst 1) (Some (Pos d)))
     else
       xs ← comp2 (range (rows + 1)) (λ _, range (l + 2))
              (λ i j, at3 D i (r - 1 + j) c);
       d ← at3 D l r c;
       Add (Linear (ESum (EVar <$> xs)) REq (EConst 1) (Some (Pos d))));;
    vs ← comp (range l) (λ i, at2 L (r + i) c);
    id ← at2 ID r c;
    ws ← lift (getkey wordlist l);
    d ← at3 D l r c;
    table (vs ++ [id]) ws d.

Definition down_constraints (L : list (list var))
    (D : list (list (list var))) (ID : list (list var)) : M () :=
  for_ (range (rows + 1)) (λ l, for_ (range rows) (λ r,
    for_ (range columns) (λ c, down_cell L D ID l r c))).

(** Ensure that all words are different. *)
Definition all_different (IA ID : list (list var)) : M () :=
  xs ← comp2 (range rows) (λ _, range columns) (λ r c, at2 IA r c);
  ys ← comp2 (range rows) (λ _, range columns) (λ r c, at2 ID r c);
  Add (AllDifferent (xs ++ ys)).

(** Constraints for LLA. *)
Definition lone_across (B LLA : list (list var)) : M () :=
  for_ (range rows) (λ r,
    x ← at2 LLA r 0; b ← at2 B r 1;
    Add (Linear (EVar x) REq (EVar b) None);;
    x ← at2 LLA r (columns - 1); b ← at2 B r (columns - 2);
    Add (Linear (EVar x) REq (EVar b) None);;
    for_ (range2 1 (columns - 1)) (λ c,
      b1 ← at2 B r (c - 1); b2 ← at2 B r (c + 1); x ← at2 LLA r c;
      Add (Linear (EAdd (EVar b1) (EVar b2)) REq (EConst 2) (Some (Pos x)));;
      b1 ← at2 B r (c - 1); b2 ← at2 B r (c + 1); x ← at2 LLA r c;
      Add (Linear (EAdd (EVar b1) (EVar b2)) RLe (EConst 1) (Some (Neg x))))).

(** Constraints for LLAB and for LLDB. *)
Definition lone_or_black (LL B LLB : list (list var)) : M () :=
  for_ (range rows) (λ r, for_ (range columns) (λ c,
    x ← at2 LL r c; b ← at2 B r c; y ← at2 LLB r c;
    Add (Linear (EAdd (EVar x) (EVar b)) RGe (EConst 1) (Some (Pos y)));;
    x ← at2 LL r c; b ← at2 B r c; y ← at2 LLB r c;
    Add (Linear (EAdd (EVar x) (EVar b)) REq (EConst 0) (Some (Neg y))))).

(** A letter that is not a lone letter is covered by an active across word. *)
Definition cover_across (A : list (list (list var))) (LLAB : list (list var))
  : M () :=
  for_ (range rows) (λ r, for_ (range columns) (λ c,
    xs ← comp2 (range (columns + 1)) (λ i, range (Z.min i (c + 1)))
           (λ i j, at3 A i r (c - j));
    y ← at2 LLAB r c;
    Add (Linear (ESum (EVar <$> xs)) REq (EConst 1) (Some (Neg y))))).

(** Constraints for LLD. *)
Definition lone_down (B LLD : list (list var)) : M () :=
  for_ (range columns) (λ c,
    x ← at2 LLD 0 c; b ← at2 B 1 c;
    Add (Linear (EVar x) REq (EVar b) None);;
    x ← at2 LLD (rows - 1) c; b ← at2 B (rows - 2) c;
    Add (Linear (EVar x) REq (EVar b) None);;
    for_ (range2 1 (rows - 1)) (λ r,
      b1 ← at2 B (r - 1) c; b2 ← at2 B (r + 1) c; x ← at2 LLD r c;
      Add (Linear (EAdd (EVar b1) (EVar b2)) REq (EConst 2) (Some (Pos x)));;
      b1 ← at2 B (r - 1) c; b2 ← at2 B (r + 1) c; x ← at2 LLD r c;
      Add (Linear (EAdd (EVar b1) (EVar b2)) RLe (EConst 1) (Some (Neg x))))).

(** A letter that is not a lone letter is covered by an active down word. *)
Definition cover_down (D : list (list (list var))) (LLDB : list (list var))
  : M () :=
  for_ (range rows) (λ r, for_ (range columns) (λ c,
    xs ← comp2 (range (rows + 1)) (λ i, range (Z.min i (r + 1)))
           (λ i j, at3 D i (r - j) c);
    y ← at2 LLDB r c;
    Add (Linear (ESum (EVar <$> xs)) REq (EConst 1) (Some (Neg y))))).

(** A letter shouldn't be a lone letter both across and down. *)
Definition not_both_lone (LLA LLD : list (list var)) : M () :=
  for_ (range rows) (λ r, for_ (range columns) (λ c,
    x ← at2 LLA r c; y ← at2 LLD r c;
    Add (Linear (EAdd (EVar x) (EVar y)) RLe (EConst 1) None))).

(** Prevent 3x3 sub-grids from having too many black squares. *)
Definition windows_3x3 (B : list (list var)) : M () :=
  if bool_decide (3 ≤ rows) && bool_decide (3 ≤ columns) then
    for_ (range2 0 (rows - 2)) (λ r, for_ (range2 0 (columns - 2)) (λ c,
      xs ← comp2 (range2 r (r + 3)) (λ _, range2 c (c + 3)) (λ i j, at2 B i j);
      Add (Linear (ESum (EVar <$> xs)) RLe (EConst 2) None)))
  else mret ().

(** Limit the number of black squares: [int(rows*columns/5)]. *)
Definition black_limit (B : list (list var)) : M () :=
  q ← lift (truediv (rows * columns) 5);
  Add (Linear (ESum ((λ row, ESum (EVar <$> row)) <$> B)) RLe
         (EConst (py_int q)) None).

Definition build_model : M Grid.t :=
  L ← new_L;
  B ← new_bools "B";
  link_B_L L B;;
  A ← new_A;
  IA ← new_ids "IA";
  across_constraints L A IA;;
  D ← new_D;
  ID ← new_ids "ID";
  down_constraints L D ID;;
  all_different IA ID;;
  LLA ← new_bools "LLA";
  lone_across B LLA;;
  LLAB ← new_bools "LLAB";
  lone_or_black LLA B LLAB;;
  cover_across A LLAB;;
  LLD ← new_bools "LLD";
  lone_down B LLD;;
  LLDB ← new_bools "LLDB";
  lone_or_black LLD B LLDB;;
  cover_down D LLDB;;
  not_both_lone LLA LLD;;
  windows_3x3 B;;
  black_limit B;;
  mret {| Grid.L := L; Grid.B := B; Grid.A := A; Grid.IA := IA; Grid.D := D;
          Grid.ID := ID; Grid.LLA := LLA; Grid.LLAB := LLAB;
          Grid.LLD := LLD; Grid.LLDB := LLDB |}.
End Crossword.

(** ** Solving and decoding

    The solver is external: it maps a model to a status and, for the
    variables, the values [solver.Value] returns.  What the script does around
    it is a trace of observable events: text written to the standard output
    and reads of solver values. *)

Inductive status := UNKNOWN | MODEL_INVALID | FEASIBLE | INFEASIBLE | OPTIMAL.

Definition StatusName (st : status) : string :=
  match st with
  | UNKNOWN => "UNKNOWN"
  | MODEL_INVALID => "MODEL_INVALID"
  | FEASIBLE => "FEASIBLE"
  | INFEASIBLE => "INFEASIBLE"
  | OPTIMAL => "OPTIMAL"
  end.

(** [Print s e] is [print(s, end=e)]; [ReadValue x] is [solver.Value(x)]. *)
Inductive event :=
  | Print (text : string) (ending : string)
  | ReadValue (x : var).

(** Output so far, and how the computation ended. *)
Definition W (A : Type) : Type := list event * result A.

#[global] Instance W_ret : MRet W := λ A a, ([], Ok a).
#[global] Instance W_bind : MBind W := λ A B f c,
  match c with
  | (t, Ok a) => let '(t', r) := f a in (t ++ t', r)
  | (t, Raise e) => (t, Raise e)
  end.

Definition emit (ev : event) : W () := ([ev], Ok ()).
Definition liftW {A} (r : result A) : W A := ([], r).

Definition newline : string := String (ascii_of_nat 10) EmptyString.
Definition print (s : string) : W () := emit (Print s newline).
Definition sys_exit : W () := ([], Raise SystemExit).

Fixpoint forW {A} (xs : list A) (body : A → W ()) : W () :=
  match xs with
  | [] => mret ()
  | x :: xs' => body x;; forW xs' body
  end.

(** [s[i]] on a string, as a one-character string. *)
Definition getchar (s : string) (i : Z) : result string :=
  a ← getitem (letters s) i; Ok (String a EmptyString).

Section Solve.
Variables rows columns : Z.

(** Lines 348-359: report the status, stop unless it is [OPTIMAL], print
    the grid. *)
Definition report (L : list (list var)) (st : status) (value : assignment)
  : W () :=
  let status_name := StatusName st in
  print ("Status: " +:+ status_name);;
  print "";;
  (if bool_decide (status_name ≠ "OPTIMAL"%string) then
     print "We have a problem :(";; sys_exit
   else mret ());;
  forW (range rows) (λ r,
    forW (range columns) (λ c,
      x ← liftW (row ← getitem L r; getitem row c);
      emit (ReadValue x);;
      ch ← liftW (getchar ".ABCDEFGHIJKLMNOPQRSTUVWXYZ" (value x));
      emit (Print ch ""));;
    print "").

(** The whole script, for a word file with lines [words] and a solver
    [solve]. *)
Definition crosswords (solve : CpModel → status * assignment)
    (words : list string) : W () :=
  match build_model (load_words words) rows columns empty_model with
  | Raise e => ([], Raise e)
  | Ok (g, m) => let '(st, value) := solve m in report (Grid.L g) st value
  end.
End Solve.

(** ** Notions used to state the properties *)

(** [m'] is [m] with more variables and constraints appended. *)
Definition extends (m m' : CpModel) : Prop :=
  variables m `prefix_of` variables m' ∧ constraints m `prefix_of` constraints m'.

(** A computation that, when it returns, has only added to the model. *)
Definition mono {A} (c : M A) : Prop :=
  ∀ m a m', c m = Ok (a, m') → extends m m'.

(** [x] is a variable of [m] created with bounds [lo] and [hi]. *)
Definition declared (m : CpModel) (lo hi : Z) (x : var) : Prop :=
  ∃ d, variables m !! x = Some d ∧ lb d = lo ∧ ub d = hi.

(** Shapes of the arrays of variables: [n] rows of [k] entries, and a stack of
    such arrays. *)
Definition matrix {A} (n k : Z) (X : list (list A)) : Prop :=
  length X = Z.to_nat n ∧ Forall (λ row, length row = Z.to_nat k) X.

Definition cube {A} (h n k : Z) (X : list (list (list A))) : Prop :=
  length X = Z.to_nat h ∧ Forall (matrix n k) X.

(** The entry at an index known to be in range. *)
Definition cell (X : list (list var)) (r c : Z) : var :=
  (X !!! Z.to_nat r) !!! Z.to_nat c.

Definition cell3 (X : list (list (list var))) (l r c : Z) : var :=
  ((X !!! Z.to_nat l) !!! Z.to_nat r) !!! Z.to_nat c.

(** The [n] by [k] array [X] with rows and columns exchanged. *)
Definition transpose (n k : Z) (X : list (list var)) : list (list var) :=
  (λ c, (λ r, cell X r c) <$> range n) <$> range k.

(** [ran c a m]: the statement [c] of the script ran, returned [a], and the
    model it left was only added to before reaching the final model [m]. *)
Definition ran {A} (c : M A) (a : A) (m : CpModel) : Prop :=
  ∃ m0 m1, c m0 = Ok (a, m1) ∧ extends m1 m.

(** The statements of the script, for the arrays [g] and the final model [m]. *)
Record built (wordlist : gmap Z (list (list Z))) (rows columns : Z)
    (g : Grid.t) (m : CpModel) : Prop := {
  built_L : ran (new_L rows columns) (Grid.L g) m;
  built_B : ran (new_bools rows columns "B") (Grid.B g) m;
  built_link : ran (link_B_L rows columns (Grid.L g) (Grid.B g)) () m;
  built_A : ran (new_A rows columns) (Grid.A g) m;
  built_IA : ran (new_ids wordlist rows columns "IA") (Grid.IA g) m;
  built_across :
    ran (across_constraints wordlist rows columns (Grid.L g) (Grid.A g) (Grid.IA g)) () m;
  built_D : ran (new_D rows columns) (Grid.D g) m;
  built_ID : ran (new_ids wordlist rows columns "ID") (Grid.ID g) m;
  built_down :
    ran (down_constraints wordlist rows columns (Grid.L g) (Grid.D g) (Grid.ID g)) () m;
  built_all_different :
    ran (all_different rows columns (Grid.IA g) (Grid.ID g)) () m;
  built_LLA : ran (new_bools rows columns "LLA") (Grid.LLA g) m;
  built_lone_across : ran (lone_across rows columns (Grid.B g) (Grid.LLA g)) () m;
  built_LLAB : ran (new_bools rows columns "LLAB") (Grid.LLAB g) m;
  built_lone_or_black_across :
    ran (lone_or_black rows columns (Grid.LLA g) (Grid.B g) (Grid.LLAB g)) () m;
  built_cover_across :
    ran (cover_across rows columns (Grid.A g) (Grid.LLAB g)) () m;
  built_LLD : ran (new_bools rows columns "LLD") (Grid.LLD g) m;
  built_lone_down : ran (lone_down rows columns (Grid.B g) (Grid.LLD g)) () m;
  built_LLDB : ran (new_bools rows columns "LLDB") (Grid.LLDB g) m;
  built_lone_or_black_down :
    ran (lone_or_black rows columns (Grid.LLD g) (Grid.B g) (Grid.LLDB g)) () m;
  built_cover_down :
    ran (cover_down rows columns (Grid.D g) (Grid.LLDB g)) () m;
  built_not_both_lone :
    ran (not_both_lone rows columns (Grid.LLA g) (Grid.LLD g)) () m;
  built_windows_3x3 : ran (windows_3x3 rows columns (Grid.B g)) () m;
  built_black_limit : ran (black_limit rows columns (Grid.B g)) () m
}.

(** [X] is an [n] by [k] array of variables of [m] with bounds [lo], [hi]. *)
Definition vars_in (m : CpModel) (lo hi : Z) (n k : Z) (X : list (list var))
  : Prop :=
  matrix n k X ∧ Forall (Forall (declared m lo hi)) X.

(** The sum of a list of integers, and the index pairs of a two-level
    comprehension [for x in xs for y in ys x]. *)
Definition sumZ (zs : list Z) : Z := foldr Z.add 0 zs.

Definition pairs {A B} (xs : list A) (ys : A → list B) : list (A * B) :=
  concat ((λ x, pair x <$> ys x) <$> xs).

(** [exactly_one P]: one and only one pair satisfies [P]. *)
Definition exactly_one {A B} (P : A → B → Prop) : Prop :=
  ∃ a b, P a b ∧ ∀ a' b', P a' b' → a' = a ∧ b' = b.

(** An active across start indicator of length [l] at column [c0] of row [r]
    whose span [c0 .. c0+l-1] contains column [c]; and the same downwards. *)
Definition across_run_covers (σ : assignment) (g : Grid.t) (columns r c : Z)
    (l c0 : Z) : Prop :=
  0 ≤ l ≤ columns ∧ 0 ≤ c0 ∧ c0 ≤ c < c0 + l ∧ σ (cell3 (Grid.A g) l r c0) = 1.

Definition down_run_covers (σ : assignment) (g : Grid.t) (rows r c : Z)
    (l r0 : Z) : Prop :=
  0 ≤ l ≤ rows ∧ 0 ≤ r0 ∧ r0 ≤ r < r0 + l ∧ σ (cell3 (Grid.D g) l r0 c) = 1.

(** The cells of the grid, row by row, and the cells of the 3x3 window whose
    top-left corner is [(r, c)]. *)
Definition cells (rows columns : Z) : list (Z * Z) :=
  pairs (range rows) (λ _, range columns).

Definition window_3x3 (r c : Z) : list (Z * Z) :=
  pairs (range2 r (r + 3)) (λ _, range2 c (c + 3)).

(** The number of black squares ([L[r][c] = 0]) among [ps]. *)
Definition blacks (σ : assignment) (g : Grid.t) (ps : list (Z * Z)) : Z :=
  len (filter (λ p, σ (cell (Grid.L g) p.1 p.2) = 0) ps).

(** The columns of the start-indicator window of an across placement of
    length [l] at column [c], by the four boundary cases: the word spans the
    whole row; it starts on the left edge; it ends on the right edge; it
    touches neither edge. *)
Definition across_window (columns l c : Z) : list Z :=
  if bool_decide (l = columns) then range2 c columns
  else if bool_decide (c = 0) then range2 c (c + l + 1)
  else if bool_decide (c + l = columns) then range2 c columns
  else range2 (c - 1) (c + l + 1).

(** The rows of the window of a down placement, likewise. *)
Definition down_window (rows l r : Z) : list Z :=
  if bool_decide (l = rows) then range2 r rows
  else if bool_decide (r = 0) then range2 r (r + l + 1)
  else if bool_decide (r + l = rows) then range2 r rows
  else range2 (r - 1) (r + l + 1).

(** The start indicators of every length at the given columns of row [r]
    (rows of column [c]). *)
Definition across_starts (A : list (list (list var))) (columns r : Z)
    (cs : list Z) : list var :=
  (λ p, cell3 A p.1 r p.2) <$> pairs (range (columns + 1)) (λ _, cs).

Definition down_starts (D : list (list (list var))) (rows c : Z)
    (rs : list Z) : list var :=
  (λ p, cell3 D p.1 p.2 c) <$> pairs (range (rows + 1)) (λ _, rs).

(** The call of [table] that ends the body of the across (down) loop. *)
Definition across_table (wordlist : gmap Z (list (list Z)))
    (L : list (list var)) (A : list (list (list var))) (IA : list (list var))
    (l r c : Z) : M () :=
  vs ← comp (range l) (λ i, at2 L r (c + i));
  ia ← at2 IA r c;
  ws ← lift (getkey wordlist l);
  a ← at3 A l r c;
  table (vs ++ [ia]) ws a.

Definition down_table (wordlist : gmap Z (list (list Z)))
    (L : list (list var)) (D : list (list (list var))) (ID : list (list var))
    (l r c : Z) : M () :=
  vs ← comp (range l) (λ i, at2 L (r + i) c);
  id ← at2 ID r c;
  ws ← lift (getkey wordlist l);
  d ← at3 D l r c;
  table (vs ++ [id]) ws d.

(** ** Notions used to state the properties of [table] *)

(** [post m cs]: the model [m] with the constraints [cs] appended. *)
Definition post (m : CpModel) (cs : list constraint) : CpModel :=
  {| variables := variables m; constraints := constraints m ++ cs |}.

(** [declare m ds]: the model [m] with the variables [ds] appended. *)
Definition declare (m : CpModel) (ds : list IntVar) : CpModel :=
  {| variables := variables m ++ ds; constraints := constraints m |}.

(** A statement that, in any model, runs to completion and appends exactly
    the constraints [cs]. *)
Definition posts (c : M ()) (cs : list constraint) : Prop :=
  ∀ m, c m = Ok ((), post m cs).

(** The constraints [table_constraints] posts, for the arrays [b] and
    [is_assigned] it is given: the same five loops, as one list. *)
Definition table_cts (vars : list var) (tuples : list (list Z)) (option : var)
    (b : list var) (is_assigned : list (list var))
    (possible_values : gmap Z (gset Z)) (max_value : Z) : list constraint :=
  concat ((λ i, concat ((λ j,
      if bool_decide (j ∉ default ∅ (possible_values !! i)) then
        [Linear (EVar (cell is_assigned i j)) REq (EConst 0) (Some (Pos option))]
      else []) <$> range (max_value + 1))) <$> range (len vars))
  ++ ((λ row, Linear (ESum (EVar <$> row)) REq (EConst 1) (Some (Pos option)))
        <$> is_assigned)
  ++ concat ((λ i, (λ j,
      Linear (EVar (vars !!! Z.to_nat i)) REq (EConst j)
        (Some (Pos (cell is_assigned i j)))) <$> range (max_value + 1))
        <$> range (len vars))
  ++ ((λ it, BoolAnd ((λ j, Pos (cell is_assigned j (it.2 !!! Z.to_nat j)))
                        <$> range (len it.2))
               (Some (Pos (b !!! Z.to_nat it.1)))) <$> enumerate tuples)
  ++ [Linear (ESum (EVar <$> b)) REq (EConst 1) (Some (Pos option))].

(** [σ'] keeps the values [σ] gives to the first [n] variables. *)
Definition agree_below (n : nat) (σ σ' : assignment) : Prop :=
  ∀ x, (x < n)%nat → σ' x = σ x.

(** An assignment [σ] to the variables of [m] is accepted by the variables
    [ds] and constraints [cs] added to [m] when it extends to the new
    variables, within their domains, so that the new constraints hold. *)
Definition accepts (m : CpModel) (ds : list IntVar) (cs : list constraint)
    (σ : assignment) : Prop :=
  ∃ σ', agree_below (length (variables m)) σ σ' ∧
        (∀ i d, ds !! i = Some d → in_domain σ' (length (variables m) + i)%nat d) ∧
        Forall (sat σ') cs.

(** Exactly one of the variables [xs] has value 1 under [σ]. *)
Definition one_true (σ : assignment) (xs : list var) : Prop :=
  ∃ x, x ∈ xs ∧ σ x = 1 ∧ ∀ y, y ∈ xs → σ y = 1 → y = x.

(** Tuples as [table] expects them: as long as the variables, with
    non-negative entries (letter codes and word ids). *)
Definition tuples_ok (k : nat) (tuples : list (list Z)) : Prop :=
  tuples ≠ [] ∧ Forall (λ t, length t = k ∧ Forall (λ v, 0 ≤ v) t) tuples.

(** Every exception [c] can end with is one of [S]. *)
Definition raises_only {A} (S : exn → Prop) (c : M A) : Prop :=
  ∀ m e, c m = Raise e → S e.

(** A failed subscript, a missing key, or a quotient too large for a
    float. *)
Definition lookup_or_overflow (e : exn) : Prop :=
  e = IndexError ∨ e = KeyError ∨ e = OverflowError.

(** A word index as [load_words] makes them: no length is mapped to an empty
    list, and no entry is empty (each ends with its id). *)
Definition word_index (wordlist : gmap Z (list (list Z))) : Prop :=
  map_Forall (λ _ ws, ws ≠ [] ∧ Forall (λ t, t ≠ []) ws) wordlist.

(** The dict [possible_values] has the keys [0 .. k-1]; [P i j] says which
    values its sets hold. *)
Definition pv_inv (k : Z) (pv : gmap Z (gset Z)) (P : Z → Z → Prop) : Prop :=
  ∀ i, (0 ≤ i < k → ∃ s, pv !! i = Some s ∧ ∀ j, j ∈ s ↔ P i j) ∧
       (¬ (0 ≤ i < k) → pv !! i = None).


(** What the constraints of [table_cts] say about an assignment, loop by
    loop. *)
Record table_sem (vars : list var) (tuples : list (list Z)) (option : var)
    (b : list var) (is_assigned : list (list var))
    (possible_values : gmap Z (gset Z)) (max_value : Z) (σ : assignment)
  : Prop := {
  sem_impossible : ∀ i j,
    0 ≤ i < len vars → 0 ≤ j ≤ max_value →
    j ∉ default ∅ (possible_values !! i) →
    σ option = 1 → σ (cell is_assigned i j) = 0;
  sem_one_value : ∀ row,
    row ∈ is_assigned → σ option = 1 → sumZ (σ <$> row) = 1;
  sem_link : ∀ i j,
    0 ≤ i < len vars → 0 ≤ j ≤ max_value →
    σ (cell is_assigned i j) = 1 → σ (vars !!! Z.to_nat i) = j;
  sem_tuple : ∀ (k : nat) t,
    tuples !! k = Some t → σ (b !!! k) = 1 →
    ∀ j, 0 ≤ j < len t → σ (cell is_assigned j (t !!! Z.to_nat j)) = 1;
  sem_one_tuple : σ option = 1 → sumZ (σ <$> b) = 1
}.

(** ** Checking a given assignment against a model *)

Definition holds_lit (σ : assignment) (l : lit) : bool :=
  match l with
  | Pos x => bool_decide (σ x = 1)
  | Neg x => bool_decide (σ x = 0)
  end.

Definition holds_rel (r : rel) (a b : Z) : bool :=
  match r with
  | REq => bool_decide (a = b)
  | RNe => bool_decide (a ≠ b)
  | RLe => bool_decide (a ≤ b)
  | RGe => bool_decide (b ≤ a)
  end.

Definition holds_if (σ : assignment) (g : option lit) (p : bool) : bool :=
  match g with
  | None => p
  | Some l => implb (holds_lit σ l) p
  end.

Definition holds (σ : assignment) (ct : constraint) : bool :=
  match ct with
  | Linear e1 r e2 g => holds_if σ g (holds_rel r (eval σ e1) (eval σ e2))
  | BoolAnd ls g => holds_if σ g (forallb (holds_lit σ) ls)
  | AllDifferent xs => bool_decide (NoDup (σ <$> xs))
  end.

Definition check_domains (σ : assignment) (ds : list IntVar) (from : nat) : bool :=
  forallb (λ p, bool_decide (in_domain σ p.1 p.2))
          (imap (λ i d, ((from + i)%nat, d)) ds).

Definition check_solution (m : CpModel) (σ : assignment) : bool :=
  check_domains σ (variables m) 0 && forallb (holds σ) (constraints m).

(** An assignment given as the list of its values, variable by variable. *)
Definition assign (values : list Z) : assignment := λ x, values !!! x.

(** ** What the script prints *)

(** The character printed for the letter code [v]. *)
Definition symbol (v : Z) : string :=
  match getchar ".ABCDEFGHIJKLMNOPQRSTUVWXYZ" v with
  | Ok s => s
  | Raise _ => ""
  end.

(** The two lines that report the status. *)
Definition status_lines (st : status) : list event :=
  [Print ("Status: " +:+ StatusName st) newline; Print "" newline].

(** The events of decoding the grid: each letter variable is read and its
    character printed, row by row, with a newline after each row. *)
Definition grid_events (rows columns : Z) (L : list (list var))
    (value : assignment) : list event :=
  concat ((λ r,
    concat ((λ c, [ReadValue (cell L r c);
                   Print (symbol (value (cell L r c))) ""]) <$> range columns)
    ++ [Print "" newline]) <$> range rows).

(** No solver value is read in the trace [t]. *)
Definition reads_nothing (t : list event) : Prop :=
  ∀ x, ReadValue x ∉ t.

(** ** Worked examples *)

Definition no_grid : Grid.t :=
  {| Grid.L := []; Grid.B := []; Grid.A := []; Grid.IA := []; Grid.D := [];
     Grid.ID := []; Grid.LLA := []; Grid.LLAB := []; Grid.LLD := [];
     Grid.LLDB := [] |}.

(** A three by three grid over a word file with two words of two letters and
    four of three letters. *)
Definition example_words : list string :=
  ["AA"; "AA"; "AAA"; "AAA"; "AAA"; "AAA"].

Definition example_grid : Grid.t :=
  match build_model (load_words example_words) 3 3 empty_model with
  | Ok (g, _) => g
  | Raise _ => no_grid
  end.

Definition example_model : CpModel :=
  match build_model (load_words example_words) 3 3 empty_model with
  | Ok (_, m) => m
  | Raise _ => empty_model
  end.

(** The values, variable by variable, of a solution that spells
<<
      #AA
      AAA
      AAA
>>
    with the across words 0, 2, 3 and the down words 1, 4, 5. *)
Definition example_values : list Z :=
  [0; 1; 1; 1; 1; 1; 1; 1; 1; 1; 0; 0; 0; 0; 0; 0; 0; 0; 0; 0; 0; 0; 0; 0; 0;
   0; 0; 0; 0; 0; 0; 0; 0; 0; 0; 0; 0; 1; 0; 0; 0; 0; 0; 0; 0; 0; 0; 0; 1; 0;
   0; 1; 0; 0; 6; 0; 7; 2; 8; 9; 3; 10; 11; 0; 0; 0; 0; 0; 0; 0; 0; 1; 0; 0;
   1; 0; 1; 1; 0; 0; 0; 0; 0; 0; 0; 0; 0; 0; 0; 0; 0; 0; 0; 0; 0; 0; 0; 0; 0;
   0; 0; 0; 0; 0; 0; 0; 0; 0; 0; 0; 0; 0; 0; 0; 0; 0; 0; 0; 0; 0; 0; 0; 0; 0;
   0; 0; 0; 0; 0; 0; 0; 0; 0; 0; 0; 0; 0; 0; 0; 1; 0; 0; 0; 0; 1; 0; 0; 0; 0;
   0; 1; 0; 0; 0; 0; 0; 1; 0; 0; 0; 0; 0; 0; 1; 0; 0; 0; 0; 1; 0; 0; 0; 1; 0;
   0; 0; 0; 0; 1; 0; 0; 0; 0; 0; 1; 0; 0; 0; 0; 0; 0; 0; 1; 0; 0; 0; 0; 0; 0;
   0; 0; 0; 0; 0; 0; 0; 0; 0; 0; 0; 0; 0; 0; 0; 0; 0; 1; 0; 0; 0; 0; 0; 0; 1;
   1; 0; 0; 0; 0; 0; 0; 12; 4; 5; 1; 13; 14; 15; 16; 17; 0; 0; 0; 0; 0; 0; 0;
   0; 0; 0; 0; 0; 0; 0; 0; 0; 0; 0; 0; 0; 0; 0; 0; 0; 0; 1; 0; 1; 0; 1; 0; 1;
   0; 0; 0; 0; 0; 0; 0; 0; 0; 0; 0; 0; 0; 0; 0; 0; 0; 0; 0; 0; 0; 0; 0; 0; 0;
   0; 0; 0; 0; 0; 0; 0; 0; 0; 0; 0; 0; 0; 0; 0; 0; 0; 0; 0; 0; 0; 1; 0; 0; 1;
   0; 0; 0; 0; 0; 1; 0; 0; 0; 0; 0; 1; 0; 0; 0; 0; 0; 0; 0; 0; 1; 0; 0; 0; 0;
   1; 0; 1; 0; 0; 0; 0; 0; 1; 0; 0; 0; 0; 0; 1; 0; 0; 0; 0; 0; 0; 0; 0; 0; 1;
   0; 0; 0; 0; 0; 0; 0; 0; 0; 1; 0; 0; 0; 0; 0; 0; 0; 0; 0; 0; 0; 0; 0; 0; 0;
   0; 0; 1; 0; 0; 0; 0; 0; 0; 0; 0].

(** A model with a letter, an id and a guard, and the table of the words
    [A] (id 0) and [B] (id 1) posted on it. *)
Definition small_model : CpModel :=
  declare empty_model [{| lb := 0; ub := 26; name := "x" |};
                       {| lb := 0; ub := 5; name := "id" |};
                       {| lb := 0; ub := 1; name := "guard" |}].

Definition small_tuples : list (list Z) := [[1; 0]; [2; 1]].

Definition small_table : CpModel :=
  match table [0; 1]%nat small_tuples 2%nat small_model with
  | Ok (_, m) => m
  | Raise _ => empty_model
  end.

Definition small_is_assigned : list (list var) :=
  match table_vars [0; 1]%nat small_tuples small_model with
  | Ok ((_, is_assigned, _, _), _) => is_assigned
  | Raise _ => []
  end.

(** The letter is [A], the guard is false and every variable of the table is
    false. *)
Definition small_values : list Z := [1; 0; 0; 0; 0; 0; 0; 0; 0; 0; 0].

(** Two across runs of length [l], starting at [(r, c)] and [(r', c')],
    spell the same letters. *)
Definition same_spelling (σ : assignment) (g : Grid.t) (l r c r' c' : Z) : Prop :=
  ∀ i, 0 ≤ i < l →
    σ (cell (Grid.L g) r (c + i)) = σ (cell (Grid.L g) r' (c' + i)).

(** ** Notions used to state the properties of the word index *)

(** The search string of [word_to_numbers] and the one [report] decodes
    with. *)
Definition alphabet : string := " ABCDEFGHIJKLMNOPQRSTUVWXYZ".
Definition printed_alphabet : string := ".ABCDEFGHIJKLMNOPQRSTUVWXYZ".

(** An ASCII letter of either case; a word made of letters only. *)
Definition is_letter (a : ascii) : bool :=
  let n := nat_of_ascii a in
  bool_decide (65 ≤ n ≤ 90)%nat || bool_decide (97 ≤ n ≤ 122)%nat.

Definition alphabetic (word : string) : Prop :=
  Forall (λ a, is_letter a = true) (letters word).

(** The entries of the words of length [l] among [words], in the order of the
    file, the first word of [words] having the id [i]. *)
Fixpoint entries (l i : Z) (words : list string) : list (list Z) :=
  match words with
  | [] => []
  | word :: words' =>
      (if bool_decide (Z.of_nat (String.length word) = l)
       then [word_to_numbers word ++ [i]] else [])
      ++ entries l (i + 1) words'
  end.

(** [sum(len(wordlist[l]) for l in wordlist)]: the number of entries of the
    index. *)
Definition index_size (wordlist : gmap Z (list (list Z))) : Z :=
  foldr Z.add 0 ((λ kv, len kv.2) <$> map_to_list wordlist).

(** ** Notions used to state the outcomes of [table] and of the script *)

(** [c], run in any model, returns a value that satisfies [P]. *)
Definition returns {A} (c : M A) (P : A → Prop) : Prop :=
  ∀ m, ∃ a m', c m = Ok (a, m') ∧ P a.

(** [mv] is the largest entry of the tuples. *)
Definition is_max (mv : Z) (tuples : list (list Z)) : Prop :=
  (∃ t, t ∈ tuples ∧ mv ∈ t) ∧ ∀ t v, t ∈ tuples → v ∈ t → v ≤ mv.

(** The position [xs[i]] reads in a list of length [n]: a negative index
    counts from the end. *)
Definition position (n i : Z) : Z := if bool_decide (i < 0) then i + n else i.

(** The constraints [table_constraints] posts when entries may be negative:
    [is_assigned[j][t[j]]] is then read from the end of the row. *)
Definition table_cts_wrap (vars : list var) (tuples : list (list Z))
    (option : var) (b : list var) (is_assigned : list (list var))
    (possible_values : gmap Z (gset Z)) (max_value : Z) : list constraint :=
  concat ((λ i, concat ((λ j,
      if bool_decide (j ∉ default ∅ (possible_values !! i)) then
        [Linear (EVar (cell is_assigned i j)) REq (EConst 0) (Some (Pos option))]
      else []) <$> range (max_value + 1))) <$> range (len vars))
  ++ ((λ row, Linear (ESum (EVar <$> row)) REq (EConst 1) (Some (Pos option)))
        <$> is_assigned)
  ++ concat ((λ i, (λ j,
      Linear (EVar (vars !!! Z.to_nat i)) REq (EConst j)
        (Some (Pos (cell is_assigned i j)))) <$> range (max_value + 1))
        <$> range (len vars))
  ++ ((λ it, BoolAnd ((λ j, Pos (cell is_assigned j
                                   (position (max_value + 1) (it.2 !!! Z.to_nat j))))
                        <$> range (len it.2))
               (Some (Pos (b !!! Z.to_nat it.1)))) <$> enumerate tuples)
  ++ [Linear (ESum (EVar <$> b)) REq (EConst 1) (Some (Pos option))].

(** [c] ends with the exception [e] in every model; [c] either returns or
    ends with [e]. *)
Definition fails_with {A} (e : exn) (c : M A) : Prop := ∀ m, c m = Raise e.

Definition returns_or {A} (e : exn) (c : M A) : Prop :=
  ∀ m, (∃ a m', c m = Ok (a, m')) ∨ c m = Raise e.

(** Entries as [load_words] makes them under the key [l]: at least one, each
    the [l] codes of a word, none below [-1], followed by a non-negative
    id. *)
Definition word_entries (l : Z) (ws : list (list Z)) : Prop :=
  0 ≤ l ∧ ws ≠ [] ∧
  Forall (λ t, ∃ codes i, t = codes ++ [i] ∧ len codes = l ∧
                          Forall (λ v, -1 ≤ v) codes ∧ 0 ≤ i) ws.

Definition word_lists (wordlist : gmap Z (list (list Z))) : Prop :=
  ∀ l ws, wordlist !! l = Some ws → word_entries l ws.

(** Entries of words made of letters: the codes are 1 to 26. *)
Definition letter_entries (l : Z) (ws : list (list Z)) : Prop :=
  0 ≤ l ∧ ws ≠ [] ∧
  Forall (λ t, ∃ codes i, t = codes ++ [i] ∧ len codes = l ∧
                          Forall (λ v, 1 ≤ v ≤ 26) codes ∧ 0 ≤ i) ws.

Definition letter_lists (wordlist : gmap Z (list (list Z))) : Prop :=
  ∀ l ws, wordlist !! l = Some ws → letter_entries l ws.

(** The neighbours of column [c] in a row of [columns] cells (of row [r] in a
    column of [rows] cells). *)
Definition neighbours (n i : Z) : list Z :=
  filter (λ j, 0 ≤ j < n) [i - 1; i + 1].

(** ** Further worked examples *)


(** Tuples with a code that is not in the alphabet. *)
Definition wrap_tuples : list (list Z) := [[-1; 0]; [2; 1]].

(** * Part II: properties *)

(** ** Running monadic code *)

Lemma bind_Ok {A B} (c : M A) (f : A → M B) m r :
  (c ≫= f) m = Ok r ↔ ∃ a m', c m = Ok (a, m') ∧ f a m' = Ok r.
Proof.
  unfold mbind, M_bind. destruct (c m) as [[a m']|e]; split.
  - eauto.
  - by intros (? & ? & [= <- <-] & ?).
  - done.
  - by intros (? & ? & ? & ?).
Qed.

Lemma bind_run {A B} (c : M A) (f : A → M B) m a m' :
  c m = Ok (a, m') → (c ≫= f) m = f a m'.
Proof. unfold mbind, M_bind. by intros ->. Qed.

Lemma ret_Ok {A} (a b : A) m m' :
  (mret a : M A) m = Ok (b, m') ↔ b = a ∧ m' = m.
Proof. unfold mret, M_ret. naive_solver. Qed.

Lemma lift_Ok {A} (r : result A) m a m' :
  lift r m = Ok (a, m') ↔ r = Ok a ∧ m' = m.
Proof. unfold lift. destruct r; naive_solver. Qed.

Lemma lift_run {A} (r : result A) a m : r = Ok a → lift r m = Ok (a, m).
Proof. by intros ->. Qed.

Lemma result_bind_Ok {A B} (r : result A) (f : A → result B) b :
  (r ≫= f) = Ok b ↔ ∃ a, r = Ok a ∧ f a = Ok b.
Proof. destruct r; unfold mbind, result_bind; naive_solver. Qed.

(** ** The model only grows *)

Lemma extends_refl m : extends m m.
Proof. split; reflexivity. Qed.

Lemma extends_trans m1 m2 m3 : extends m1 m2 → extends m2 m3 → extends m1 m3.
Proof. intros [??] [??]; split; etrans; eauto. Qed.

#[global] Instance extends_preorder : PreOrder extends.
Proof. split; [exact extends_refl | exact extends_trans]. Qed.

Lemma extends_constraint m m' ct :
  extends m m' → ct ∈ constraints m → ct ∈ constraints m'.
Proof. intros [_ [k ->]] ?. set_solver. Qed.

Lemma extends_variable m m' x d :
  extends m m' → variables m !! x = Some d → variables m' !! x = Some d.
Proof. intros [[k ->] _] ?. by apply lookup_app_l_Some. Qed.

Lemma extends_declared m m' lo hi x :
  extends m m' → declared m lo hi x → declared m' lo hi x.
Proof. intros ? (d & ? & ?). exists d. eauto using extends_variable. Qed.

Lemma mono_ret {A} (a : A) : mono (mret a).
Proof. intros m b m' [_ ->]%ret_Ok. reflexivity. Qed.

Lemma mono_bind {A B} (c : M A) (f : A → M B) :
  mono c → (∀ a, mono (f a)) → mono (c ≫= f).
Proof.
  intros Hc Hf m b m' (a & m1 & H1 & H2)%bind_Ok.
  etrans; [by eapply Hc | by eapply Hf].
Qed.

Lemma mono_lift {A} (r : result A) : mono (lift r).
Proof. intros m b m' [_ ->]%lift_Ok. reflexivity. Qed.

Lemma mono_NewIntVar lo hi nm : mono (NewIntVar lo hi nm).
Proof.
  intros m x m' [= <- <-]. split; simpl; [by apply prefix_app_r | reflexivity].
Qed.

Lemma mono_NewBoolVar nm : mono (NewBoolVar nm).
Proof. apply mono_NewIntVar. Qed.

Lemma mono_Add ct : mono (Add ct).
Proof.
  intros m [] m' [= <-]. split; simpl; [reflexivity | by apply prefix_app_r].
Qed.

Lemma mono_comp {A B} (xs : list A) (f : A → M B) :
  (∀ x, mono (f x)) → mono (comp xs f).
Proof.
  intros Hf. induction xs as [|x xs IH]; simpl.
  - apply mono_ret.
  - apply mono_bind; [done|]. intros y.
    apply mono_bind; [done|]. intros ys. apply mono_ret.
Qed.

Lemma mono_comp2 {A B C} (xs : list A) (ys : A → list B) (f : A → B → M C) :
  (∀ x y, mono (f x y)) → mono (comp2 xs ys f).
Proof.
  intros Hf. apply mono_bind.
  - apply mono_comp. intros x. by apply mono_comp.
  - intros. apply mono_ret.
Qed.

Lemma mono_for {A} (xs : list A) (body : A → M ()) :
  (∀ x, mono (body x)) → mono (for_ xs body).
Proof.
  intros Hf. induction xs as [|x xs IH]; simpl.
  - apply mono_ret.
  - apply mono_bind; [done|]. by intros _.
Qed.

Lemma mono_at2 {A} (X : list (list A)) r c : mono (at2 X r c).
Proof. apply mono_lift. Qed.

Lemma mono_at3 {A} (X : list (list (list A))) l r c : mono (at3 X l r c).
Proof. apply mono_lift. Qed.

Lemma mono_if {A} (b : bool) (c1 c2 : M A) :
  mono c1 → mono c2 → mono (if b then c1 else c2).
Proof. by destruct b. Qed.

Create HintDb mono.
#[global] Hint Resolve mono_ret mono_lift mono_NewIntVar mono_NewBoolVar mono_Add
  mono_at2 mono_at3 : mono.

(** Decompose a monadic expression into its statements, one goal each. *)
Ltac solve_mono :=
  repeat first
    [ progress intros
    | progress cbv beta
    | solve [auto with mono]
    | match goal with
      | |- mono (_ ≫= _) => apply mono_bind
      | |- mono (for_ _ _) => apply mono_for
      | |- mono (comp2 _ _ _) => apply mono_comp2
      | |- mono (comp _ _) => apply mono_comp
      | |- mono (if _ then _ else _) => apply mono_if
      | |- mono (match ?p with _ => _ end) => destruct p
      end ].

(** An iteration of a loop that ran to completion ran, in some model between
    the one before the loop and the one after it. *)
Lemma for_In {A} (xs : list A) (body : A → M ()) m m' x :
  (∀ x, mono (body x)) →
  for_ xs body m = Ok ((), m') → x ∈ xs →
  ∃ m1 m2, extends m m1 ∧ body x m1 = Ok ((), m2) ∧ extends m2 m'.
Proof.
  intros Hb. revert m. induction xs as [|y xs IH]; intros m Hrun Hx.
  - by apply elem_of_nil in Hx.
  - simpl in Hrun. apply bind_Ok in Hrun as ([] & m1 & H1 & H2).
    apply elem_of_cons in Hx as [->|Hx].
    + exists m, m1. split_and!; [reflexivity | done |].
      by eapply (mono_for xs body).
    + destruct (IH _ H2 Hx) as (m2 & m3 & ? & ? & ?).
      exists m2, m3. split_and!; [|done..].
      etrans; [by eapply Hb | done].
Qed.

(** ** Indexing arrays of known shape *)

Lemma getitem_nonneg {A} (xs : list A) i :
  0 ≤ i → getitem xs i =
    match xs !! Z.to_nat i with Some x => Ok x | None => Raise IndexError end.
Proof.
  intros Hi. unfold getitem.
  rewrite (bool_decide_false (i < 0)) by lia. by rewrite bool_decide_true by lia.
Qed.

Lemma getitem_Ok {A} (xs : list A) i x :
  0 ≤ i → xs !! Z.to_nat i = Some x → getitem xs i = Ok x.
Proof. intros Hi Hx. by rewrite getitem_nonneg, Hx. Qed.

Lemma getitem_total `{Inhabited A} (xs : list A) i :
  0 ≤ i < len xs → getitem xs i = Ok (xs !!! Z.to_nat i).
Proof.
  intros Hi. apply getitem_Ok; [lia|].
  apply list_lookup_lookup_total_lt. unfold len in Hi. lia.
Qed.

Lemma getitem_out {A} (xs : list A) i :
  len xs ≤ i → getitem xs i = Raise IndexError.
Proof.
  intros Hi. unfold len in Hi. rewrite getitem_nonneg by lia.
  by rewrite lookup_ge_None_2 by lia.
Qed.

Lemma matrix_row `{Inhabited A} (n k : Z) (X : list (list A)) r :
  matrix n k X → 0 ≤ r < n → length (X !!! Z.to_nat r) = Z.to_nat k.
Proof.
  intros [Hn Hk] Hr. rewrite Forall_forall in Hk. apply Hk.
  apply list_elem_of_lookup_total_2. lia.
Qed.

Lemma cube_plane `{Inhabited A} (h n k : Z) (X : list (list (list A))) l :
  cube h n k X → 0 ≤ l < h → matrix n k (X !!! Z.to_nat l).
Proof.
  intros [Hh Hm] Hl. rewrite Forall_forall in Hm. apply Hm.
  apply list_elem_of_lookup_total_2. lia.
Qed.

Lemma at2_cell (n k : Z) X r c m :
  matrix n k X → 0 ≤ r < n → 0 ≤ c < k → at2 X r c m = Ok (cell X r c, m).
Proof.
  intros HX Hr Hc. unfold at2. apply lift_run.
  rewrite getitem_total by (destruct HX; unfold len; lia). simpl.
  rewrite getitem_total; [done|].
  unfold len. rewrite (matrix_row n k) by done. lia.
Qed.

Lemma at3_cell3 (h n k : Z) X l r c m :
  cube h n k X → 0 ≤ l < h → 0 ≤ r < n → 0 ≤ c < k →
  at3 X l r c m = Ok (cell3 X l r c, m).
Proof.
  intros HX Hl Hr Hc. unfold at3. apply lift_run.
  rewrite getitem_total by (destruct HX; unfold len; lia). simpl.
  pose proof (cube_plane h n k X l HX Hl) as Hp.
  rewrite getitem_total by (destruct Hp; unfold len; lia). simpl.
  rewrite getitem_total; [done|].
  unfold len. rewrite (matrix_row n k) by done. lia.
Qed.

Lemma range_length n : length (range n) = Z.to_nat n.
Proof. apply length_seqZ. Qed.

Lemma range_lookup n (i : nat) : Z.of_nat i < n → range n !! i = Some (Z.of_nat i).
Proof. intros. unfold range. by rewrite lookup_seqZ_lt. Qed.

Lemma elem_of_range n i : i ∈ range n ↔ 0 ≤ i < n.
Proof. unfold range. rewrite elem_of_seqZ. lia. Qed.

Lemma elem_of_range2 a b i : i ∈ range2 a b ↔ a ≤ i < b.
Proof. unfold range2. rewrite elem_of_seqZ. lia. Qed.

Lemma transpose_matrix n k X : matrix k n (transpose n k X).
Proof.
  split.
  - unfold transpose. by rewrite length_fmap, range_length.
  - apply Forall_fmap, Forall_forall. intros c _. simpl.
    by rewrite length_fmap, range_length.
Qed.

Lemma transpose_cell n k X r c :
  0 ≤ r < n → 0 ≤ c < k → cell (transpose n k X) c r = cell X r c.
Proof.
  intros Hr Hc. unfold cell at 1, transpose.
  rewrite (list_lookup_total_fmap _ (range k)) by (rewrite range_length; lia).
  rewrite (list_lookup_total_fmap _ (range n)) by (rewrite range_length; lia).
  rewrite !list_lookup_total_alt, !range_lookup by lia. simpl.
  by rewrite !Z2Nat.id by lia.
Qed.

Lemma at2_transpose n k X r c m :
  matrix n k X → 0 ≤ r < n → 0 ≤ c < k →
  at2 (transpose n k X) c r m = at2 X r c m.
Proof.
  intros HX Hr Hc.
  rewrite (at2_cell k n) by (done || apply transpose_matrix).
  rewrite (at2_cell n k) by done. by rewrite transpose_cell.
Qed.

Lemma at3_transpose X l n k r c m :
  Forall (matrix n k) X → 0 ≤ r < n → 0 ≤ c < k →
  at3 (transpose n k <$> X) l c r m = at3 X l r c m.
Proof.
  intros HX Hr Hc. unfold at3, lift.
  assert (Hl : ∀ j, (transpose n k <$> X) !! j = transpose n k <$> (X !! j))
    by (intros; apply list_lookup_fmap).
  assert (Hg : getitem (transpose n k <$> X) l = match getitem X l with
            Ok p => Ok (transpose n k p) | Raise e => Raise e end).
  { unfold getitem, len. rewrite length_fmap.
    repeat case_bool_decide; try done; rewrite Hl; by destruct (X !! _). }
  rewrite Hg. destruct (getitem X l) as [p|e] eqn:Hp; [|done]. simpl.
  assert (matrix n k p) as Hm.
  { rewrite Forall_forall in HX. apply HX. unfold getitem in Hp.
    repeat case_bool_decide; try done;
      destruct (X !! _) eqn:E; simplify_eq; by eapply list_elem_of_lookup_2. }
  pose proof (at2_transpose n k p r c m Hm Hr Hc) as Ht.
  unfold at2, lift in Ht. exact Ht.
Qed.

(** ** Equal computations *)

Lemma bind_ext {A B} (c c' : M A) (f f' : A → M B) m :
  c m = c' m →
  (∀ a m', c m = Ok (a, m') → f a m' = f' a m') →
  (c ≫= f) m = (c' ≫= f') m.
Proof.
  intros Hc Hf. unfold mbind, M_bind. rewrite <- Hc.
  destruct (c m) as [[a m']|e]; [by apply Hf | done].
Qed.

Lemma comp_ext {A B} (xs : list A) (f g : A → M B) m :
  (∀ x m', x ∈ xs → f x m' = g x m') → comp xs f m = comp xs g m.
Proof.
  revert m. induction xs as [|x xs IH]; intros m Hfg; [done|]. simpl.
  apply bind_ext; [apply Hfg; left|]. intros y m1 _.
  apply bind_ext; [|done]. apply IH. intros. apply Hfg. by right.
Qed.

Lemma comp2_ext {A B C} (xs : list A) (ys : A → list B) (f g : A → B → M C) m :
  (∀ x y m', x ∈ xs → y ∈ ys x → f x y m' = g x y m') →
  comp2 xs ys f m = comp2 xs ys g m.
Proof.
  intros Hfg. unfold comp2. apply bind_ext; [|done].
  apply comp_ext. intros x m1 Hx. apply comp_ext. intros y m2 Hy. by apply Hfg.
Qed.

(** ** The down loop is the across loop on the transposed grid *)

Section Mirror.
Context (wordlist : gmap Z (list (list Z))) (rows columns : Z).
Context (L ID : list (list var)) (D : list (list (list var))).
Context (r c : Z).
Hypothesis HL : matrix rows columns L.
Hypothesis HID : matrix rows columns ID.
Hypothesis HD : Forall (matrix rows columns) D.
Hypothesis Hr : 0 ≤ r < rows.
Hypothesis Hc : 0 ≤ c < columns.

Local Abbreviation tr := (transpose rows columns).

Lemma mirror_start l m : at3 D l r c m = at3 (tr <$> D) l c r m.
Proof. symmetry. by apply at3_transpose. Qed.

Lemma mirror_window w (off : Z) h m :
  0 ≤ off → off + w ≤ rows →
  comp2 (range h) (λ _, range w) (λ i j, at3 D i (off + j) c) m =
  comp2 (range h) (λ _, range w) (λ i j, at3 (tr <$> D) i c (off + j)) m.
Proof.
  intros ??. apply comp2_ext. intros i j m' _ Hj%elem_of_range.
  symmetry. apply at3_transpose; [done | lia | done].
Qed.

Lemma mirror_letters l m :
  r + l ≤ rows →
  comp (range l) (λ i, at2 L (r + i) c) m =
  comp (range l) (λ i, at2 (tr L) c (r + i)) m.
Proof.
  intros ?. apply comp_ext. intros i m' Hi%elem_of_range.
  symmetry. apply at2_transpose; [done | lia | done].
Qed.

Lemma mirror_id m : at2 ID r c m = at2 (tr ID) c r m.
Proof. symmetry. by apply at2_transpose. Qed.

Lemma mirror_post xs xs' l m :
  (∀ m, xs m = xs' m) →
  (x ← xs; d ← at3 D l r c;
   Add (Linear (ESum (EVar <$> x)) REq (EConst 1) (Some (Pos d)))) m =
  (x ← xs'; a ← at3 (tr <$> D) l c r;
   Add (Linear (ESum (EVar <$> x)) REq (EConst 1) (Some (Pos a)))) m.
Proof.
  intros Hxs. apply bind_ext; [done|]. intros x m1 _.
  apply bind_ext; [apply mirror_start | done].
Qed.

Lemma mirror_table l m :
  r + l ≤ rows →
  (vs ← comp (range l) (λ i, at2 L (r + i) c); id ← at2 ID r c;
   ws ← lift (getkey wordlist l); d ← at3 D l r c; table (vs ++ [id]) ws d) m =
  (vs ← comp (range l) (λ i, at2 (tr L) c (r + i)); ia ← at2 (tr ID) c r;
   ws ← lift (getkey wordlist l); a ← at3 (tr <$> D) l c r;
   table (vs ++ [ia]) ws a) m.
Proof.
  intros ?. apply bind_ext; [by apply mirror_letters|]. intros vs m1 _.
  apply bind_ext; [apply mirror_id|]. intros id m2 _.
  apply bind_ext; [done|]. intros ws m3 _.
  apply bind_ext; [apply mirror_start | done].
Qed.

(** C9 *)
Lemma down_cell_mirror l m :
  down_cell wordlist rows L D ID l r c m =
  across_cell wordlist rows (tr L) (tr <$> D) (tr ID) l c r m.
Proof.
  unfold down_cell, across_cell.
  repeat case_bool_decide;
    try (apply bind_ext; [apply mirror_start | done]);
    (apply bind_ext; [|intros; apply mirror_table; lia]);
    apply mirror_post; intros; apply mirror_window; lia.
Qed.
End Mirror.

(** ** Every statement of the script only adds to the model *)

Lemma mono_table_vars vars tuples : mono (table_vars vars tuples).
Proof. unfold table_vars. solve_mono. Qed.

Lemma mono_table_constraints vars tuples option b ia pv mv :
  mono (table_constraints vars tuples option b ia pv mv).
Proof. unfold table_constraints. solve_mono. Qed.

Lemma mono_table vars tuples option : mono (table vars tuples option).
Proof.
  unfold table. apply mono_bind; [apply mono_table_vars|].
  intros [[[??]?]?]. apply mono_table_constraints.
Qed.
#[global] Hint Resolve mono_table : mono.

Lemma mono_new_L rows columns : mono (new_L rows columns).
Proof. unfold new_L. solve_mono. Qed.
Lemma mono_new_bools rows columns nm : mono (new_bools rows columns nm).
Proof. unfold new_bools. solve_mono. Qed.
Lemma mono_new_ids wl rows columns nm : mono (new_ids wl rows columns nm).
Proof. unfold new_ids. solve_mono. Qed.
Lemma mono_new_A rows columns : mono (new_A rows columns).
Proof. unfold new_A. solve_mono. Qed.
Lemma mono_new_D rows columns : mono (new_D rows columns).
Proof. unfold new_D. solve_mono. Qed.
Lemma mono_link_B_L rows columns L B : mono (link_B_L rows columns L B).
Proof. unfold link_B_L. solve_mono. Qed.
Lemma mono_across_cell wl columns L A IA l r c :
  mono (across_cell wl columns L A IA l r c).
Proof. unfold across_cell. solve_mono. Qed.
Lemma mono_down_cell wl rows L D ID l r c :
  mono (down_cell wl rows L D ID l r c).
Proof. unfold down_cell. solve_mono. Qed.
#[global] Hint Resolve mono_across_cell mono_down_cell : mono.
Lemma mono_across_constraints wl rows columns L A IA :
  mono (across_constraints wl rows columns L A IA).
Proof. unfold across_constraints. solve_mono. Qed.
Lemma mono_down_constraints wl rows columns L D ID :
  mono (down_constraints wl rows columns L D ID).
Proof. unfold down_constraints. solve_mono. Qed.
Lemma mono_all_different rows columns IA ID :
  mono (all_different rows columns IA ID).
Proof. unfold all_different. solve_mono. Qed.
Lemma mono_lone_across rows columns B LLA : mono (lone_across rows columns B LLA).
Proof. unfold lone_across. solve_mono. Qed.
Lemma mono_lone_down rows columns B LLD : mono (lone_down rows columns B LLD).
Proof. unfold lone_down. solve_mono. Qed.
Lemma mono_lone_or_black rows columns LL B LLB :
  mono (lone_or_black rows columns LL B LLB).
Proof. unfold lone_or_black. solve_mono. Qed.
Lemma mono_cover_across rows columns A LLAB :
  mono (cover_across rows columns A LLAB).
Proof. unfold cover_across. solve_mono. Qed.
Lemma mono_cover_down rows columns D LLDB : mono (cover_down rows columns D LLDB).
Proof. unfold cover_down. solve_mono. Qed.
Lemma mono_not_both_lone rows columns LLA LLD :
  mono (not_both_lone rows columns LLA LLD).
Proof. unfold not_both_lone. solve_mono. Qed.
Lemma mono_windows_3x3 rows columns B : mono (windows_3x3 rows columns B).
Proof. unfold windows_3x3. solve_mono. Qed.
Lemma mono_black_limit rows columns B : mono (black_limit rows columns B).
Proof. unfold black_limit. solve_mono. Qed.

#[global] Hint Resolve mono_new_L mono_new_bools mono_new_ids mono_new_A
  mono_new_D mono_link_B_L mono_across_constraints mono_down_constraints
  mono_all_different mono_lone_across mono_lone_down mono_lone_or_black
  mono_cover_across mono_cover_down mono_not_both_lone mono_windows_3x3
  mono_black_limit : mono.

(** ** The statements of a completed run *)

Lemma bind_ran {A B} (c : M A) (f : A → M B) m0 b m :
  (∀ a, mono (f a)) →
  (c ≫= f) m0 = Ok (b, m) →
  ∃ a m1, ran c a m ∧ f a m1 = Ok (b, m).
Proof.
  intros Hf (a & m1 & Hc & Hrest)%bind_Ok.
  exists a, m1. split; [|done]. exists m0, m1. split; [done|]. by eapply Hf.
Qed.

Lemma build_model_built wl rows columns m0 g m :
  build_model wl rows columns m0 = Ok (g, m) → built wl rows columns g m.
Proof.
  unfold build_model. intros H.
  repeat (apply bind_ran in H as (? & ? & ? & H); [|solve_mono]).
  apply ret_Ok in H as [-> _]. repeat match goal with u : () |- _ => destruct u end.
  by constructor.
Qed.

(** ** Arrays of fresh variables *)

Lemma comp_length {A B} (xs : list A) (f : A → M B) m ys m' :
  comp xs f m = Ok (ys, m') → length ys = length xs.
Proof.
  revert m ys. induction xs as [|x xs IH]; intros m ys; simpl.
  - by intros [-> _]%ret_Ok.
  - intros (y & m1 & _ & (ys' & m2 & Hys & [-> ->]%ret_Ok)%bind_Ok)%bind_Ok.
    simpl. f_equal. eauto.
Qed.

Lemma comp_Forall {A B} (P : CpModel → B → Prop) (xs : list A) (f : A → M B)
    m ys m' :
  (∀ m m' y, extends m m' → P m y → P m' y) →
  (∀ x, mono (f x)) →
  (∀ x m y m', f x m = Ok (y, m') → P m' y) →
  comp xs f m = Ok (ys, m') → Forall (P m') ys.
Proof.
  intros HP Hmono Hf. revert m ys. induction xs as [|x xs IH]; intros m ys; simpl.
  - by intros [-> _]%ret_Ok.
  - intros (y & m1 & Hy & (ys' & m2 & Hys & [-> ->]%ret_Ok)%bind_Ok)%bind_Ok.
    constructor; [|by eapply IH].
    eapply HP; [|by eapply Hf]. by eapply (mono_comp xs f).
Qed.

Lemma NewIntVar_declared lo hi nm m x m' :
  NewIntVar lo hi nm m = Ok (x, m') → declared m' lo hi x.
Proof.
  intros [= <- <-]. eexists. simpl. split.
  - by rewrite lookup_app_r, Nat.sub_diag.
  - done.
Qed.

(** A row, an array and a stack of arrays of variables of [m] with bounds
    [lo] and [hi]. *)
Lemma new_row lo hi (nm : Z → string) k m row m' :
  comp (range k) (λ c, NewIntVar lo hi (nm c)) m = Ok (row, m') →
  length row = Z.to_nat k ∧ Forall (declared m' lo hi) row.
Proof.
  intros H. split.
  - apply comp_length in H. by rewrite H, range_length.
  - eapply (comp_Forall (λ m, declared m lo hi)); [| |  |exact H].
    + intros. by eapply extends_declared.
    + intros. apply mono_NewIntVar.
    + intros c m1 x m2 Hx. exact (NewIntVar_declared _ _ _ _ _ _ Hx).
Qed.

Lemma vars_in_extends m m' lo hi n k X :
  extends m m' → vars_in m lo hi n k X → vars_in m' lo hi n k X.
Proof.
  intros Hm [HX Hd]. split; [done|].
  eapply Forall_impl; [done|]. intros row Hrow.
  eapply Forall_impl; [done|]. intros. by eapply extends_declared.
Qed.

Lemma new_matrix lo hi (nm : Z → Z → string) n k m X m' :
  comp (range n) (λ r, comp (range k) (λ c, NewIntVar lo hi (nm r c))) m
    = Ok (X, m') →
  vars_in m' lo hi n k X.
Proof.
  intros H.
  assert (Forall (λ row, length row = Z.to_nat k ∧ Forall (declared m' lo hi) row) X)
    as HX.
  { eapply (comp_Forall (λ m row, length row = Z.to_nat k ∧
                                   Forall (declared m lo hi) row)); [| | |exact H].
    - intros m1 m2 row Hm [? Hd]. split; [done|].
      eapply Forall_impl; [done|]. intros. by eapply extends_declared.
    - intros. solve_mono.
    - intros r m1 row m2 Hrow. exact (new_row _ _ _ _ _ _ _ Hrow). }
  split; [split|].
  - apply comp_length in H. by rewrite H, range_length.
  - eapply Forall_impl; [done|]. by intros ? [? _].
  - eapply Forall_impl; [done|]. by intros ? [_ ?].
Qed.

Lemma new_cube lo hi (nm : Z → Z → Z → string) h n k m X m' :
  comp (range h) (λ l, comp (range n) (λ r,
    comp (range k) (λ c, NewIntVar lo hi (nm l r c)))) m = Ok (X, m') →
  length X = Z.to_nat h ∧ Forall (vars_in m' lo hi n k) X.
Proof.
  intros H. split.
  - apply comp_length in H. by rewrite H, range_length.
  - eapply (comp_Forall (λ m, vars_in m lo hi n k)); [| | |exact H].
    + intros. by eapply vars_in_extends.
    + intros. solve_mono.
    + intros l m1 Y m2 HY. exact (new_matrix _ _ _ _ _ _ _ _ HY).
Qed.

Lemma vars_in_cell m lo hi n k X r c :
  vars_in m lo hi n k X → 0 ≤ r < n → 0 ≤ c < k → declared m lo hi (cell X r c).
Proof.
  intros [HX Hd] Hr Hc. rewrite Forall_forall in Hd.
  assert (Hrow : X !!! Z.to_nat r ∈ X).
  { apply list_elem_of_lookup_total_2. destruct HX. lia. }
  specialize (Hd _ Hrow). rewrite Forall_forall in Hd. apply Hd.
  apply list_elem_of_lookup_total_2. rewrite (matrix_row n k) by done. lia.
Qed.

Lemma declared_bounds m σ lo hi x :
  solution m σ → declared m lo hi x → lo ≤ σ x ≤ hi.
Proof. intros [Hdom _] (d & Hd & <- & <-). by apply Hdom. Qed.

Section Built.
Context {wordlist : gmap Z (list (list Z))} {rows columns : Z}.
Context {g : Grid.t} {m : CpModel}.
Hypothesis Hb : built wordlist rows columns g m.

Lemma built_L_vars : vars_in m 0 26 rows columns (Grid.L g).
Proof.
  destruct (built_L _ _ _ _ _ Hb) as (m0 & m1 & H & Hm).
  eapply vars_in_extends; [done|]. exact (new_matrix _ _ _ _ _ _ _ _ H).
Qed.

Lemma built_bools nm X :
  ran (new_bools rows columns nm) X m → vars_in m 0 1 rows columns X.
Proof.
  intros (m0 & m1 & H & Hm).
  eapply vars_in_extends; [done|]. exact (new_matrix _ _ _ _ _ _ _ _ H).
Qed.

Lemma built_B_vars : vars_in m 0 1 rows columns (Grid.B g).
Proof. eapply built_bools, Hb. Qed.
Lemma built_LLA_vars : vars_in m 0 1 rows columns (Grid.LLA g).
Proof. eapply built_bools, Hb. Qed.
Lemma built_LLAB_vars : vars_in m 0 1 rows columns (Grid.LLAB g).
Proof. eapply built_bools, Hb. Qed.
Lemma built_LLD_vars : vars_in m 0 1 rows columns (Grid.LLD g).
Proof. eapply built_bools, Hb. Qed.
Lemma built_LLDB_vars : vars_in m 0 1 rows columns (Grid.LLDB g).
Proof. eapply built_bools, Hb. Qed.

Lemma built_ids nm X :
  ran (new_ids wordlist rows columns nm) X m →
  vars_in m 0 (id_bound wordlist rows columns) rows columns X.
Proof.
  intros (m0 & m1 & H & Hm).
  eapply vars_in_extends; [done|]. exact (new_matrix _ _ _ _ _ _ _ _ H).
Qed.

Lemma built_IA_vars :
  vars_in m 0 (id_bound wordlist rows columns) rows columns (Grid.IA g).
Proof. eapply built_ids, Hb. Qed.
Lemma built_ID_vars :
  vars_in m 0 (id_bound wordlist rows columns) rows columns (Grid.ID g).
Proof. eapply built_ids, Hb. Qed.

Lemma built_A_vars :
  length (Grid.A g) = Z.to_nat (columns + 1) ∧
  Forall (vars_in m 0 1 rows columns) (Grid.A g).
Proof.
  destruct (built_A _ _ _ _ _ Hb) as (m0 & m1 & H & Hm).
  apply (new_cube 0 1) in H as [? H]. split; [done|].
  eapply Forall_impl; [done|]. intros. by eapply vars_in_extends.
Qed.

Lemma built_D_vars :
  length (Grid.D g) = Z.to_nat (rows + 1) ∧
  Forall (vars_in m 0 1 rows columns) (Grid.D g).
Proof.
  destruct (built_D _ _ _ _ _ Hb) as (m0 & m1 & H & Hm).
  apply (new_cube 0 1) in H as [? H]. split; [done|].
  eapply Forall_impl; [done|]. intros. by eapply vars_in_extends.
Qed.
End Built.

(** ** Reading a statement that ran *)

Lemma ran_bind {A B} (c : M A) (f : A → M B) b m :
  (∀ a, mono (f a)) → ran (c ≫= f) b m → ∃ a, ran c a m ∧ ran (f a) b m.
Proof.
  intros Hf (m0 & m2 & (a & m1 & Hc & Hrest)%bind_Ok & Hm).
  exists a. split.
  - exists m0, m1. split; [done|]. etrans; [by eapply Hf | done].
  - by exists m1, m2.
Qed.

Lemma ran_pure {A B} (c : M A) (a : A) (f : A → M B) b m :
  (∀ m0, c m0 = Ok (a, m0)) → ran (c ≫= f) b m → ran (f a) b m.
Proof.
  intros Hc (m0 & m2 & (a' & m1 & Hc' & Hrest)%bind_Ok & Hm).
  rewrite Hc in Hc'. simplify_eq. by exists m1, m2.
Qed.

Lemma ran_lift {A B} (r : result A) (f : A → M B) b m :
  ran (lift r ≫= f) b m → ∃ a, r = Ok a ∧ ran (f a) b m.
Proof.
  intros (m0 & m2 & (a & m1 & [-> ->]%lift_Ok & Hrest)%bind_Ok & Hm).
  exists a. split; [done|]. by exists m0, m2.
Qed.

Lemma ran_Add ct m : ran (Add ct) () m → ct ∈ constraints m.
Proof.
  intros (m0 & m1 & [= <-] & Hm). eapply extends_constraint; [done|].
  simpl. set_solver.
Qed.

Lemma ran_for {A} (xs : list A) (body : A → M ()) x m :
  (∀ x, mono (body x)) → ran (for_ xs body) () m → x ∈ xs → ran (body x) () m.
Proof.
  intros Hb (m0 & m1 & Hrun & Hm) Hx.
  destruct (for_In xs body m0 m1 x Hb Hrun Hx) as (m2 & m3 & _ & H & ?).
  exists m2, m3. split; [done|]. by etrans.
Qed.

Lemma solution_sat m σ ct :
  solution m σ → ct ∈ constraints m → sat σ ct.
Proof. intros [_ Hs] Hct. rewrite Forall_forall in Hs. by apply Hs. Qed.

(** ** Comprehensions that only read *)

Lemma comp_pure {A B} (xs : list A) (f : A → M B) (F : A → B) m :
  (∀ x m0, x ∈ xs → f x m0 = Ok (F x, m0)) → comp xs f m = Ok (F <$> xs, m).
Proof.
  induction xs as [|x xs IH]; intros Hf; [done|]. simpl.
  rewrite (bind_run _ _ _ (F x) m) by (apply Hf; left).
  rewrite (bind_run _ _ _ (F <$> xs) m); [done|].
  apply IH. intros. apply Hf. by right.
Qed.

Lemma comp2_pure {A B C} (xs : list A) (ys : A → list B) (f : A → B → M C)
    (F : A → B → C) m :
  (∀ x y m0, x ∈ xs → y ∈ ys x → f x y m0 = Ok (F x y, m0)) →
  comp2 xs ys f m = Ok ((λ p, F p.1 p.2) <$> pairs xs ys, m).
Proof.
  intros Hf. unfold comp2.
  rewrite (bind_run _ _ _ ((λ x, F x <$> ys x) <$> xs) m).
  - unfold pairs. unfold mret, M_ret. do 2 f_equal.
    induction xs as [|x xs IH]; [done|]. simpl.
    rewrite fmap_app, <- list_fmap_compose. f_equal. apply IH.
    intros. apply Hf; [by right | done].
  - apply (comp_pure xs _ (λ x, F x <$> ys x)). intros x m0 Hx.
    apply comp_pure. intros. by apply Hf.
Qed.

Lemma elem_of_concat {A} (x : A) (ls : list (list A)) :
  x ∈ concat ls ↔ ∃ l, x ∈ l ∧ l ∈ ls.
Proof.
  induction ls as [|l ls IH]; simpl.
  - split; [by intros ?%elem_of_nil | by intros (? & _ & ?%elem_of_nil)].
  - rewrite elem_of_app, IH. split.
    + intros [?|(l' & ? & ?)]; [exists l; split; [done|left] |].
      exists l'. split; [done | by right].
    + intros (l' & ? & [->|?]%elem_of_cons); [by left | right; by exists l'].
Qed.

Lemma elem_of_pairs {A B} (xs : list A) (ys : A → list B) x y :
  (x, y) ∈ pairs xs ys ↔ x ∈ xs ∧ y ∈ ys x.
Proof.
  unfold pairs. rewrite elem_of_concat. split.
  - intros (l & Hxy & (x' & -> & Hx')%list_elem_of_fmap).
    apply list_elem_of_fmap in Hxy as (y' & [= -> ->] & ?). done.
  - intros [Hx Hy]. exists (pair x <$> ys x). split.
    + apply list_elem_of_fmap. by exists y.
    + apply list_elem_of_fmap. by exists x.
Qed.

Lemma NoDup_pairs {A B} (xs : list A) (ys : A → list B) :
  NoDup xs → (∀ x, NoDup (ys x)) → NoDup (pairs xs ys).
Proof.
  intros Hxs Hys. unfold pairs. induction Hxs as [|x xs Hx Hxs IH]; simpl.
  - constructor.
  - apply NoDup_app. split_and!.
    + apply (NoDup_fmap_2 _). apply Hys.
    + intros [x' y'] (y & [= -> ->] & Hy)%list_elem_of_fmap Hin.
      apply (elem_of_pairs xs ys) in Hin as [? _]. done.
    + apply IH.
Qed.

(** ** Sums of 0/1 values *)

Lemma eval_sum_vars σ xs : eval σ (ESum (EVar <$> xs)) = sumZ (σ <$> xs).
Proof.
  induction xs as [|x xs IH]; [done|].
  change (σ x + eval σ (ESum (EVar <$> xs)) = σ x + sumZ (σ <$> xs)).
  by rewrite IH.
Qed.

Lemma sumZ_cons x xs : sumZ (x :: xs) = x + sumZ xs.
Proof. done. Qed.

Lemma sumZ_app xs ys : sumZ (xs ++ ys) = sumZ xs + sumZ ys.
Proof.
  induction xs as [|x xs IH]; [done|].
  rewrite <- app_comm_cons, !sumZ_cons. lia.
Qed.

Lemma sumZ_nonneg {K} (f : K → Z) (ps : list K) :
  (∀ p, p ∈ ps → 0 ≤ f p) → 0 ≤ sumZ (f <$> ps).
Proof.
  induction ps as [|p ps IH]; intros Hf; [done|].
  rewrite fmap_cons, sumZ_cons.
  assert (0 ≤ f p) by (apply Hf; left).
  assert (0 ≤ sumZ (f <$> ps)) by (apply IH; intros; apply Hf; by right). lia.
Qed.

Lemma sumZ_zero {K} (f : K → Z) (ps : list K) q :
  (∀ p, p ∈ ps → 0 ≤ f p) → sumZ (f <$> ps) = 0 → q ∈ ps → f q = 0.
Proof.
  induction ps as [|p ps IH]; intros Hf Hsum Hq; [by apply elem_of_nil in Hq|].
  rewrite fmap_cons, sumZ_cons in Hsum.
  assert (0 ≤ f p) by (apply Hf; left).
  assert (0 ≤ sumZ (f <$> ps)) by (apply sumZ_nonneg; intros; apply Hf; by right).
  apply elem_of_cons in Hq as [->|Hq]; [lia|].
  apply IH; [intros; apply Hf; by right | lia | done].
Qed.

(** A sum of 0/1 terms over distinct indices is 1 exactly when one index has
    value 1. *)
Lemma sumZ_one_unique {K} (f : K → Z) (ps : list K) :
  NoDup ps → (∀ p, p ∈ ps → 0 ≤ f p ≤ 1) → sumZ (f <$> ps) = 1 →
  ∃ p, p ∈ ps ∧ f p = 1 ∧ ∀ q, q ∈ ps → f q = 1 → q = p.
Proof.
  induction 1 as [|p ps Hp Hnd IH]; intros Hf Hsum; [done|].
  rewrite fmap_cons, sumZ_cons in Hsum.
  assert (0 ≤ f p ≤ 1) as Hfp by (apply Hf; left).
  assert (∀ q, q ∈ ps → 0 ≤ f q) as Hnn by (intros; apply Hf; by right).
  pose proof (sumZ_nonneg f ps Hnn).
  destruct (decide (f p = 1)) as [H1|H1].
  - exists p. split_and!; [left | done |].
    intros q [->|Hq]%elem_of_cons Hfq; [done|].
    rewrite (sumZ_zero f ps q) in Hfq; [done | done | lia | done].
  - destruct IH as (q & Hq & Hfq & Huniq).
    + intros. apply Hf. by right.
    + lia.
    + exists q. split_and!; [by right | done |].
      intros q' [->|Hq']%elem_of_cons Hfq'; [lia | by apply Huniq].
Qed.

Lemma sumZ_unique_one {K} (f : K → Z) (ps : list K) p :
  NoDup ps → (∀ q, q ∈ ps → 0 ≤ f q ≤ 1) →
  p ∈ ps → f p = 1 → (∀ q, q ∈ ps → f q = 1 → q = p) → sumZ (f <$> ps) = 1.
Proof.
  induction 1 as [|a ps Ha Hnd IH]; intros Hf Hp Hfp Huniq.
  - by apply elem_of_nil in Hp.
  - rewrite fmap_cons, sumZ_cons. apply elem_of_cons in Hp as [->|Hp].
    + assert (sumZ (f <$> ps) = 0) as ->; [|lia].
      assert (0 ≤ sumZ (f <$> ps))
        by (apply sumZ_nonneg; intros; apply Hf; by right).
      destruct (decide (sumZ (f <$> ps) = 0)) as [|Hne]; [done|]. exfalso.
      assert (∃ q, q ∈ ps ∧ f q ≠ 0) as (q & Hq & Hfq).
      { clear -Hne. induction ps as [|b ps IH]; [done|].
        rewrite fmap_cons, sumZ_cons in Hne.
        destruct (decide (f b = 0)) as [Hb|Hb].
        - destruct IH as (q & ? & ?); [lia|]. exists q. split; [by right|done].
        - exists b. split; [left|done]. }
      assert (0 ≤ f q ≤ 1) by (apply Hf; by right).
      assert (q = a) as -> by (apply Huniq; [by right | lia]). done.
    + assert (f a = 0) as ->.
      { assert (0 ≤ f a ≤ 1) by (apply Hf; left).
        destruct (decide (f a = 1)) as [H1|]; [|lia].
        assert (a = p) as -> by (apply Huniq; [left | done]). done. }
      rewrite IH; [lia | | done | done |].
      * intros. apply Hf. by right.
      * intros. apply Huniq; [by right | done].
Qed.

(** ** Reading the loops of the script *)

Lemma ran_at2 {B} (n k : Z) X r c (f : var → M B) b m :
  matrix n k X → 0 ≤ r < n → 0 ≤ c < k →
  ran (at2 X r c ≫= f) b m → ran (f (cell X r c)) b m.
Proof. intros. eapply ran_pure; [|done]. intros. by eapply at2_cell. Qed.

Lemma ran_at3 {B} (h n k : Z) X l r c (f : var → M B) b m :
  cube h n k X → 0 ≤ l < h → 0 ≤ r < n → 0 ≤ c < k →
  ran (at3 X l r c ≫= f) b m → ran (f (cell3 X l r c)) b m.
Proof. intros. eapply ran_pure; [|done]. intros. by eapply at3_cell3. Qed.

Lemma ran_Add_seq {B} ct (rest : M B) b m :
  mono rest → ran (Add ct;; rest) b m → ct ∈ constraints m ∧ ran rest b m.
Proof.
  intros Hrest H. apply ran_bind in H as ([] & H1 & H2); [|done].
  split; [by apply ran_Add | done].
Qed.

Lemma ran_loop2 xs ys (body : Z → Z → M ()) r c m :
  (∀ r c, mono (body r c)) →
  ran (for_ xs (λ r, for_ ys (λ c, body r c))) () m →
  r ∈ xs → c ∈ ys → ran (body r c) () m.
Proof.
  intros Hb H Hr Hc.
  apply (ran_for xs _ r) in H; [|intros; by apply mono_for|done].
  by apply (ran_for ys _ c) in H.
Qed.

Lemma ran_window {B} (h n k : Z) X xs (ys : Z → list Z) (row col : Z → Z → Z)
    (f : list var → M B) b m :
  cube h n k X →
  (∀ i j, i ∈ xs → j ∈ ys i → 0 ≤ i < h ∧ 0 ≤ row i j < n ∧ 0 ≤ col i j < k) →
  ran (comp2 xs ys (λ i j, at3 X i (row i j) (col i j)) ≫= f) b m →
  ran (f ((λ p, cell3 X p.1 (row p.1 p.2) (col p.1 p.2)) <$> pairs xs ys)) b m.
Proof.
  intros HX Hin. eapply ran_pure. intros m0.
  apply (comp2_pure xs ys _ (λ i j, cell3 X i (row i j) (col i j))).
  intros i j m1 Hi Hj. destruct (Hin i j Hi Hj) as (? & ? & ?).
  by eapply at3_cell3.
Qed.

Lemma cube_of_vars m lo hi h n k (X : list (list (list var))) :
  length X = Z.to_nat h ∧ Forall (vars_in m lo hi n k) X → cube h n k X.
Proof.
  intros [? HX]. split; [done|]. eapply Forall_impl; [done|]. by intros ? [? _].
Qed.

Lemma cube_declared m lo hi h n k (X : list (list (list var))) l r c :
  length X = Z.to_nat h ∧ Forall (vars_in m lo hi n k) X →
  0 ≤ l < h → 0 ≤ r < n → 0 ≤ c < k → declared m lo hi (cell3 X l r c).
Proof.
  intros [? HX] Hl Hr Hc. rewrite Forall_forall in HX.
  apply (vars_in_cell m lo hi n k (X !!! Z.to_nat l)); [|done..].
  apply HX, list_elem_of_lookup_total_2. lia.
Qed.

(** ** The constraints of the finished model, cell by cell *)

Section Constraints.
Context {wordlist : gmap Z (list (list Z))} {rows columns : Z}.
Context {g : Grid.t} {m : CpModel}.
Hypothesis Hb : built wordlist rows columns g m.
Context (r c : Z).
Hypothesis Hr : 0 ≤ r < rows.
Hypothesis Hc : 0 ≤ c < columns.

Lemma built_A_cube : cube (columns + 1) rows columns (Grid.A g).
Proof. eapply cube_of_vars, (built_A_vars Hb). Qed.

Lemma built_D_cube : cube (rows + 1) rows columns (Grid.D g).
Proof. eapply cube_of_vars, (built_D_vars Hb). Qed.

Lemma link_constraints :
  Linear (EVar (cell (Grid.L g) r c)) REq (EConst 0)
    (Some (Pos (cell (Grid.B g) r c))) ∈ constraints m ∧
  Linear (EVar (cell (Grid.L g) r c)) RNe (EConst 0)
    (Some (Neg (cell (Grid.B g) r c))) ∈ constraints m.
Proof.
  pose proof (built_link _ _ _ _ _ Hb) as H.
  destruct (built_L_vars Hb) as [HL _]. destruct (built_B_vars Hb) as [HB _].
  apply (ran_loop2 _ _ _ r c) in H;
    [|intros; solve_mono|by apply elem_of_range..].
  apply (ran_at2 rows columns) in H; [|done..].
  apply (ran_at2 rows columns) in H; [|done..].
  apply ran_Add_seq in H as [H1 H]; [|solve_mono].
  apply (ran_at2 rows columns) in H; [|done..].
  apply (ran_at2 rows columns) in H; [|done..].
  apply ran_Add in H. done.
Qed.

Lemma lone_or_black_constraints LL LLB :
  matrix rows columns LL → matrix rows columns LLB →
  ran (lone_or_black rows columns LL (Grid.B g) LLB) () m →
  Linear (EAdd (EVar (cell LL r c)) (EVar (cell (Grid.B g) r c))) RGe (EConst 1)
    (Some (Pos (cell LLB r c))) ∈ constraints m ∧
  Linear (EAdd (EVar (cell LL r c)) (EVar (cell (Grid.B g) r c))) REq (EConst 0)
    (Some (Neg (cell LLB r c))) ∈ constraints m.
Proof.
  intros HLL HLLB H. destruct (built_B_vars Hb) as [HB _].
  apply (ran_loop2 _ _ _ r c) in H;
    [|intros; solve_mono|by apply elem_of_range..].
  do 3 (apply (ran_at2 rows columns) in H; [|done..]).
  apply ran_Add_seq in H as [H1 H]; [|solve_mono].
  do 3 (apply (ran_at2 rows columns) in H; [|done..]).
  apply ran_Add in H. done.
Qed.

Lemma cover_across_constraint :
  Linear (ESum (EVar <$> ((λ p, cell3 (Grid.A g) p.1 r (c - p.2)) <$>
            pairs (range (columns + 1)) (λ i, range (Z.min i (c + 1))))))
    REq (EConst 1) (Some (Neg (cell (Grid.LLAB g) r c))) ∈ constraints m.
Proof.
  pose proof (built_cover_across _ _ _ _ _ Hb) as H.
  destruct (built_LLAB_vars Hb) as [HLLAB _].
  apply (ran_loop2 _ _ _ r c) in H;
    [|intros; solve_mono|by apply elem_of_range..].
  apply (ran_window (columns + 1) rows columns _ _ _ (λ _ _, r) (λ _ j, c - j))
    in H; [|apply built_A_cube|].
  - apply (ran_at2 rows columns) in H; [|done..]. by apply ran_Add in H.
  - intros i j Hi%elem_of_range Hj%elem_of_range. lia.
Qed.

Lemma cover_down_constraint :
  Linear (ESum (EVar <$> ((λ p, cell3 (Grid.D g) p.1 (r - p.2) c) <$>
            pairs (range (rows + 1)) (λ i, range (Z.min i (r + 1))))))
    REq (EConst 1) (Some (Neg (cell (Grid.LLDB g) r c))) ∈ constraints m.
Proof.
  pose proof (built_cover_down _ _ _ _ _ Hb) as H.
  destruct (built_LLDB_vars Hb) as [HLLDB _].
  apply (ran_loop2 _ _ _ r c) in H;
    [|intros; solve_mono|by apply elem_of_range..].
  apply (ran_window (rows + 1) rows columns _ _ _ (λ _ j, r - j) (λ _ _, c))
    in H; [|apply built_D_cube|].
  - apply (ran_at2 rows columns) in H; [|done..]. by apply ran_Add in H.
  - intros i j Hi%elem_of_range Hj%elem_of_range. lia.
Qed.

Lemma not_both_lone_constraint :
  Linear (EAdd (EVar (cell (Grid.LLA g) r c)) (EVar (cell (Grid.LLD g) r c)))
    RLe (EConst 1) None ∈ constraints m.
Proof.
  pose proof (built_not_both_lone _ _ _ _ _ Hb) as H.
  destruct (built_LLA_vars Hb) as [HLLA _].
  destruct (built_LLD_vars Hb) as [HLLD _].
  apply (ran_loop2 _ _ _ r c) in H;
    [|intros; solve_mono|by apply elem_of_range..].
  do 2 (apply (ran_at2 rows columns) in H; [|done..]).
  by apply ran_Add in H.
Qed.
End Constraints.

(** ** Coverage of the letters of a solved grid *)

Lemma range_NoDup n : NoDup (range n).
Proof. apply NoDup_seqZ. Qed.

Lemma cover_unique σ (n c : Z) (v : Z → Z → var) :
  0 ≤ c →
  (∀ i j, 0 ≤ i ≤ n → 0 ≤ j ≤ c → 0 ≤ σ (v i j) ≤ 1) →
  sumZ (σ <$> ((λ p, v p.1 (c - p.2)) <$>
          pairs (range (n + 1)) (λ i, range (Z.min i (c + 1))))) = 1 →
  exactly_one (λ l c0, 0 ≤ l ≤ n ∧ 0 ≤ c0 ∧ c0 ≤ c < c0 + l ∧ σ (v l c0) = 1).
Proof.
  intros Hc Hbool Hsum. rewrite <- list_fmap_compose in Hsum.
  set (ps := pairs (range (n + 1)) (λ i, range (Z.min i (c + 1)))) in *.
  assert (Hps : ∀ i j, (i, j) ∈ ps ↔ 0 ≤ i ≤ n ∧ 0 ≤ j ∧ j < i ∧ j ≤ c).
  { intros i j. unfold ps. rewrite elem_of_pairs, !elem_of_range. lia. }
  apply sumZ_one_unique in Hsum as ([i j] & Hin & Hone & Huniq).
  - apply Hps in Hin. simpl in Hone. exists i, (c - j). split.
    + split_and!; (lia || done).
    + intros l c0 (? & ? & ? & Hl).
      assert ((l, c - c0) = (i, j)) as [= -> <-]; [|lia].
      apply Huniq; [apply Hps; lia|]. simpl.
      by replace (c - (c - c0)) with c0 by lia.
  - apply NoDup_pairs; [apply range_NoDup | intros; apply range_NoDup].
  - intros [i j] Hin%Hps. simpl. apply Hbool; lia.
Qed.

Lemma sat_sum_eq σ xs k l :
  sat σ (Linear (ESum (EVar <$> xs)) REq (EConst k) (Some l)) →
  lit_holds σ l → sumZ (σ <$> xs) = k.
Proof. intros H Hl. rewrite <- eval_sum_vars. exact (H Hl). Qed.

Section Solved.
Context {wordlist : gmap Z (list (list Z))} {rows columns : Z}.
Context {g : Grid.t} {m : CpModel} {σ : assignment}.
Hypothesis Hb : built wordlist rows columns g m.
Hypothesis Hσ : solution m σ.
Context (r c : Z).
Hypothesis Hr : 0 ≤ r < rows.
Hypothesis Hc : 0 ≤ c < columns.

Lemma cell_bounds lo hi X :
  vars_in m lo hi rows columns X → lo ≤ σ (cell X r c) ≤ hi.
Proof. intros HX. eapply declared_bounds; [done|]. by eapply vars_in_cell. Qed.

(** [B[r][c]] is true exactly on the black squares. *)
Lemma black_iff : σ (cell (Grid.L g) r c) = 0 ↔ σ (cell (Grid.B g) r c) = 1.
Proof.
  destruct (link_constraints Hb r c Hr Hc) as [H1 H2].
  apply (solution_sat m σ) in H1; [|done]. apply (solution_sat m σ) in H2; [|done].
  simpl in H1, H2. pose proof (cell_bounds 0 1 _ (built_B_vars Hb)). split.
  - intros HL. destruct (decide (σ (cell (Grid.B g) r c) = 0)) as [H0|]; [|lia].
    by apply H2 in H0.
  - done.
Qed.

Lemma letter_across_covered :
  σ (cell (Grid.L g) r c) ≠ 0 → σ (cell (Grid.LLA g) r c) = 0 →
  exactly_one (across_run_covers σ g columns r c).
Proof.
  intros HL HLLA.
  pose proof (cell_bounds 0 1 _ (built_B_vars Hb)) as HB.
  pose proof (cell_bounds 0 1 _ (built_LLAB_vars Hb)) as HLLAB.
  assert (σ (cell (Grid.B g) r c) = 0) as HB0.
  { destruct (decide (σ (cell (Grid.B g) r c) = 1)) as [H1%black_iff|]; [done|lia]. }
  destruct (lone_or_black_constraints Hb r c Hr Hc (Grid.LLA g) (Grid.LLAB g))
    as [H1 _]; [apply (built_LLA_vars Hb) | apply (built_LLAB_vars Hb) |
                apply Hb |].
  apply (solution_sat m σ) in H1; [|done]. simpl in H1.
  assert (σ (cell (Grid.LLAB g) r c) = 0) as HLLAB0.
  { destruct (decide (σ (cell (Grid.LLAB g) r c) = 1)) as [E|]; [|lia].
    apply H1 in E. lia. }
  pose proof (cover_across_constraint Hb r c Hr Hc) as H.
  apply (solution_sat m σ) in H; [|done].
  apply sat_sum_eq in H; [|exact HLLAB0].
  apply (cover_unique σ columns c (λ l c0, cell3 (Grid.A g) l r c0));
    [lia | | exact H].
  intros i j ??. eapply declared_bounds; [done|].
  eapply cube_declared; [apply (built_A_vars Hb) | lia..].
Qed.

Lemma letter_down_covered :
  σ (cell (Grid.L g) r c) ≠ 0 → σ (cell (Grid.LLD g) r c) = 0 →
  exactly_one (down_run_covers σ g rows r c).
Proof.
  intros HL HLLD.
  pose proof (cell_bounds 0 1 _ (built_B_vars Hb)) as HB.
  pose proof (cell_bounds 0 1 _ (built_LLDB_vars Hb)) as HLLDB.
  assert (σ (cell (Grid.B g) r c) = 0) as HB0.
  { destruct (decide (σ (cell (Grid.B g) r c) = 1)) as [H1%black_iff|]; [done|lia]. }
  destruct (lone_or_black_constraints Hb r c Hr Hc (Grid.LLD g) (Grid.LLDB g))
    as [H1 _]; [apply (built_LLD_vars Hb) | apply (built_LLDB_vars Hb) |
                apply Hb |].
  apply (solution_sat m σ) in H1; [|done]. simpl in H1.
  assert (σ (cell (Grid.LLDB g) r c) = 0) as HLLDB0.
  { destruct (decide (σ (cell (Grid.LLDB g) r c) = 1)) as [E|]; [|lia].
    apply H1 in E. lia. }
  pose proof (cover_down_constraint Hb r c Hr Hc) as H.
  apply (solution_sat m σ) in H; [|done].
  apply sat_sum_eq in H; [|exact HLLDB0].
  apply (cover_unique σ rows r (λ l r0, cell3 (Grid.D g) l r0 c));
    [lia | | exact H].
  intros i j ??. eapply declared_bounds; [done|].
  eapply cube_declared; [apply (built_D_vars Hb) | lia..].
Qed.

Lemma not_lone_both :
  ¬ (σ (cell (Grid.LLA g) r c) = 1 ∧ σ (cell (Grid.LLD g) r c) = 1).
Proof.
  pose proof (not_both_lone_constraint Hb r c Hr Hc) as H.
  apply (solution_sat m σ) in H; [|done]. simpl in H. lia.
Qed.
End Solved.

(** ** Word identifiers *)

Lemma ran_cells {B} (n k : Z) X xs (ys : Z → list Z) (f : list var → M B) b m :
  matrix n k X →
  (∀ i j, i ∈ xs → j ∈ ys i → 0 ≤ i < n ∧ 0 ≤ j < k) →
  ran (comp2 xs ys (λ i j, at2 X i j) ≫= f) b m →
  ran (f ((λ p, cell X p.1 p.2) <$> pairs xs ys)) b m.
Proof.
  intros HX Hin. eapply ran_pure. intros m0.
  apply (comp2_pure xs ys _ (λ i j, cell X i j)).
  intros i j m1 Hi Hj. destruct (Hin i j Hi Hj). by eapply at2_cell.
Qed.

Lemma elem_of_cells rows columns r c :
  (r, c) ∈ cells rows columns ↔ 0 ≤ r < rows ∧ 0 ≤ c < columns.
Proof. unfold cells. by rewrite elem_of_pairs, !elem_of_range. Qed.

Lemma NoDup_fmap_inj_on {A B} (f : A → B) (l : list A) x y :
  NoDup (f <$> l) → x ∈ l → y ∈ l → f x = f y → x = y.
Proof.
  induction l as [|a l IH]; intros Hnd Hx Hy Hxy; [by apply elem_of_nil in Hx|].
  rewrite fmap_cons in Hnd. apply NoDup_cons in Hnd as [Ha Hnd].
  apply elem_of_cons in Hx as [->|Hx]; apply elem_of_cons in Hy as [->|Hy].
  - done.
  - exfalso. apply Ha. rewrite Hxy. by apply list_elem_of_fmap_2.
  - exfalso. apply Ha. rewrite <- Hxy. by apply list_elem_of_fmap_2.
  - by apply IH.
Qed.

Section Identifiers.
Context {wordlist : gmap Z (list (list Z))} {rows columns : Z}.
Context {g : Grid.t} {m : CpModel} {σ : assignment}.
Hypothesis Hb : built wordlist rows columns g m.
Hypothesis Hσ : solution m σ.

Lemma all_different_constraint :
  AllDifferent (((λ p, cell (Grid.IA g) p.1 p.2) <$> cells rows columns) ++
                ((λ p, cell (Grid.ID g) p.1 p.2) <$> cells rows columns))
    ∈ constraints m.
Proof.
  pose proof (built_all_different _ _ _ _ _ Hb) as H.
  destruct (built_IA_vars Hb) as [HIA _]. destruct (built_ID_vars Hb) as [HID _].
  unfold all_different in H.
  apply (ran_cells rows columns) in H;
    [|done|by intros i j ?%elem_of_range ?%elem_of_range].
  apply (ran_cells rows columns) in H;
    [|done|by intros i j ?%elem_of_range ?%elem_of_range].
  by apply ran_Add in H.
Qed.

Lemma ids_NoDup :
  NoDup (((λ p, σ (cell (Grid.IA g) p.1 p.2)) <$> cells rows columns) ++
         ((λ p, σ (cell (Grid.ID g) p.1 p.2)) <$> cells rows columns)).
Proof.
  pose proof all_different_constraint as H.
  apply (solution_sat m σ) in H; [|done]. simpl in H.
  by rewrite fmap_app, <- !list_fmap_compose in H.
Qed.

Lemma ids_distinct r c r' c' :
  0 ≤ r < rows → 0 ≤ c < columns → 0 ≤ r' < rows → 0 ≤ c' < columns →
  σ (cell (Grid.IA g) r c) ≠ σ (cell (Grid.ID g) r' c') ∧
  ((r, c) ≠ (r', c') →
   σ (cell (Grid.IA g) r c) ≠ σ (cell (Grid.IA g) r' c') ∧
   σ (cell (Grid.ID g) r c) ≠ σ (cell (Grid.ID g) r' c')).
Proof.
  intros Hr Hc Hr' Hc'. pose proof ids_NoDup as Hnd.
  apply NoDup_app in Hnd as (HIA & Hdisj & HID).
  assert ((r, c) ∈ cells rows columns) as Hin by by apply elem_of_cells.
  assert ((r', c') ∈ cells rows columns) as Hin' by by apply elem_of_cells.
  split; [|intros Hne; split].
  - intros Heq. apply (Hdisj (σ (cell (Grid.IA g) r c))).
    + by apply (list_elem_of_fmap_2 (λ p, σ (cell (Grid.IA g) p.1 p.2)) _ (r, c)).
    + rewrite Heq.
      by apply (list_elem_of_fmap_2 (λ p, σ (cell (Grid.ID g) p.1 p.2)) _ (r', c')).
  - intros Heq. apply Hne.
    by apply (NoDup_fmap_inj_on _ _ (r, c) (r', c') HIA).
  - intros Heq. apply Hne.
    by apply (NoDup_fmap_inj_on _ _ (r, c) (r', c') HID).
Qed.
End Identifiers.

(** ** Black squares *)

Lemma fmap_pairs {A B C} (F : A → B → C) (xs : list A) (ys : A → list B) :
  (λ p, F p.1 p.2) <$> pairs xs ys = concat ((λ x, F x <$> ys x) <$> xs).
Proof.
  unfold pairs. induction xs as [|x xs IH]; [done|]. simpl.
  rewrite fmap_app, <- list_fmap_compose. f_equal. apply IH.
Qed.

Lemma row_cells (X : list (list var)) (i : nat) row k :
  X !! i = Some row → length row = Z.to_nat k →
  row = (λ c, cell X (Z.of_nat i) c) <$> range k.
Proof.
  intros Hrow Hlen. apply list_eq. intros j. rewrite list_lookup_fmap.
  destruct (decide (j < length row)%nat) as [Hj|Hj].
  - rewrite range_lookup by lia. simpl. unfold cell. rewrite !Nat2Z.id.
    rewrite (list_lookup_total_correct X i row Hrow).
    by apply list_lookup_lookup_total_lt.
  - rewrite lookup_ge_None_2 by lia. unfold range.
    by rewrite lookup_seqZ_ge by lia.
Qed.

Lemma matrix_cells (n k : Z) (X : list (list var)) :
  matrix n k X → concat X = (λ p, cell X p.1 p.2) <$> cells n k.
Proof.
  intros [Hn Hk]. unfold cells. rewrite fmap_pairs. f_equal.
  apply list_eq. intros i. rewrite list_lookup_fmap.
  destruct (X !! i) as [row|] eqn:Hrow.
  - assert (i < length X)%nat by by eapply lookup_lt_Some.
    rewrite range_lookup by lia. simpl. f_equal.
    apply row_cells; [done|]. rewrite Forall_forall in Hk.
    by eapply Hk, list_elem_of_lookup_2.
  - apply lookup_ge_None in Hrow. unfold range.
    by rewrite lookup_seqZ_ge by lia.
Qed.

Lemma eval_sum_rows σ (X : list (list var)) :
  eval σ (ESum ((λ row, ESum (EVar <$> row)) <$> X)) = sumZ (σ <$> concat X).
Proof.
  induction X as [|row X IH]; [done|].
  change (eval σ (ESum (EVar <$> row)) +
          eval σ (ESum ((λ row, ESum (EVar <$> row)) <$> X)) =
          sumZ (σ <$> row ++ concat X)).
  by rewrite IH, eval_sum_vars, fmap_app, sumZ_app.
Qed.

Section Black.
Context {wordlist : gmap Z (list (list Z))} {rows columns : Z}.
Context {g : Grid.t} {m : CpModel} {σ : assignment}.
Hypothesis Hb : built wordlist rows columns g m.
Hypothesis Hσ : solution m σ.

(** Summing the [B] flags over cells of the grid counts the black squares. *)
Lemma sum_B_blacks ps :
  (∀ p, p ∈ ps → p ∈ cells rows columns) →
  sumZ (σ <$> ((λ p, cell (Grid.B g) p.1 p.2) <$> ps)) = blacks σ g ps.
Proof.
  unfold blacks, len. induction ps as [|[r c] ps IH]; intros Hin; [done|].
  assert ((r, c) ∈ cells rows columns) as [Hr Hc]%elem_of_cells
    by (apply Hin; left).
  rewrite !fmap_cons, sumZ_cons, filter_cons, IH by (intros; apply Hin; by right).
  pose proof (cell_bounds Hσ r c Hr Hc 0 1 _ (built_B_vars Hb)) as HB.
  pose proof (black_iff Hb Hσ r c Hr Hc) as Hiff. simpl in *.
  case_decide as HL.
  - apply Hiff in HL. rewrite HL. simpl length. lia.
  - assert (σ (cell (Grid.B g) r c) = 0) as ->; [|lia].
    destruct (decide (σ (cell (Grid.B g) r c) = 1)) as [E%Hiff|]; [done|lia].
Qed.

Lemma window_constraint r c :
  0 ≤ r → r + 3 ≤ rows → 0 ≤ c → c + 3 ≤ columns →
  Linear (ESum (EVar <$> ((λ p, cell (Grid.B g) p.1 p.2) <$> window_3x3 r c)))
    RLe (EConst 2) None ∈ constraints m.
Proof.
  intros ????. pose proof (built_windows_3x3 _ _ _ _ _ Hb) as Hw.
  destruct (built_B_vars Hb) as [HB _]. unfold windows_3x3 in Hw.
  rewrite !bool_decide_true in Hw by lia. simpl in Hw.
  apply (ran_loop2 _ _ _ r c) in Hw;
    [|intros; solve_mono|apply elem_of_range2; lia..].
  apply (ran_cells rows columns) in Hw; [by apply ran_Add in Hw | done |].
  intros i j ?%elem_of_range2 ?%elem_of_range2. lia.
Qed.

Lemma window_blacks r c :
  0 ≤ r → r + 3 ≤ rows → 0 ≤ c → c + 3 ≤ columns →
  blacks σ g (window_3x3 r c) ≤ 2.
Proof.
  intros ????. pose proof (window_constraint r c) as Hw.
  apply (solution_sat m σ) in Hw; [|done..].
  unfold sat, enforced, rel_holds in Hw. rewrite eval_sum_vars in Hw.
  rewrite sum_B_blacks in Hw; [done|].
  intros [i j] [?%elem_of_range2 ?%elem_of_range2]%elem_of_pairs.
  apply elem_of_cells. lia.
Qed.

Lemma black_limit_constraint :
  ∃ q, truediv (rows * columns) 5 = Ok q ∧
    Linear (ESum ((λ row, ESum (EVar <$> row)) <$> Grid.B g)) RLe
      (EConst (py_int q)) None ∈ constraints m.
Proof.
  pose proof (built_black_limit _ _ _ _ _ Hb) as H. unfold black_limit in H.
  apply ran_lift in H as (q & Hq & H). exists q. split; [done|].
  by apply ran_Add in H.
Qed.

Lemma total_blacks :
  ∃ q, truediv (rows * columns) 5 = Ok q ∧
    blacks σ g (cells rows columns) ≤ py_int q.
Proof.
  destruct black_limit_constraint as (q & Hq & H). exists q. split; [done|].
  apply (solution_sat m σ) in H; [|done].
  unfold sat, enforced, rel_holds in H. rewrite eval_sum_rows in H.
  destruct (built_B_vars Hb) as [HB _].
  rewrite (matrix_cells rows columns) in H by done.
  rewrite sum_B_blacks in H; done.
Qed.
End Black.

(** ** [int(n / 5)] is the integer quotient, as long as [n] is a double *)

(** Rounding [a * 2^s / 5] to an integer and dropping the [s] fractional
    bits again gives [a / 5]: the rounding error is below the distance from
    [a / 5] to the next integer. *)
Lemma round_scaled_div5 a s :
  0 ≤ a → 2 ≤ s → round_half_even (a * 2 ^ s) 5 `div` 2 ^ s = a `div` 5.
Proof.
  intros Ha Hs.
  assert (4 ≤ 2 ^ s) as Hp.
  { change 4 with (2 ^ 2). apply Z.pow_le_mono_r; lia. }
  set (p := 2 ^ s) in *.
  pose proof (Z.div_mod a 5 ltac:(lia)) as Ea.
  pose proof (Z.mod_pos_bound a 5 ltac:(lia)) as Hr.
  set (q := a `div` 5) in *. set (r := a `mod` 5) in *.
  pose proof (Z.div_mod (a * p) 5 ltac:(lia)) as Eu.
  pose proof (Z.mod_pos_bound (a * p) 5 ltac:(lia)) as Hv.
  unfold round_half_even.
  set (u := (a * p) `div` 5) in *. set (v := (a * p) `mod` 5) in *.
  assert (q * p ≤ u ∧ u < q * p + p ∧ (3 ≤ v → u + 1 < q * p + p)) as (? & ? & ?)
    by nia.
  symmetry. apply Z.div_unique_pos with
    (r := (if bool_decide (2 * v < 5) then u
            else if bool_decide (5 < 2 * v) then u + 1
            else if Z.even u then u else u + 1) - q * p).
  - repeat case_bool_decide; try destruct (Z.even u); lia.
  - lia.
Qed.

Lemma int_truediv_5 n :
  0 ≤ n < 2 ^ 53 → ∃ q, truediv n 5 = Ok q ∧ py_int q = n `div` 5.
Proof.
  intros Hn. unfold truediv. rewrite bool_decide_false by done.
  case_bool_decide as Hz.
  - subst n. eexists. split; [done|]. done.
  - rewrite Z.abs_eq by lia. change (Z.abs 5) with 5.
    unfold truediv_pos. change (Z.log2 5) with 2.
    assert (0 ≤ Z.log2 n ≤ 52) as Hlog.
    { split; [apply Z.log2_nonneg|].
      assert (Z.log2 n < 53); [|lia]. apply Z.log2_lt_pow2; lia. }
    destruct (scaled n 5 (Z.log2 n - 2)) as [n0 d0].
    set (e := Z.max _ (-1074)).
    assert (-1074 ≤ e ≤ -2) as He by (unfold e; case_bool_decide; lia).
    unfold scaled. rewrite (bool_decide_false (0 ≤ e)) by lia. simpl.
    rewrite (Z.pow_neg_r 2 e), Z.mul_0_r by lia.
    rewrite bool_decide_false by (apply Z.lt_nge, Z.pow_pos_nonneg; lia).
    eexists. split; [done|]. unfold py_int. simpl.
    rewrite bool_decide_false by lia.
    replace (Z.sgn n * 1 * _) with (round_half_even (n * 2 ^ (- e)) 5)
      by (rewrite Z.sgn_pos by lia; lia).
    rewrite Z.quot_div_nonneg.
    + apply round_scaled_div5; lia.
    + unfold round_half_even.
      assert (0 ≤ (n * 2 ^ (- e)) `div` 5) by (apply Z.div_pos; [|lia]; nia).
      repeat case_bool_decide; try destruct (Z.even _); lia.
    + apply Z.pow_pos_nonneg; lia.
Qed.

(** The float model and the Standard Library's IEEE 754 division give the
    same quotient on sample operands, the script's [64 / 5] among them. *)
Lemma truediv_agrees_with_binary64 :
  forallb (λ b, forallb (λ a, same_float (truediv a b) (IEEE_div a b))
                  division_samples) divisor_samples = true.
Proof. vm_compute. reflexivity. Qed.

(** Beyond [2 ^ 53] the quotient is rounded to a double before [int]
    truncates it, and the result can exceed the integer quotient: this is why
    the bound of the black squares is stated for areas below [2 ^ 53]. *)
Lemma truediv_rounds_beyond_2_53 :
  ∃ q, truediv (5 * (2 ^ 53 + 1) + 4) 5 = Ok q ∧
       py_int q = (5 * (2 ^ 53 + 1) + 4) `div` 5 + 1.
Proof. eexists. split; vm_compute; reflexivity. Qed.

(** ** Placement of the words *)

Lemma pairs_shift {A} (F : A → Z → var) (xs : list A) (off w : Z) :
  (λ p, F p.1 (off + p.2)) <$> pairs xs (λ _, range w) =
  (λ p, F p.1 p.2) <$> pairs xs (λ _, range2 off (off + w)).
Proof.
  rewrite (fmap_pairs (λ x j, F x (off + j))), (fmap_pairs F). f_equal.
  apply list_fmap_ext. intros _ x _. unfold range, range2.
  replace (off + w - off) with w by lia.
  replace (seqZ off w) with (Z.add off <$> seqZ 0 w)
    by (rewrite fmap_add_seqZ; f_equal; lia).
  by rewrite <- list_fmap_compose.
Qed.

Lemma window_run (h n k : Z) X xs (ys : Z → list Z) (row col : Z → Z → Z) m :
  cube h n k X →
  (∀ i j, i ∈ xs → j ∈ ys i → 0 ≤ i < h ∧ 0 ≤ row i j < n ∧ 0 ≤ col i j < k) →
  comp2 xs ys (λ i j, at3 X i (row i j) (col i j)) m =
  Ok ((λ p, cell3 X p.1 (row p.1 p.2) (col p.1 p.2)) <$> pairs xs ys, m).
Proof.
  intros HX Hin.
  apply (comp2_pure xs ys _ (λ i j, cell3 X i (row i j) (col i j))).
  intros i j m1 Hi Hj. destruct (Hin i j Hi Hj) as (? & ? & ?).
  by eapply at3_cell3.
Qed.

Section Placement.
Context (wordlist : gmap Z (list (list Z))) (rows columns : Z).
Context (L IA ID : list (list var)) (A D : list (list (list var))).
Hypothesis HA : cube (columns + 1) rows columns A.
Hypothesis HD : cube (rows + 1) rows columns D.
Context (l r c : Z).
Hypothesis Hr : 0 ≤ r < rows.
Hypothesis Hc : 0 ≤ c < columns.

(** A placement that is impossible only forces its start indicator false. *)
Lemma across_cell_off m :
  0 ≤ l ≤ columns →
  wordlist !! l = None ∨ columns - c < l →
  across_cell wordlist columns L A IA l r c m =
  Add (Linear (EVar (cell3 A l r c)) REq (EConst 0) None) m.
Proof.
  intros Hl Hoff. unfold across_cell.
  assert (∀ f : var → M (), (at3 A l r c ≫= f) m = f (cell3 A l r c) m) as Hrun.
  { intros f. apply bind_run. apply (at3_cell3 (columns + 1) rows columns); [done|lia|done..]. }
  case_bool_decide; [apply Hrun|].
  case_bool_decide; [apply Hrun|]. by destruct Hoff.
Qed.

Lemma down_cell_off m :
  0 ≤ l ≤ rows →
  wordlist !! l = None ∨ rows - r < l →
  down_cell wordlist rows L D ID l r c m =
  Add (Linear (EVar (cell3 D l r c)) REq (EConst 0) None) m.
Proof.
  intros Hl Hoff. unfold down_cell.
  assert (∀ f : var → M (), (at3 D l r c ≫= f) m = f (cell3 D l r c) m) as Hrun.
  { intros f. apply bind_run. apply (at3_cell3 (rows + 1) rows columns); [done|lia|done..]. }
  case_bool_decide; [apply Hrun|].
  case_bool_decide; [apply Hrun|]. by destruct Hoff.
Qed.

Lemma across_window_run off w m :
  0 ≤ off → off + w ≤ columns →
  comp2 (range (columns + 1)) (λ _, range w) (λ i j, at3 A i r (off + j)) m =
  Ok (across_starts A columns r (range2 off (off + w)), m).
Proof.
  intros ??. unfold across_starts.
  rewrite <- (pairs_shift (λ i j, cell3 A i r j)).
  apply (window_run (columns + 1) rows columns A _ _ (λ _ _, r) (λ _ j, off + j));
    [done|]. intros i j ?%elem_of_range ?%elem_of_range. lia.
Qed.

Lemma down_window_run off w m :
  0 ≤ off → off + w ≤ rows →
  comp2 (range (rows + 1)) (λ _, range w) (λ i j, at3 D i (off + j) c) m =
  Ok (down_starts D rows c (range2 off (off + w)), m).
Proof.
  intros ??. unfold down_starts.
  rewrite <- (pairs_shift (λ i j, cell3 D i j c)).
  apply (window_run (rows + 1) rows columns D _ _ (λ _ j, off + j) (λ _ _, c));
    [done|]. intros i j ?%elem_of_range ?%elem_of_range. lia.
Qed.

(** A possible placement posts one window constraint, then the table. *)
Lemma across_cell_on m :
  0 ≤ l ≤ columns → wordlist !! l ≠ None → l ≤ columns - c →
  across_cell wordlist columns L A IA l r c m =
  (Add (Linear (ESum (EVar <$> across_starts A columns r (across_window columns l c)))
          REq (EConst 1) (Some (Pos (cell3 A l r c))));;
   across_table wordlist L A IA l r c) m.
Proof.
  intros Hl Hin Hfit. unfold across_cell, across_table, across_window.
  rewrite (bool_decide_false (wordlist !! l = None)) by done.
  rewrite (bool_decide_false (columns - c < l)) by lia.
  apply bind_ext; [|done].
  assert (∀ f : var → M (), (at3 A l r c ≫= f) m = f (cell3 A l r c) m) as Hrun.
  { intros f. apply bind_run. apply (at3_cell3 (columns + 1) rows columns); [done|lia|done..]. }
  repeat case_bool_decide.
  - rewrite (bind_run _ _ _ _ _ (across_window_run c (columns - c) m ltac:(lia) ltac:(lia))).
    rewrite Hrun. by replace (c + (columns - c)) with columns by lia.
  - rewrite (bind_run _ _ _ _ _ (across_window_run c (l + 1) m ltac:(lia) ltac:(lia))).
    rewrite Hrun. by replace (c + (l + 1)) with (c + l + 1) by lia.
  - rewrite (bind_run _ _ _ _ _ (across_window_run c (columns - c) m ltac:(lia) ltac:(lia))).
    rewrite Hrun. by replace (c + (columns - c)) with columns by lia.
  - rewrite (bind_run _ _ _ _ _ (across_window_run (c - 1) (l + 2) m ltac:(lia) ltac:(lia))).
    rewrite Hrun. by replace (c - 1 + (l + 2)) with (c + l + 1) by lia.
Qed.

Lemma down_cell_on m :
  0 ≤ l ≤ rows → wordlist !! l ≠ None → l ≤ rows - r →
  down_cell wordlist rows L D ID l r c m =
  (Add (Linear (ESum (EVar <$> down_starts D rows c (down_window rows l r)))
          REq (EConst 1) (Some (Pos (cell3 D l r c))));;
   down_table wordlist L D ID l r c) m.
Proof.
  intros Hl Hin Hfit. unfold down_cell, down_table, down_window.
  rewrite (bool_decide_false (wordlist !! l = None)) by done.
  rewrite (bool_decide_false (rows - r < l)) by lia.
  apply bind_ext; [|done].
  assert (∀ f : var → M (), (at3 D l r c ≫= f) m = f (cell3 D l r c) m) as Hrun.
  { intros f. apply bind_run. apply (at3_cell3 (rows + 1) rows columns); [done|lia|done..]. }
  repeat case_bool_decide.
  - rewrite (bind_run _ _ _ _ _ (down_window_run r (rows - r) m ltac:(lia) ltac:(lia))).
    rewrite Hrun. by replace (r + (rows - r)) with rows by lia.
  - rewrite (bind_run _ _ _ _ _ (down_window_run r (l + 1) m ltac:(lia) ltac:(lia))).
    rewrite Hrun. by replace (r + (l + 1)) with (r + l + 1) by lia.
  - rewrite (bind_run _ _ _ _ _ (down_window_run r (rows - r) m ltac:(lia) ltac:(lia))).
    rewrite Hrun. by replace (r + (rows - r)) with rows by lia.
  - rewrite (bind_run _ _ _ _ _ (down_window_run (r - 1) (l + 2) m ltac:(lia) ltac:(lia))).
    rewrite Hrun. by replace (r - 1 + (l + 2)) with (r + l + 1) by lia.
Qed.
End Placement.

Lemma ran_ext {A} (c c' : M A) a m :
  (∀ m0, c m0 = c' m0) → ran c a m → ran c' a m.
Proof. intros Heq (m0 & m1 & H & Hm). exists m0, m1. by rewrite <- Heq. Qed.

Section PlacementConstraints.
Context {wordlist : gmap Z (list (list Z))} {rows columns : Z}.
Context {g : Grid.t} {m : CpModel}.
Hypothesis Hb : built wordlist rows columns g m.
Context (l r c : Z).
Hypothesis Hr : 0 ≤ r < rows.
Hypothesis Hc : 0 ≤ c < columns.

Lemma built_across_cell :
  0 ≤ l ≤ columns →
  ran (across_cell wordlist columns (Grid.L g) (Grid.A g) (Grid.IA g) l r c) () m.
Proof.
  intros Hl. pose proof (built_across _ _ _ _ _ Hb) as H.
  unfold across_constraints in H.
  apply (ran_for _ _ l) in H; [|intros; solve_mono|apply elem_of_range; lia].
  apply (ran_loop2 _ _ _ r c) in H;
    [done|intros; solve_mono|by apply elem_of_range..].
Qed.

Lemma built_down_cell :
  0 ≤ l ≤ rows →
  ran (down_cell wordlist rows (Grid.L g) (Grid.D g) (Grid.ID g) l r c) () m.
Proof.
  intros Hl. pose proof (built_down _ _ _ _ _ Hb) as H.
  unfold down_constraints in H.
  apply (ran_for _ _ l) in H; [|intros; solve_mono|apply elem_of_range; lia].
  apply (ran_loop2 _ _ _ r c) in H;
    [done|intros; solve_mono|by apply elem_of_range..].
Qed.

Lemma across_off_constraint :
  0 ≤ l ≤ columns → wordlist !! l = None ∨ columns - c < l →
  Linear (EVar (cell3 (Grid.A g) l r c)) REq (EConst 0) None ∈ constraints m.
Proof.
  intros Hl Hoff. apply ran_Add. eapply ran_ext; [|by apply built_across_cell].
  intros m0. by apply (across_cell_off _ rows); [apply (built_A_cube Hb)|..].
Qed.

Lemma down_off_constraint :
  0 ≤ l ≤ rows → wordlist !! l = None ∨ rows - r < l →
  Linear (EVar (cell3 (Grid.D g) l r c)) REq (EConst 0) None ∈ constraints m.
Proof.
  intros Hl Hoff. apply ran_Add. eapply ran_ext; [|by apply built_down_cell].
  intros m0. by apply (down_cell_off _ _ columns); [apply (built_D_cube Hb)|..].
Qed.

Lemma mono_across_table :
  mono (across_table wordlist (Grid.L g) (Grid.A g) (Grid.IA g) l r c).
Proof. unfold across_table. solve_mono. Qed.

Lemma mono_down_table :
  mono (down_table wordlist (Grid.L g) (Grid.D g) (Grid.ID g) l r c).
Proof. unfold down_table. solve_mono. Qed.

Lemma across_on_constraint :
  0 ≤ l ≤ columns → wordlist !! l ≠ None → l ≤ columns - c →
  Linear (ESum (EVar <$> across_starts (Grid.A g) columns r
                           (across_window columns l c)))
    REq (EConst 1) (Some (Pos (cell3 (Grid.A g) l r c))) ∈ constraints m.
Proof.
  intros Hl Hin Hfit. pose proof (built_across_cell Hl) as H.
  eapply ran_ext in H;
    [|intros m0; by apply (across_cell_on _ rows); [apply (built_A_cube Hb)|..]].
  by apply ran_Add_seq in H as [H _]; [|apply mono_across_table].
Qed.

Lemma down_on_constraint :
  0 ≤ l ≤ rows → wordlist !! l ≠ None → l ≤ rows - r →
  Linear (ESum (EVar <$> down_starts (Grid.D g) rows c (down_window rows l r)))
    REq (EConst 1) (Some (Pos (cell3 (Grid.D g) l r c))) ∈ constraints m.
Proof.
  intros Hl Hin Hfit. pose proof (built_down_cell Hl) as H.
  eapply ran_ext in H;
    [|intros m0; by apply (down_cell_on _ _ columns); [apply (built_D_cube Hb)|..]].
  by apply ran_Add_seq in H as [H _]; [|apply mono_down_table].
Qed.
End PlacementConstraints.

(** ** The word index never maps a length to an empty list *)

Lemma add_word_nonempty st word :
  map_Forall (λ _ ws, ws ≠ []) st.1 →
  map_Forall (λ _ ws, ws ≠ []) (add_word st word).1.
Proof.
  destruct st as [wl i]. simpl. intros Hwl.
  destruct (wl !! _) as [ws|] eqn:E; apply map_Forall_insert_2; try done.
  by destruct ws.
Qed.

Lemma load_words_nonempty words l ws :
  load_words words !! l = Some ws → ws ≠ [].
Proof.
  unfold load_words.
  assert (∀ st, map_Forall (λ _ ws, ws ≠ []) st.1 →
                map_Forall (λ _ ws, ws ≠ []) (foldl add_word st words).1) as H.
  { induction words as [|w words IH]; intros st Hst; [done|].
    simpl. by apply IH, add_word_nonempty. }
  intros Hl. eapply (H (∅, 0)); [|done]. apply map_Forall_empty.
Qed.

(** [max] of an empty sequence: [table] cannot even start on an empty tuple
    set. *)
Lemma table_empty_raises vars option m :
  table vars [] option m = Raise ValueError.
Proof. done. Qed.

(** ** Statements that only post constraints *)

Lemma post_nil m : post m [] = m.
Proof. destruct m. unfold post. simpl. by rewrite app_nil_r. Qed.

Lemma post_post m cs1 cs2 : post (post m cs1) cs2 = post m (cs1 ++ cs2).
Proof. unfold post. simpl. by rewrite app_assoc. Qed.

Lemma posts_ret : posts (mret ()) [].
Proof. intros m. by rewrite post_nil. Qed.

Lemma posts_Add ct : posts (Add ct) [ct].
Proof. by intros m. Qed.

Lemma posts_pure {A} (c : M A) (a : A) (f : A → M ()) cs :
  (∀ m, c m = Ok (a, m)) → posts (f a) cs → posts (c ≫= f) cs.
Proof. intros Hc Hf m. by rewrite (bind_run _ _ _ _ _ (Hc m)). Qed.

Lemma posts_lift {A} (r : result A) (a : A) (f : A → M ()) cs :
  r = Ok a → posts (f a) cs → posts (lift r ≫= f) cs.
Proof. intros -> Hf. by apply (posts_pure _ a). Qed.

Lemma posts_seq (c d : M ()) cs1 cs2 :
  posts c cs1 → posts d cs2 → posts (c;; d) (cs1 ++ cs2).
Proof.
  intros Hc Hd m. rewrite (bind_run _ _ _ _ _ (Hc m)). by rewrite Hd, post_post.
Qed.

Lemma posts_for {A} (xs : list A) (body : A → M ()) (F : A → list constraint) :
  (∀ x, x ∈ xs → posts (body x) (F x)) →
  posts (for_ xs body) (concat (F <$> xs)).
Proof.
  induction xs as [|x xs IH]; intros Hb; [apply posts_ret|].
  simpl. apply posts_seq; [apply Hb; left|]. apply IH. intros. apply Hb. by right.
Qed.

(** ** Allocation of fresh variables *)

Lemma declare_declare m ds1 ds2 :
  declare (declare m ds1) ds2 = declare m (ds1 ++ ds2).
Proof. unfold declare. simpl. by rewrite app_assoc. Qed.

Lemma declare_nil m : declare m [] = m.
Proof. destruct m. unfold declare. simpl. by rewrite app_nil_r. Qed.

(** A row of fresh variables takes the next indices, in order. *)
Lemma alloc_row {A} lo hi (nm : A → string) (xs : list A) m :
  comp xs (λ x, NewIntVar lo hi (nm x)) m =
  Ok (seq (length (variables m)) (length xs),
      declare m ((λ x, {| lb := lo; ub := hi; name := nm x |}) <$> xs)).
Proof.
  revert m. induction xs as [|x xs IH]; intros m.
  - simpl. by rewrite declare_nil.
  - simpl comp.
    rewrite (bind_run _ _ _ (length (variables m))
               (declare m [{| lb := lo; ub := hi; name := nm x |}])) by done.
    rewrite (bind_run _ _ _ _ _ (IH _)). rewrite declare_declare.
    simpl. rewrite length_app. simpl. by rewrite Nat.add_1_r.
Qed.

(** An array of fresh variables: its rows, one after the other, are the next
    indices in order. *)
Lemma alloc_matrix {A B} lo hi (nm : A → B → string) (xs : list A) (ys : list B) m :
  ∃ X ds,
    comp xs (λ x, comp ys (λ y, NewIntVar lo hi (nm x y))) m = Ok (X, declare m ds) ∧
    length X = length xs ∧
    Forall (λ row, length row = length ys) X ∧
    concat X = seq (length (variables m)) (length ds) ∧
    Forall (λ d, lb d = lo ∧ ub d = hi) ds.
Proof.
  revert m. induction xs as [|x xs IH]; intros m.
  - exists [], []. simpl. by rewrite declare_nil.
  - destruct (IH (declare m ((λ y, {| lb := lo; ub := hi; name := nm x y |}) <$> ys)))
      as (X & ds & Hrun & HlenX & Hrows & Hcat & Hds).
    exists (seq (length (variables m)) (length ys) :: X),
      (((λ y, {| lb := lo; ub := hi; name := nm x y |}) <$> ys) ++ ds).
    split_and!.
    + simpl comp. rewrite (bind_run _ _ _ _ _ (alloc_row lo hi (nm x) ys m)).
      rewrite (bind_run _ _ _ _ _ Hrun). by rewrite declare_declare.
    + simpl. by rewrite HlenX.
    + constructor; [by rewrite length_seq | done].
    + simpl concat. rewrite Hcat. simpl. rewrite !length_app, length_fmap.
      by rewrite seq_app.
    + apply Forall_app. split; [|done]. by apply Forall_fmap, Forall_forall.
Qed.

(** ** [max_value] and [possible_values] *)

Lemma foldl_max_ge a xs :
  a ≤ foldl Z.max a xs ∧ ∀ v, v ∈ xs → v ≤ foldl Z.max a xs.
Proof.
  revert a. induction xs as [|x xs IH]; intros a; simpl.
  - split; [lia|]. by intros v ?%elem_of_nil.
  - destruct (IH (Z.max a x)) as [H1 H2]. split; [lia|].
    intros v [->|Hv]%elem_of_cons; [lia | by apply H2].
Qed.

Lemma py_max_Ok xs :
  xs ≠ [] → ∃ mx, py_max xs = Ok mx ∧ ∀ v, v ∈ xs → v ≤ mx.
Proof.
  destruct xs as [|x xs]; [done|]. intros _. eexists. split; [done|].
  destruct (foldl_max_ge x xs) as [H1 H2].
  intros v [->|Hv]%elem_of_cons; [done | by apply H2].
Qed.

Lemma traverse_py_max tuples :
  Forall (λ t, t ≠ []) tuples →
  ∃ ms, traverse py_max tuples = Ok ms ∧ length ms = length tuples ∧
        ∀ t v, t ∈ tuples → v ∈ t → ∃ mt, mt ∈ ms ∧ v ≤ mt.
Proof.
  induction 1 as [|t tuples Ht _ IH].
  - exists []. split_and!; [done..|]. by intros t v ?%elem_of_nil.
  - destruct IH as (ms & Hms & Hlen & Hle).
    destruct (py_max_Ok t Ht) as (mt & Hmt & Hmax).
    exists (mt :: ms). split_and!.
    + simpl. rewrite Hmt. simpl. by rewrite Hms.
    + simpl. by rewrite Hlen.
    + intros t' v [->|Ht']%elem_of_cons Hv.
      * exists mt. split; [left | by apply Hmax].
      * destruct (Hle t' v Ht' Hv) as (mt' & ? & ?). exists mt'. split; [by right|done].
Qed.

Lemma max_value_Ok tuples :
  tuples ≠ [] → Forall (λ t, t ≠ []) tuples →
  ∃ mv, (ms ← traverse py_max tuples; py_max ms) = Ok mv ∧
        ∀ t v, t ∈ tuples → v ∈ t → v ≤ mv.
Proof.
  intros Hne Hall. destruct (traverse_py_max tuples Hall) as (ms & Hms & Hlen & Hle).
  destruct (py_max_Ok ms) as (mv & Hmv & Hmax).
  { destruct ms, tuples; done. }
  exists mv. split; [by rewrite Hms|].
  intros t v Ht Hv. destruct (Hle t v Ht Hv) as (mt & Hmt & ?).
  specialize (Hmax mt Hmt). lia.
Qed.

Lemma pv_inv_iff k pv (P Q : Z → Z → Prop) :
  (∀ i j, P i j ↔ Q i j) → pv_inv k pv P → pv_inv k pv Q.
Proof.
  intros HPQ Hinv i. destruct (Hinv i) as [H1 H2]. split; [|done].
  intros Hi. destruct (H1 Hi) as (s & ? & Hs). exists s. split; [done|].
  intros j. by rewrite Hs.
Qed.

Lemma pv_init k :
  pv_inv k (list_to_map ((λ i, (i, ∅)) <$> range k)) (λ _ _, False).
Proof.
  assert (∀ (xs : list Z) i,
    (list_to_map ((λ i, (i, ∅)) <$> xs) : gmap Z (gset Z)) !! i =
    if decide (i ∈ xs) then Some ∅ else None) as Hl.
  { induction xs as [|x xs IH]; intros i.
    - rewrite fmap_nil, list_to_map_nil, lookup_empty.
      case_decide as H; [by apply elem_of_nil in H | done].
    - rewrite fmap_cons, list_to_map_cons. cbn [fst snd].
      destruct (decide (x = i)) as [->|Hne].
      + rewrite lookup_insert_eq. case_decide as H; [done|]. exfalso. apply H. left.
      + rewrite lookup_insert_ne by done. rewrite IH.
        repeat case_decide; try done; set_solver. }
  intros i. rewrite Hl. split.
  - intros Hi. rewrite decide_True by by apply elem_of_range.
    exists ∅. split; [done|]. intros j. set_solver.
  - intros Hi. rewrite decide_False; [done|]. by rewrite elem_of_range.
Qed.

Lemma pv_add_Ok k pv P i j :
  pv_inv k pv P → 0 ≤ i < k →
  ∃ pv', pv_add pv (i, j) = Ok pv' ∧
         pv_inv k pv' (λ i' j', P i' j' ∨ (i', j') = (i, j)).
Proof.
  intros Hinv Hi. destruct (Hinv i) as [H1 _].
  destruct (H1 Hi) as (s & Hs & Hmem).
  exists (<[i := s ∪ {[j]}]> pv). split.
  - unfold pv_add, getkey. simpl. by rewrite Hs.
  - intros i'. destruct (decide (i = i')) as [<-|Hne].
    + split; [|done]. intros _. exists (s ∪ {[j]}).
      rewrite lookup_insert_eq. split; [done|].
      intros j'. rewrite elem_of_union, elem_of_singleton, Hmem. naive_solver.
    + rewrite lookup_insert_ne by done. destruct (Hinv i') as [H1' H2']. split; [|done].
      intros Hi'. destruct (H1' Hi') as (s' & ? & Hs'). exists s'. split; [done|].
      intros j'. rewrite Hs'. naive_solver.
Qed.

Lemma foldM_pv_add k ps : ∀ pv P,
  pv_inv k pv P → (∀ p, p ∈ ps → 0 ≤ p.1 < k) →
  ∃ pv', foldM pv_add pv ps = Ok pv' ∧
         pv_inv k pv' (λ i j, P i j ∨ (i, j) ∈ ps).
Proof.
  induction ps as [|[i j] ps IH]; intros pv P Hinv Hps.
  - exists pv. split; [done|]. eapply pv_inv_iff; [|done].
    intros. rewrite elem_of_nil. naive_solver.
  - destruct (pv_add_Ok k pv P i j Hinv) as (pv1 & Hadd & Hinv1).
    { apply (Hps (i, j)). left. }
    destruct (IH pv1 _ Hinv1) as (pv2 & Hfold & Hinv2).
    { intros. apply Hps. by right. }
    exists pv2. split.
    + simpl. rewrite Hadd. exact Hfold.
    + eapply pv_inv_iff; [|done]. intros i' j'. rewrite elem_of_cons. naive_solver.
Qed.

Lemma elem_of_enumerate {A} (t : list A) i x :
  (i, x) ∈ enumerate t ↔ 0 ≤ i ∧ t !! Z.to_nat i = Some x.
Proof.
  unfold enumerate. rewrite elem_of_lookup_imap. split.
  - intros (n & y & [= -> ->] & Hn). split; [lia|]. by rewrite Nat2Z.id.
  - intros [Hi Hx]. exists (Z.to_nat i), x. split; [|done]. f_equal. lia.
Qed.

Lemma collect_values_Ok k tuples : ∀ pv P,
  pv_inv k pv P → Forall (λ t, len t ≤ k) tuples →
  ∃ pv', collect_values pv tuples = Ok pv' ∧
         pv_inv k pv' (λ i j, P i j ∨ ∃ t, t ∈ tuples ∧ t !! Z.to_nat i = Some j).
Proof.
  unfold collect_values.
  induction tuples as [|t tuples IH]; intros pv P Hinv Hlen.
  - exists pv. split; [done|]. eapply pv_inv_iff; [|done].
    intros. setoid_rewrite elem_of_nil. naive_solver.
  - apply Forall_cons in Hlen as [Ht Hlen].
    destruct (foldM_pv_add k (enumerate t) pv P Hinv) as (pv1 & Hrun1 & Hinv1).
    { intros [i x] [? Hx]%elem_of_enumerate. simpl.
      apply lookup_lt_Some in Hx. unfold len in Ht. lia. }
    destruct (IH pv1 _ Hinv1 Hlen) as (pv2 & Hrun2 & Hinv2).
    exists pv2. split.
    + simpl. rewrite Hrun1. exact Hrun2.
    + destruct (Hinv2 0) as [_ _]. intros i. destruct (Hinv2 i) as [H1 H2].
      split; [|done]. intros Hi. destruct (H1 Hi) as (s & ? & Hs).
      exists s. split; [done|]. intros j. rewrite Hs, elem_of_enumerate.
      setoid_rewrite elem_of_cons. naive_solver.
Qed.

Lemma possible_values_Ok k tuples :
  Forall (λ t, len t ≤ k) tuples →
  ∃ pv, collect_values (list_to_map ((λ i, (i, ∅)) <$> range k)) tuples = Ok pv ∧
        pv_inv k pv (λ i j, ∃ t, t ∈ tuples ∧ t !! Z.to_nat i = Some j).
Proof.
  intros Hlen.
  destruct (collect_values_Ok k tuples _ _ (pv_init k) Hlen) as (pv & Hrun & Hinv).
  exists pv. split; [done|]. eapply pv_inv_iff; [|done]. naive_solver.
Qed.

(** ** What a call of [table] adds to the model *)

Lemma posts_for1 {A} (xs : list A) (body : A → M ()) (F : A → constraint) :
  (∀ x, x ∈ xs → posts (body x) [F x]) → posts (for_ xs body) (F <$> xs).
Proof.
  intros Hb. replace (F <$> xs) with (concat ((λ x, [F x]) <$> xs)).
  - by apply posts_for.
  - clear. induction xs as [|x xs IH]; [done|]. rewrite !fmap_cons. simpl. by f_equal.
Qed.

Lemma at2_run (n k : Z) X r c :
  matrix n k X → 0 ≤ r < n → 0 ≤ c < k → ∀ m, at2 X r c m = Ok (cell X r c, m).
Proof. intros. by eapply at2_cell. Qed.

Section TableConstraints.
Context (vars : list var) (tuples : list (list Z)) (option : var).
Context (b : list var) (ia : list (list var)).
Context (pv : gmap Z (gset Z)) (mv : Z) (P : Z → Z → Prop).
Hypothesis Hb : length b = length tuples.
Hypothesis Hia : matrix (len vars) (mv + 1) ia.
Hypothesis Hpv : pv_inv (len vars) pv P.
Hypothesis Htuples :
  Forall (λ t, length t = length vars ∧ Forall (λ v, 0 ≤ v ≤ mv) t) tuples.

Lemma table_constraints_posts :
  posts (table_constraints vars tuples option b ia pv mv)
        (table_cts vars tuples option b ia pv mv).
Proof.
  unfold table_constraints, table_cts. repeat apply posts_seq.
  - apply posts_for. intros i Hi%elem_of_range.
    apply posts_for. intros j Hj%elem_of_range.
    destruct (Hpv i) as [H1 _]. destruct (H1 Hi) as (s & Hs & _).
    apply (posts_lift _ s); [unfold getkey; by rewrite Hs|]. rewrite Hs. simpl.
    case_bool_decide; [|apply posts_ret].
    apply (posts_pure _ (cell ia i j)); [by apply (at2_run (len vars) (mv + 1))|].
    apply posts_Add.
  - apply posts_for1. intros row _. apply posts_Add.
  - apply posts_for. intros i Hi%elem_of_range.
    apply posts_for1. intros j Hj%elem_of_range.
    apply (posts_lift _ (vars !!! Z.to_nat i)); [by apply getitem_total|].
    apply (posts_pure _ (cell ia i j)); [by apply (at2_run (len vars) (mv + 1))|].
    apply posts_Add.
  - apply posts_for1. intros [i t] [Hi Ht]%elem_of_enumerate.
    assert (t ∈ tuples) as Hin by by eapply list_elem_of_lookup_2.
    rewrite Forall_forall in Htuples. destruct (Htuples t Hin) as [Hlen Hval].
    rewrite Forall_forall in Hval.
    apply (posts_pure _ ((λ j, Pos (cell ia j (t !!! Z.to_nat j))) <$> range (len t))).
    { intros m. apply comp_pure. intros j m0 Hj%elem_of_range.
      assert (0 ≤ j < len vars) by (unfold len in *; lia).
      assert (0 ≤ t !!! Z.to_nat j ≤ mv) as Htj.
      { apply Hval, list_elem_of_lookup_total_2. unfold len in *. lia. }
      rewrite (bind_run _ _ m0 (ia !!! Z.to_nat j) m0).
      2:{ apply lift_run, getitem_total. destruct Hia as [Hn _]. unfold len in *. lia. }
      rewrite (bind_run _ _ m0 (t !!! Z.to_nat j) m0)
        by by apply lift_run, getitem_total.
      rewrite (bind_run _ _ m0 (cell ia j (t !!! Z.to_nat j)) m0); [done|].
      apply lift_run, getitem_total. unfold len.
      rewrite (matrix_row (len vars) (mv + 1)) by done. lia. }
    apply (posts_lift _ (b !!! Z.to_nat i)).
    { apply getitem_total. apply lookup_lt_Some in Ht. unfold len. lia. }
    apply posts_Add.
  - apply posts_Add.
Qed.
End TableConstraints.

Lemma tuples_ok_bounds k tuples mv :
  tuples_ok k tuples → (∀ t v, t ∈ tuples → v ∈ t → v ≤ mv) →
  Forall (λ t, length t = k ∧ Forall (λ v, 0 ≤ v ≤ mv) t) tuples.
Proof.
  intros [_ Hok] Hmax. rewrite Forall_forall in Hok. apply Forall_forall.
  intros t Ht. destruct (Hok t Ht) as [Hlen Hnn]. split; [done|].
  rewrite Forall_forall in Hnn. apply Forall_forall. intros v Hv.
  split; [by apply Hnn | by eapply Hmax].
Qed.

(** [table] runs to completion on well-formed tuples: it declares Boolean
    variables (the [b]s first, then [is_assigned] row by row) and posts
    [table_cts]. *)
Lemma table_run vars tuples option m :
  vars ≠ [] → tuples_ok (length vars) tuples →
  ∃ ia pv mv ds,
    let b := seq (length (variables m)) (length tuples) in
    table_vars vars tuples m = Ok ((b, ia, pv, mv), declare m ds) ∧
    table vars tuples option m =
      Ok ((), post (declare m ds) (table_cts vars tuples option b ia pv mv)) ∧
    0 ≤ mv ∧
    Forall (λ t, length t = length vars ∧ Forall (λ v, 0 ≤ v ≤ mv) t) tuples ∧
    pv_inv (len vars) pv (λ i j, ∃ t, t ∈ tuples ∧ t !! Z.to_nat i = Some j) ∧
    matrix (len vars) (mv + 1) ia ∧
    b ++ concat ia = seq (length (variables m)) (length ds) ∧
    Forall (λ d, lb d = 0 ∧ ub d = 1) ds.
Proof.
  intros Hvars Hok. pose proof Hok as [Hne Hall].
  destruct (max_value_Ok tuples Hne) as (mv & Hmv & Hmax).
  { eapply Forall_impl; [done|]. intros t [Hlen _] ->. by destruct vars. }
  destruct (possible_values_Ok (len vars) tuples) as (pv & Hpvrun & Hpv).
  { eapply Forall_impl; [done|]. intros t [Hlen _]. unfold len. lia. }
  pose proof (tuples_ok_bounds _ _ _ Hok Hmax) as Hbounds.
  assert (0 ≤ mv) as Hmv0.
  { destruct tuples as [|t ?]; [done|]. apply Forall_cons in Hbounds as [[Hlen Ht] _].
    destruct t as [|v t]; [by destruct vars|]. apply Forall_cons in Ht as [? _]. lia. }
  set (n := length (variables m)).
  set (dsb := (λ i, {| lb := 0; ub := 1; name := "b" +:+ idx i |})
                <$> range (len tuples)).
  destruct (alloc_matrix 0 1 (λ i j, "is_assigned" +:+ idx i +:+ idx j)
              (range (len vars)) (range (mv + 1)) (declare m dsb))
    as (ia & dsa & Hrun & HlenX & Hrows & Hcat & Hds).
  assert (length dsb = length tuples) as Hdsb.
  { unfold dsb. rewrite length_fmap, range_length. unfold len. lia. }
  assert (matrix (len vars) (mv + 1) ia) as Hia.
  { split; [by rewrite HlenX, range_length|].
    eapply Forall_impl; [done|]. intros row ->. by rewrite range_length. }
  assert (table_vars vars tuples m =
          Ok ((seq n (length tuples), ia, pv, mv), declare m (dsb ++ dsa))) as Hvarsrun.
  { unfold table_vars.
    rewrite (bind_run _ _ _ _ _ (alloc_row 0 1 (λ i, "b" +:+ idx i) _ m)).
    rewrite range_length. replace (Z.to_nat (len tuples)) with (length tuples)
      by (unfold len; lia).
    rewrite (bind_run _ _ _ _ _ (lift_run _ _ _ Hmv)).
    rewrite (bind_run _ _ _ _ _ (lift_run _ _ _ Hpvrun)).
    unfold NewBoolVar. rewrite (bind_run _ _ _ _ _ Hrun).
    by rewrite declare_declare. }
  exists ia, pv, mv, (dsb ++ dsa). simpl. split_and!; try done.
  - unfold table. rewrite (bind_run _ _ _ _ _ Hvarsrun).
    eapply table_constraints_posts; [|done..]. by rewrite length_seq.
  - rewrite Hcat. simpl. rewrite !length_app, Hdsb. fold n. by rewrite seq_app.
  - apply Forall_app. split; [|done]. by apply Forall_fmap, Forall_forall.
Qed.

(** ** The meaning of the constraints of [table] *)

Lemma Forall_concat_iff {A} (P : A → Prop) (ls : list (list A)) :
  Forall P (concat ls) ↔ ∀ l, l ∈ ls → Forall P l.
Proof.
  rewrite Forall_forall. setoid_rewrite Forall_forall.
  setoid_rewrite elem_of_concat. naive_solver.
Qed.

Lemma Forall_fmap_iff {A B} (P : B → Prop) (f : A → B) (xs : list A) :
  Forall P (f <$> xs) ↔ ∀ x, x ∈ xs → P (f x).
Proof. by rewrite Forall_fmap, Forall_forall. Qed.

Lemma Forall_concat_fmap {A B} (P : B → Prop) (F : A → list B) (xs : list A) :
  Forall P (concat (F <$> xs)) ↔ ∀ x, x ∈ xs → Forall P (F x).
Proof.
  rewrite Forall_concat_iff. split.
  - intros H x Hx. by apply H, list_elem_of_fmap_2.
  - intros H l (x & -> & Hx)%list_elem_of_fmap. by apply H.
Qed.

Lemma table_cts_sem vars tuples option b ia pv mv σ :
  Forall (sat σ) (table_cts vars tuples option b ia pv mv) ↔
  table_sem vars tuples option b ia pv mv σ.
Proof.
  unfold table_cts. rewrite !Forall_app, !Forall_concat_fmap, !Forall_fmap_iff.
  rewrite Forall_singleton. split.
  - intros (H1 & H2 & H3 & H4 & H5). split.
    + intros i j Hi Hj Hnot Hopt.
      specialize (H1 i ltac:(by apply elem_of_range)).
      rewrite Forall_concat_fmap in H1.
      specialize (H1 j ltac:(apply elem_of_range; lia)).
      rewrite bool_decide_true in H1 by done.
      rewrite Forall_singleton in H1. by apply H1.
    + intros row Hrow Hopt. specialize (H2 row Hrow).
      apply sat_sum_eq in H2; done.
    + intros i j Hi Hj Hone.
      specialize (H3 i ltac:(by apply elem_of_range)).
      rewrite Forall_fmap_iff in H3.
      specialize (H3 j ltac:(apply elem_of_range; lia)). by apply H3.
    + intros k t Hk Hbk j Hj.
      specialize (H4 (Z.of_nat k, t)). simpl in H4. rewrite Nat2Z.id in H4.
      assert (Forall (lit_holds σ)
                ((λ j, Pos (cell ia j (t !!! Z.to_nat j))) <$> range (len t))) as Hall.
      { apply H4; [|done]. apply elem_of_enumerate. rewrite Nat2Z.id.
        split; [lia | done]. }
      rewrite Forall_fmap_iff in Hall. by apply (Hall j), elem_of_range.
    + intros Hopt. apply sat_sum_eq in H5; done.
  - intros [S1 S2 S3 S4 S5]. split_and!.
    + intros i Hi%elem_of_range. apply Forall_concat_fmap.
      intros j Hj%elem_of_range.
      case_bool_decide; [|constructor]. apply Forall_singleton.
      intros Hopt. simpl. apply S1; [done | lia | done | done].
    + intros row Hrow Hopt. simpl in Hopt.
      unfold rel_holds. rewrite eval_sum_vars. by apply S2.
    + intros i Hi%elem_of_range.
      apply Forall_fmap_iff. intros j Hj%elem_of_range Hone.
      simpl in *. apply S3; [done | lia | done].
    + intros [i t] [Hi Ht]%elem_of_enumerate Hbi. simpl in *.
      apply Forall_fmap_iff. intros j Hj%elem_of_range. simpl.
      by eapply S4.
    + intros Hopt. simpl in Hopt. unfold rel_holds. rewrite eval_sum_vars.
      by apply S5.
Qed.

(** ** Which assignments [table] accepts *)

Lemma cell_in_concat (n k : Z) (X : list (list var)) i j :
  matrix n k X → 0 ≤ i < n → 0 ≤ j < k → cell X i j ∈ concat X.
Proof.
  intros HX Hi Hj. rewrite (matrix_cells n k) by done.
  apply (list_elem_of_fmap_2 (λ p, cell X p.1 p.2) _ (i, j)).
  by apply elem_of_cells.
Qed.

Lemma cell_inj (n k : Z) (X : list (list var)) i j i' j' :
  matrix n k X → NoDup (concat X) →
  0 ≤ i < n → 0 ≤ j < k → 0 ≤ i' < n → 0 ≤ j' < k →
  cell X i j = cell X i' j' → i = i' ∧ j = j'.
Proof.
  intros HX Hnd Hi Hj Hi' Hj' Heq. rewrite (matrix_cells n k) in Hnd by done.
  assert ((i, j) = (i', j')) as [= -> ->]; [|done].
  eapply (NoDup_fmap_inj_on (λ p, cell X p.1 p.2)); [done| | |done];
    by apply elem_of_cells.
Qed.

Lemma matrix_row_cells (n k : Z) (X : list (list var)) row :
  matrix n k X → row ∈ X →
  ∃ i, 0 ≤ i < n ∧ row = (λ j, cell X i j) <$> range k.
Proof.
  intros [Hn Hk] (i & Hi)%list_elem_of_lookup.
  exists (Z.of_nat i). split.
  - apply lookup_lt_Some in Hi. lia.
  - apply row_cells; [done|]. rewrite Forall_forall in Hk.
    by eapply Hk, list_elem_of_lookup_2.
Qed.

Section TableSemantics.
Context (vars : list var) (tuples : list (list Z)) (option : var) (n : nat).
Context (b : list var) (ia : list (list var)).
Context (pv : gmap Z (gset Z)) (mv : Z) (ds : list IntVar).
Hypothesis Hb : b = seq n (length tuples).
Hypothesis Hia : matrix (len vars) (mv + 1) ia.
Hypothesis Hfresh : b ++ concat ia = seq n (length ds).
Hypothesis Hbool : Forall (λ d, lb d = 0 ∧ ub d = 1) ds.
Hypothesis Hpv :
  pv_inv (len vars) pv (λ i j, ∃ t, t ∈ tuples ∧ t !! Z.to_nat i = Some j).
Hypothesis Htuples :
  Forall (λ t, length t = length vars ∧ Forall (λ v, 0 ≤ v ≤ mv) t) tuples.
Hypothesis Hvars : Forall (λ x, x < n)%nat vars.
Hypothesis Hopt : (option < n)%nat.

Local Abbreviation sem := (table_sem vars tuples option b ia pv mv).
Local Abbreviation in_domains σ :=
  (∀ i d, ds !! i = Some d → in_domain σ (n + i)%nat d).

Lemma aux_fresh x : x ∈ b ++ concat ia → (n ≤ x)%nat.
Proof. rewrite Hfresh. intros ?%elem_of_seq. lia. Qed.

Lemma aux_NoDup : NoDup (b ++ concat ia).
Proof. rewrite Hfresh. apply NoDup_seq. Qed.

Lemma aux_bool σ x : in_domains σ → x ∈ b ++ concat ia → 0 ≤ σ x ≤ 1.
Proof.
  intros Hdom Hx. rewrite Hfresh in Hx. apply elem_of_seq in Hx.
  destruct (lookup_lt_is_Some_2 ds (x - n)) as [d Hd]; [lia|].
  specialize (Hdom _ _ Hd). destruct (proj1 (Forall_forall _ _) Hbool d) as [Hlb Hub]; [by eapply list_elem_of_lookup_2|].
  unfold in_domain in Hdom. rewrite Hlb, Hub in Hdom.
  by replace (n + (x - n))%nat with x in Hdom by lia.
Qed.

Lemma ia_in i j :
  0 ≤ i < len vars → 0 ≤ j ≤ mv → cell ia i j ∈ b ++ concat ia.
Proof.
  intros. apply elem_of_app. right.
  apply (cell_in_concat (len vars) (mv + 1)); [done|lia..].
Qed.

Lemma b_in (k : nat) : (k < length tuples)%nat → b !!! k ∈ b ++ concat ia.
Proof.
  intros. apply elem_of_app. left. apply list_elem_of_lookup_total_2.
  by rewrite Hb, length_seq.
Qed.

Lemma b_ia_distinct (k : nat) i j :
  (k < length tuples)%nat → 0 ≤ i < len vars → 0 ≤ j ≤ mv →
  b !!! k ≠ cell ia i j.
Proof.
  intros Hk Hi Hj Heq. pose proof aux_NoDup as (_ & Hdisj & _)%NoDup_app.
  apply (Hdisj (b !!! k)).
  - apply list_elem_of_lookup_total_2. by rewrite Hb, length_seq.
  - rewrite Heq. apply (cell_in_concat (len vars) (mv + 1)); [done|lia..].
Qed.

Lemma b_inj (k k' : nat) :
  (k < length tuples)%nat → (k' < length tuples)%nat → b !!! k = b !!! k' → k = k'.
Proof.
  intros Hk Hk'. rewrite Hb.
  rewrite !list_lookup_total_alt, !lookup_seq_lt by done. simpl. lia.
Qed.

Lemma ia_inj i j i' j' :
  0 ≤ i < len vars → 0 ≤ j ≤ mv → 0 ≤ i' < len vars → 0 ≤ j' ≤ mv →
  cell ia i j = cell ia i' j' → i = i' ∧ j = j'.
Proof.
  intros. pose proof aux_NoDup as (_ & _ & Hnd)%NoDup_app.
  eapply (cell_inj (len vars) (mv + 1)); eauto; lia.
Qed.

Lemma tuple_entry t i :
  t ∈ tuples → 0 ≤ i < len vars →
  0 ≤ t !!! Z.to_nat i ≤ mv ∧ t !! Z.to_nat i = Some (t !!! Z.to_nat i).
Proof.
  intros Ht Hi.
  destruct (proj1 (Forall_forall _ _) Htuples t Ht) as [Hlen Hval]. rewrite Forall_forall in Hval.
  assert (Z.to_nat i < length t)%nat by (unfold len in Hi; lia).
  split; [by apply Hval, list_elem_of_lookup_total_2|].
  by apply list_lookup_lookup_total_lt.
Qed.

(** Under a true guard, the variables take the values of the one tuple that
    is selected. *)
Lemma table_sound σ :
  in_domains σ → sem σ → σ option = 1 →
  one_true σ b ∧ ∃ t, t ∈ tuples ∧ σ <$> vars = t.
Proof.
  intros Hdom [_ _ Hlink Htuple Hone] Hg.
  assert (NoDup b) as Hnd by (rewrite Hb; apply NoDup_seq).
  destruct (sumZ_one_unique σ b Hnd) as (x & Hx & Hx1 & Huniq).
  { intros y Hy. apply aux_bool; [done|]. apply elem_of_app. by left. }
  { by apply Hone. }
  split; [by exists x|].
  apply list_elem_of_lookup in Hx as (k & Hk).
  assert (k < length tuples)%nat as Hlt.
  { apply lookup_lt_Some in Hk. by rewrite Hb, length_seq in Hk. }
  destruct (lookup_lt_is_Some_2 tuples k Hlt) as [t Ht].
  assert (t ∈ tuples) as Hin by by eapply list_elem_of_lookup_2.
  exists t. split; [done|].
  destruct (proj1 (Forall_forall _ _) Htuples t Hin) as [Hlen _].
  apply list_eq_same_length with (length vars); [done | by rewrite length_fmap |].
  intros i v w Hi Hv Hw. rewrite list_lookup_fmap in Hv.
  destruct (vars !! i) as [y|] eqn:Hy; [|done]. simpl in Hv.
  assert (0 ≤ Z.of_nat i < len vars) as Hi' by (unfold len; lia).
  destruct (tuple_entry t (Z.of_nat i) Hin Hi') as [Hrange Hti].
  rewrite Nat2Z.id in Hrange, Hti.
  specialize (Htuple k t Ht). rewrite (list_lookup_total_correct _ _ _ Hk) in Htuple.
  specialize (Htuple Hx1 (Z.of_nat i)). rewrite Nat2Z.id in Htuple.
  specialize (Hlink (Z.of_nat i) (t !!! i) Hi' Hrange).
  rewrite Nat2Z.id in Hlink. rewrite (list_lookup_total_correct _ _ _ Hy) in Hlink.
  rewrite Hlink in Hv; [|apply Htuple; unfold len; lia]. congruence.
Qed.

(** With the guard false the new variables can all be false. *)
Lemma table_off σ :
  σ option = 0 → ∃ σ', agree_below n σ σ' ∧ in_domains σ' ∧ sem σ'.
Proof.
  intros Hg. set (σ' := λ x, if decide (x < n)%nat then σ x else 0).
  assert (∀ x, (x < n)%nat → σ' x = σ x) as Hold.
  { intros x Hx. unfold σ'. by rewrite decide_True. }
  assert (∀ x, x ∈ b ++ concat ia → σ' x = 0) as Haux.
  { intros x Hx%aux_fresh. unfold σ'. rewrite decide_False; [done|lia]. }
  exists σ'. split_and!; [done| |split].
  - intros i d Hd. unfold in_domain, σ'. rewrite decide_False by lia.
    destruct (proj1 (Forall_forall _ _) Hbool d) as [Hlb Hub];
      [by eapply list_elem_of_lookup_2|]. lia.
  - intros i j _ _ _ Hg'. rewrite Hold in Hg' by done. lia.
  - intros row _ Hg'. rewrite Hold in Hg' by done. lia.
  - intros i j Hi Hj Hone. rewrite Haux in Hone by by apply ia_in. done.
  - intros k t Ht Hone. rewrite Haux in Hone; [done|].
    apply b_in. by eapply lookup_lt_Some.
  - intros Hg'. rewrite Hold in Hg' by done. lia.
Qed.

(** An assignment that matches a tuple extends to the new variables. *)
Lemma table_complete σ t :
  t ∈ tuples → σ <$> vars = t →
  ∃ σ', agree_below n σ σ' ∧ in_domains σ' ∧ sem σ'.
Proof.
  intros Hin Hmatch. pose proof Hin as (k & Hk)%list_elem_of_lookup.
  assert (k < length tuples)%nat as Hlt by by eapply lookup_lt_Some.
  set (ones := b !!! k :: ((λ j, cell ia j (t !!! Z.to_nat j)) <$> range (len vars))).
  set (σ' := λ x, if decide (x < n)%nat then σ x
                  else if decide (x ∈ ones) then 1 else 0).
  assert (∀ x, (x < n)%nat → σ' x = σ x) as Hold.
  { intros x Hx. unfold σ'. by rewrite decide_True. }
  assert (∀ x, x ∈ b ++ concat ia → σ' x = 1 ↔ x ∈ ones) as Haux.
  { intros x Hx%aux_fresh. unfold σ'. rewrite decide_False by lia.
    case_decide; [done|]. split; [lia|done]. }
  assert (∀ k', (k' < length tuples)%nat → σ' (b !!! k') = 1 ↔ k' = k) as Hbk.
  { intros k' Hk'. rewrite Haux by by apply b_in. unfold ones.
    rewrite elem_of_cons, list_elem_of_fmap. split.
    - intros [Heq|(j & Heq & Hj%elem_of_range)]; [by apply b_inj|].
      exfalso. eapply (b_ia_distinct k' j (t !!! Z.to_nat j)); [done..| |done].
      by apply tuple_entry.
    - intros ->. by left. }
  assert (∀ i j, 0 ≤ i < len vars → 0 ≤ j ≤ mv →
                 σ' (cell ia i j) = 1 ↔ j = t !!! Z.to_nat i) as Hcell.
  { intros i j Hi Hj. rewrite Haux by by apply ia_in. unfold ones.
    rewrite elem_of_cons, list_elem_of_fmap. split.
    - intros [Heq|(i' & Heq & Hi'%elem_of_range)].
      + exfalso. by eapply (b_ia_distinct k i j).
      + apply ia_inj in Heq as [-> ->]; [done..|]. by apply tuple_entry.
    - intros ->. right. exists i. split; [done | by apply elem_of_range]. }
  assert (∀ i, 0 ≤ i < len vars → σ' (vars !!! Z.to_nat i) = t !!! Z.to_nat i)
    as Hval.
  { intros i Hi. assert (Z.to_nat i < length vars)%nat by (unfold len in Hi; lia).
    rewrite Hold.
    - rewrite <- Hmatch. by rewrite (list_lookup_total_fmap σ vars).
    - by apply (proj1 (Forall_forall _ _) Hvars), list_elem_of_lookup_total_2. }
  exists σ'. split_and!; [done| |split].
  - intros i d Hd. unfold in_domain, σ'. rewrite decide_False by lia.
    destruct (proj1 (Forall_forall _ _) Hbool d) as [Hlb Hub];
      [by eapply list_elem_of_lookup_2|]. case_decide; lia.
  - intros i j Hi Hj Hnot _.
    destruct (decide (σ' (cell ia i j) = 1)) as [Hone|Hne].
    + exfalso. apply Hcell in Hone; [|done..]. subst j. apply Hnot.
      destruct (Hpv i) as [H1 _]. destruct (H1 Hi) as (s & -> & Hs). simpl.
      apply Hs. exists t. split; [done|]. by apply tuple_entry.
    + assert (cell ia i j ∈ b ++ concat ia) as Hfr%aux_fresh by by apply ia_in.
      unfold σ' in *. rewrite decide_False in * by lia. by case_decide.
  - intros row Hrow _.
    destruct (matrix_row_cells _ _ _ _ Hia Hrow) as (i & Hi & ->).
    rewrite <- list_fmap_compose.
    apply (sumZ_unique_one _ _ (t !!! Z.to_nat i)).
    + apply range_NoDup.
    + intros j Hj%elem_of_range. simpl.
      assert (cell ia i j ∈ b ++ concat ia) as Hfr%aux_fresh
        by (apply ia_in; lia).
      unfold σ'. rewrite decide_False by lia. case_decide; lia.
    + apply elem_of_range. destruct (tuple_entry t i Hin Hi). lia.
    + simpl. apply Hcell; [done| |done]. by apply tuple_entry.
    + intros j Hj%elem_of_range Hone. simpl in Hone.
      apply Hcell in Hone; [done|done|lia].
  - intros i j Hi Hj Hone%Hcell; [|done..]. by rewrite Hval.
  - intros k' t' Hk' Hbk' j Hj.
    apply Hbk in Hbk'; [|by eapply lookup_lt_Some]. subst k'.
    assert (t' = t) as -> by congruence.
    destruct (proj1 (Forall_forall _ _) Htuples t Hin) as [Hlen _].
    assert (0 ≤ j < len vars) by (unfold len in *; lia).
    apply Hcell; [done| |done]. by apply tuple_entry.
  - intros _. apply (sumZ_unique_one _ _ (b !!! k)).
    + rewrite Hb. apply NoDup_seq.
    + intros x Hx.
      assert (x ∈ b ++ concat ia) as Hfr%aux_fresh by (apply elem_of_app; by left).
      unfold σ'. rewrite decide_False by lia. case_decide; lia.
    + apply list_elem_of_lookup_total_2. by rewrite Hb, length_seq.
    + by apply Hbk.
    + intros x (k' & Hk')%list_elem_of_lookup Hone.
      assert (k' < length tuples)%nat as Hlt'.
      { apply lookup_lt_Some in Hk'. by rewrite Hb, length_seq in Hk'. }
      rewrite <- (list_lookup_total_correct _ _ _ Hk') in Hone |- *.
      apply Hbk in Hone; [|done]. by subst.
Qed.

(** The link between [is_assigned] and the variables: an indicator that is
    true fixes the value; under a true guard the indicator of the value the
    variable has is true. *)
Lemma table_link σ i j :
  sem σ → 0 ≤ i < len vars → 0 ≤ j ≤ mv →
  σ (cell ia i j) = 1 → σ (vars !!! Z.to_nat i) = j.
Proof. intros [_ _ Hlink _ _]. apply Hlink. Qed.

Lemma table_link_guarded σ i j :
  in_domains σ → sem σ → σ option = 1 → 0 ≤ i < len vars → 0 ≤ j ≤ mv →
  σ (vars !!! Z.to_nat i) = j → σ (cell ia i j) = 1.
Proof.
  intros Hdom [_ Hsum Hlink _ _] Hg Hi Hj Hval.
  assert (Z.to_nat i < length ia)%nat as Hlt.
  { pose proof Hia as [Hn _]. unfold len in *. lia. }
  pose proof (list_lookup_lookup_total_lt ia _ Hlt) as Hrow.
  pose proof (row_cells ia _ _ (mv + 1) Hrow) as Heq.
  rewrite Z2Nat.id in Heq by lia.
  specialize (Hsum _ (list_elem_of_lookup_2 _ _ _ Hrow) Hg).
  rewrite Heq, <- list_fmap_compose in Hsum.
  2:{ apply (matrix_row (len vars) (mv + 1)); [done|lia]. }
  apply sumZ_one_unique in Hsum as (j0 & Hj0%elem_of_range & Hone & _).
  - simpl in Hone. pose proof (Hlink i j0 Hi ltac:(lia) Hone). by subst.
  - apply range_NoDup.
  - intros j' Hj'%elem_of_range. simpl. apply aux_bool; [done|]. apply ia_in; lia.
Qed.
End TableSemantics.

(** ** The checker is sound *)

Lemma holds_lit_sound σ l : holds_lit σ l = true → lit_holds σ l.
Proof. destruct l; simpl; by intros ?%bool_decide_eq_true. Qed.

Lemma holds_lit_complete σ l : lit_holds σ l → holds_lit σ l = true.
Proof. destruct l; simpl; intros; by apply bool_decide_eq_true. Qed.

Lemma holds_if_sound σ g p (P : Prop) :
  (p = true → P) → holds_if σ g p = true → enforced σ g P.
Proof.
  intros HP. destruct g as [l|]; simpl; [|done].
  intros Himp Hl%holds_lit_complete. rewrite Hl in Himp. by apply HP.
Qed.

Lemma holds_sound σ ct : holds σ ct = true → sat σ ct.
Proof.
  destruct ct as [e1 r e2 g|ls g|xs]; simpl.
  - apply holds_if_sound. destruct r; simpl; by intros ?%bool_decide_eq_true.
  - apply holds_if_sound. intros Hall. apply Forall_forall. intros l Hl.
    apply holds_lit_sound. rewrite forallb_forall in Hall.
    by apply Hall, list_elem_of_In.
  - by intros ?%bool_decide_eq_true.
Qed.

Lemma check_domains_sound σ ds from :
  check_domains σ ds from = true →
  ∀ i d, ds !! i = Some d → in_domain σ (from + i)%nat d.
Proof.
  unfold check_domains. rewrite forallb_forall. intros Hall i d Hd.
  specialize (Hall ((from + i)%nat, d)). simpl in Hall.
  eapply bool_decide_eq_true_1, Hall, list_elem_of_In, elem_of_lookup_imap. eauto.
Qed.

Lemma check_solution_sound m σ : check_solution m σ = true → solution m σ.
Proof.
  unfold check_solution. intros [Hd Hc]%andb_true_iff. split.
  - intros x d Hx. by apply (check_domains_sound σ _ 0 Hd x d).
  - apply Forall_forall. intros ct Hct. apply holds_sound.
    rewrite forallb_forall in Hc. by apply Hc, list_elem_of_In.
Qed.

(** ** Reporting the outcome *)

Lemma forW_run {A} (xs : list A) (body : A → W ()) (F : A → list event) :
  (∀ x, x ∈ xs → body x = (F x, Ok ())) →
  forW xs body = (concat (F <$> xs), Ok ()).
Proof.
  induction xs as [|x xs IH]; intros Hb; [done|].
  simpl. rewrite Hb by left. rewrite IH by (intros; apply Hb; by right). done.
Qed.

Lemma report_failure rows columns L st value :
  st ≠ OPTIMAL →
  report rows columns L st value =
  (status_lines st ++ [Print "We have a problem :(" newline], Raise SystemExit).
Proof. by destruct st. Qed.

Lemma symbol_char v :
  0 ≤ v ≤ 26 → getchar ".ABCDEFGHIJKLMNOPQRSTUVWXYZ" v = Ok (symbol v).
Proof.
  intros Hv. unfold symbol, getchar. rewrite getitem_nonneg by lia.
  destruct (lookup_lt_is_Some_2 (letters ".ABCDEFGHIJKLMNOPQRSTUVWXYZ") (Z.to_nat v))
    as [a Ha]; [simpl; lia|].
  by rewrite Ha.
Qed.

Lemma report_success rows columns L value :
  matrix rows columns L →
  (∀ r c, 0 ≤ r < rows → 0 ≤ c < columns → 0 ≤ value (cell L r c) ≤ 26) →
  report rows columns L OPTIMAL value =
  (status_lines OPTIMAL ++ grid_events rows columns L value, Ok ()).
Proof.
  intros HL Hval. unfold report. simpl.
  rewrite (forW_run _ _ (λ r,
    concat ((λ c, [ReadValue (cell L r c);
                   Print (symbol (value (cell L r c))) ""]) <$> range columns)
    ++ [Print "" newline])); [done|].
  intros r Hr%elem_of_range.
  rewrite (forW_run _ _ (λ c, [ReadValue (cell L r c);
                               Print (symbol (value (cell L r c))) ""])).
  - done.
  - intros c Hc%elem_of_range. unfold liftW.
    rewrite getitem_total by (destruct HL; unfold len; lia). simpl.
    rewrite getitem_total
      by (unfold len; rewrite (matrix_row rows columns) by done; lia).
    simpl. rewrite symbol_char by by apply Hval. done.
Qed.

Lemma status_lines_read_nothing st x : ReadValue x ∉ status_lines st.
Proof. unfold status_lines. set_solver. Qed.

(** ** Grids the script can build *)

Lemma getitem_Ok_inv {A} (xs : list A) i x :
  getitem xs i = Ok x → x ∈ xs ∧ (0 ≤ i → i < len xs).
Proof.
  unfold getitem. intros H. repeat case_bool_decide; try done;
    destruct (xs !! _) as [y|] eqn:E; simplify_eq;
    (split; [by eapply list_elem_of_lookup_2|]); intros ?;
    apply lookup_lt_Some in E; unfold len; lia.
Qed.

Lemma ran_at2_inv {B} (n k : Z) X r c (f : var → M B) b m :
  matrix n k X → ran (at2 X r c ≫= f) b m → 0 ≤ r → 0 ≤ c → r < n ∧ c < k.
Proof.
  intros [Hn Hk] (x & Hx & _)%ran_lift Hr Hc.
  apply result_bind_Ok in Hx as (row & [Hin Hrow]%getitem_Ok_inv & [_ Hcol]%getitem_Ok_inv).
  rewrite Forall_forall in Hk. specialize (Hk row Hin).
  unfold len in *. lia.
Qed.

(** The lone-letter constraints of the border cells read [B[r][1]] and
    [B[1][c]]: a grid with cells has at least two rows and two columns. *)
Lemma built_dims wordlist rows columns g m :
  built wordlist rows columns g m →
  (2 ≤ rows ∧ 2 ≤ columns) ∨ (rows ≤ 0 ∧ columns ≤ 0).
Proof.
  intros Hb.
  assert (0 < rows → 2 ≤ columns) as Hacross.
  { intros Hrows. pose proof (built_lone_across _ _ _ _ _ Hb) as H.
    destruct (built_LLA_vars Hb) as [HLLA _]. destruct (built_B_vars Hb) as [HB _].
    apply (ran_for _ _ 0) in H; [|intros; solve_mono|apply elem_of_range; lia].
    pose proof (ran_at2_inv _ _ _ _ _ _ _ _ HLLA H ltac:(lia) ltac:(lia)) as [_ ?].
    apply (ran_at2 rows columns) in H; [|done|lia..].
    pose proof (ran_at2_inv _ _ _ _ _ _ _ _ HB H ltac:(lia) ltac:(lia)) as [_ ?].
    lia. }
  assert (0 < columns → 2 ≤ rows) as Hdown.
  { intros Hcols. pose proof (built_lone_down _ _ _ _ _ Hb) as H.
    destruct (built_LLD_vars Hb) as [HLLD _]. destruct (built_B_vars Hb) as [HB _].
    apply (ran_for _ _ 0) in H; [|intros; solve_mono|apply elem_of_range; lia].
    pose proof (ran_at2_inv _ _ _ _ _ _ _ _ HLLD H ltac:(lia) ltac:(lia)) as [? _].
    apply (ran_at2 rows columns) in H; [|done|lia..].
    pose proof (ran_at2_inv _ _ _ _ _ _ _ _ HB H ltac:(lia) ltac:(lia)) as [? _].
    lia. }
  lia.
Qed.

(** ** What building the model can raise

    [max] of an empty sequence is the only source of [ValueError] in the
    script; on a word index made by [load_words] it is never reached. *)

Lemma bind_Raise {A B} (c : M A) (f : A → M B) m e :
  (c ≫= f) m = Raise e ↔
  c m = Raise e ∨ ∃ a m', c m = Ok (a, m') ∧ f a m' = Raise e.
Proof.
  unfold mbind, M_bind. destruct (c m) as [[a m']|e']; naive_solver.
Qed.

Lemma result_bind_Raise {A B} (r : result A) (f : A → result B) e :
  (r ≫= f) = Raise e ↔ r = Raise e ∨ ∃ a, r = Ok a ∧ f a = Raise e.
Proof. destruct r; unfold mbind, result_bind; naive_solver. Qed.

Lemma getitem_Raise {A} (xs : list A) i e :
  getitem xs i = Raise e → e = IndexError.
Proof.
  unfold getitem. repeat case_bool_decide; try destruct (xs !! _); congruence.
Qed.

Lemma getkey_Raise {V} (d : gmap Z V) k e : getkey d k = Raise e → e = KeyError.
Proof. unfold getkey. destruct (d !! k); congruence. Qed.

Lemma truediv_Raise a b e :
  truediv a b = Raise e → b ≠ 0 → e = OverflowError.
Proof. unfold truediv. repeat case_bool_decide; congruence. Qed.

Lemma foldM_Raise {A B} (f : A → B → result A) (P : exn → Prop) xs :
  (∀ a x e, f a x = Raise e → P e) → ∀ a e, foldM f a xs = Raise e → P e.
Proof.
  intros Hf. induction xs as [|x xs IH]; intros a e; simpl; [done|].
  intros [H|(a' & _ & H)]%result_bind_Raise; eauto.
Qed.

Lemma collect_values_Raise pv tuples e :
  collect_values pv tuples = Raise e → e = KeyError.
Proof.
  unfold collect_values. revert pv e.
  apply (foldM_Raise _ (λ e, e = KeyError)). intros pv t.
  apply (foldM_Raise _ (λ e, e = KeyError)). intros pv' ij e.
  unfold pv_add. intros [H|(s & _ & H)]%result_bind_Raise; [|done].
  by apply getkey_Raise in H.
Qed.

Section RaisesOnly.
Local Abbreviation safe := (raises_only lookup_or_overflow).

Lemma safe_ret {A} (a : A) : safe (mret a).
Proof. by intros m e. Qed.

Lemma safe_bind {A B} (c : M A) (f : A → M B) :
  safe c → (∀ a, safe (f a)) → safe (c ≫= f).
Proof.
  intros Hc Hf m e [H|(a & m' & _ & H)]%bind_Raise; [by eapply Hc | by eapply Hf].
Qed.

Lemma safe_lift {A} (r : result A) :
  (∀ e, r = Raise e → lookup_or_overflow e) → safe (lift r).
Proof. intros Hr m e. unfold lift. destruct r; [done|]. intros [= <-]. by apply Hr. Qed.

Lemma safe_lift_bind {A B} (r : result A) (f : A → M B) :
  (∀ e, r = Raise e → lookup_or_overflow e) →
  (∀ a, r = Ok a → safe (f a)) → safe (lift r ≫= f).
Proof.
  intros Hr Hf m e [H|(a & m' & [H1 _]%lift_Ok & H)]%bind_Raise.
  - by apply (safe_lift r Hr m).
  - by eapply Hf.
Qed.

Lemma safe_NewIntVar lo hi nm : safe (NewIntVar lo hi nm).
Proof. by intros m e. Qed.

Lemma safe_NewBoolVar nm : safe (NewBoolVar nm).
Proof. by intros m e. Qed.

Lemma safe_Add ct : safe (Add ct).
Proof. by intros m e. Qed.

Lemma safe_getitem {A} (xs : list A) i : safe (lift (getitem xs i)).
Proof. apply safe_lift. intros e ->%getitem_Raise. by left. Qed.

Lemma safe_getkey {V} (d : gmap Z V) k : safe (lift (getkey d k)).
Proof. apply safe_lift. intros e ->%getkey_Raise. right. by left. Qed.

Lemma safe_at2 {A} (X : list (list A)) r c : safe (at2 X r c).
Proof.
  apply safe_lift. intros e [H|(? & _ & H)]%result_bind_Raise;
    apply getitem_Raise in H as ->; by left.
Qed.

Lemma safe_at3 {A} (X : list (list (list A))) l r c : safe (at3 X l r c).
Proof.
  apply safe_lift.
  intros e [H|(? & _ & [H|(? & _ & H)]%result_bind_Raise)]%result_bind_Raise;
    apply getitem_Raise in H as ->; by left.
Qed.

Lemma safe_comp {A B} (xs : list A) (f : A → M B) :
  (∀ x, safe (f x)) → safe (comp xs f).
Proof.
  intros Hf. induction xs as [|x xs IH]; simpl.
  - apply safe_ret.
  - apply safe_bind; [done|]. intros y.
    apply safe_bind; [done|]. intros ys. apply safe_ret.
Qed.

Lemma safe_comp2 {A B C} (xs : list A) (ys : A → list B) (f : A → B → M C) :
  (∀ x y, safe (f x y)) → safe (comp2 xs ys f).
Proof.
  intros Hf. apply safe_bind.
  - apply safe_comp. intros x. by apply safe_comp.
  - intros. apply safe_ret.
Qed.

Lemma safe_for {A} (xs : list A) (body : A → M ()) :
  (∀ x, safe (body x)) → safe (for_ xs body).
Proof.
  intros Hf. induction xs as [|x xs IH]; simpl.
  - apply safe_ret.
  - apply safe_bind; [done|]. by intros _.
Qed.

Lemma safe_if {A} (b : bool) (c1 c2 : M A) :
  safe c1 → safe c2 → safe (if b then c1 else c2).
Proof. by destruct b. Qed.

Create HintDb safe.
#[local] Hint Resolve safe_ret safe_NewIntVar safe_NewBoolVar safe_Add
  safe_getitem safe_getkey safe_at2 safe_at3 : safe.

Ltac solve_safe :=
  repeat first
    [ progress intros
    | progress cbv beta
    | solve [auto with safe]
    | match goal with
      | |- raises_only _ (_ ≫= _) => apply safe_bind
      | |- raises_only _ (for_ _ _) => apply safe_for
      | |- raises_only _ (comp2 _ _ _) => apply safe_comp2
      | |- raises_only _ (comp _ _) => apply safe_comp
      | |- raises_only _ (if _ then _ else _) => apply safe_if
      | |- raises_only _ (match ?p with _ => _ end) => destruct p
      end ].

(** [table] on a non-empty set of non-empty tuples: [max] has arguments. *)
Lemma safe_table vars tuples option :
  tuples ≠ [] → Forall (λ t, t ≠ []) tuples → safe (table vars tuples option).
Proof.
  intros Hne Hall. unfold table, table_vars.
  destruct (max_value_Ok tuples Hne Hall) as (mv & Hmv & _).
  apply safe_bind; [|intros [[[??]?]?]; unfold table_constraints; solve_safe].
  apply safe_bind; [solve_safe|]. intros b.
  apply safe_lift_bind; [intros e He; by rewrite Hmv in He|]. intros mv' _.
  apply safe_lift_bind; [intros e ->%collect_values_Raise; right; by left|].
  intros pv _. solve_safe.
Qed.

Lemma safe_across_cell wordlist columns L A IA l r c :
  word_index wordlist → safe (across_cell wordlist columns L A IA l r c).
Proof.
  intros Hwl. unfold across_cell.
  repeat (apply safe_if; [solve_safe|]).
  apply safe_bind; [solve_safe|]. intros _.
  apply safe_bind; [solve_safe|]. intros vs.
  apply safe_bind; [solve_safe|]. intros ia.
  apply safe_lift_bind; [intros e ->%getkey_Raise; right; by left|].
  intros ws Hws. apply safe_bind; [solve_safe|]. intros a.
  unfold getkey in Hws. destruct (wordlist !! l) as [ws'|] eqn:E; [|done].
  injection Hws as ->. destruct (Hwl l ws E). by apply safe_table.
Qed.

Lemma safe_down_cell wordlist rows L D ID l r c :
  word_index wordlist → safe (down_cell wordlist rows L D ID l r c).
Proof.
  intros Hwl. unfold down_cell.
  repeat (apply safe_if; [solve_safe|]).
  apply safe_bind; [solve_safe|]. intros _.
  apply safe_bind; [solve_safe|]. intros vs.
  apply safe_bind; [solve_safe|]. intros ia.
  apply safe_lift_bind; [intros e ->%getkey_Raise; right; by left|].
  intros ws Hws. apply safe_bind; [solve_safe|]. intros a.
  unfold getkey in Hws. destruct (wordlist !! l) as [ws'|] eqn:E; [|done].
  injection Hws as ->. destruct (Hwl l ws E). by apply safe_table.
Qed.

Lemma safe_black_limit rows columns B : safe (black_limit rows columns B).
Proof.
  unfold black_limit. apply safe_bind; [|solve_safe].
  apply safe_lift. intros e ->%truediv_Raise; [|done]. right. by right.
Qed.

(** On a word index the script ends with a model or with one of the three
    exceptions; [ValueError] is not among them. *)
Lemma safe_build_model wordlist rows columns :
  word_index wordlist → safe (build_model wordlist rows columns).
Proof.
  intros Hwl. unfold build_model.
  pose proof (safe_across_cell wordlist columns) as Hacross.
  pose proof (safe_down_cell wordlist rows) as Hdown.
  pose proof (safe_black_limit rows columns) as Hlimit.
  unfold new_L, new_bools, link_B_L, new_A, new_ids, across_constraints, new_D,
    down_constraints, all_different, lone_across, lone_or_black, cover_across,
    lone_down, cover_down, not_both_lone, windows_3x3.
  repeat first
    [ progress intros
    | progress cbv beta
    | solve [auto with safe]
    | match goal with
      | |- raises_only _ (across_cell _ _ _ _ _ _ _ _) => by apply Hacross
      | |- raises_only _ (down_cell _ _ _ _ _ _ _ _) => by apply Hdown
      | |- raises_only _ (black_limit _ _ _) => apply Hlimit
      | |- raises_only _ (_ ≫= _) => apply safe_bind
      | |- raises_only _ (for_ _ _) => apply safe_for
      | |- raises_only _ (comp2 _ _ _) => apply safe_comp2
      | |- raises_only _ (comp _ _) => apply safe_comp
      | |- raises_only _ (if _ then _ else _) => apply safe_if
      end ].
Qed.
End RaisesOnly.

(** The index [load_words] makes is a word index. *)
Lemma add_word_index st word :
  word_index st.1 → word_index (add_word st word).1.
Proof.
  destruct st as [wl i]. simpl. intros Hwl.
  destruct (wl !! _) as [ws|] eqn:E; apply map_Forall_insert_2; try done.
  - destruct (Hwl _ _ E) as [Hne Hall]. split; [by destruct ws|].
    apply Forall_app. split; [done|]. apply Forall_singleton.
    by destruct (word_to_numbers word).
  - split; [done|]. apply Forall_singleton. by destruct (word_to_numbers word).
Qed.

Lemma load_words_index words : word_index (load_words words).
Proof.
  unfold load_words.
  assert (∀ st, word_index st.1 → word_index (foldl add_word st words).1) as H.
  { induction words as [|w words IH]; intros st Hst; [done|].
    simpl. by apply IH, add_word_index. }
  apply (H (∅, 0)). apply map_Forall_empty.
Qed.

(** * The properties of the specification *)

Lemma fmap_agree (σ σ' : assignment) (n : nat) (xs : list var) :
  agree_below n σ σ' → Forall (λ x, (x < n)%nat) xs → σ' <$> xs = σ <$> xs.
Proof.
  intros Hag Hxs. apply list_fmap_ext. intros i x Hx. apply Hag.
  rewrite Forall_forall in Hxs. by eapply Hxs, list_elem_of_lookup_2.
Qed.

(** C1. [table] on the variables [xs ++ [idv]], a non-empty set of tuples
    of that length with non-negative entries, and the guard [option]: the
    call returns; with the guard false every assignment to the variables
    is accepted; with the guard true an assignment is accepted iff the
    variables [xs] equal the first components of some tuple and [idv] equals
    its last component (its id); and whenever the added constraints hold
    under a true guard, exactly one of the tuple-selected Booleans [b] is
    true. *)
Theorem table_reified (m : CpModel) (xs : list var) (idv option : var)
    (tuples : list (list Z)) :
  (option < length (variables m))%nat →
  Forall (λ x, (x < length (variables m))%nat) (xs ++ [idv]) →
  tuples_ok (length (xs ++ [idv])) tuples →
  ∃ b ia pv mv ds cs,
    table_vars (xs ++ [idv]) tuples m = Ok ((b, ia, pv, mv), declare m ds) ∧
    table (xs ++ [idv]) tuples option m = Ok ((), post (declare m ds) cs) ∧
    length b = length tuples ∧
    (∀ σ, σ option = 0 → accepts m ds cs σ) ∧
    (∀ σ, σ option = 1 →
       (accepts m ds cs σ ↔
        ∃ ws i, ws ++ [i] ∈ tuples ∧ σ <$> xs = ws ∧ σ idv = i)) ∧
    (∀ σ', σ' option = 1 →
       (∀ i d, ds !! i = Some d → in_domain σ' (length (variables m) + i)%nat d) →
       Forall (sat σ') cs → one_true σ' b).
Proof.
  intros Hopt Hvars Hok.
  destruct (table_run (xs ++ [idv]) tuples option m)
    as (ia & pv & mv & ds & Hvrun & Hrun & Hmv & Hb & Hpv & Hia & Hfresh & Hbool);
    [by destruct xs | done |].
  simpl in *. set (n := length (variables m)) in *.
  set (b := seq n (length tuples)) in *.
  exists b, ia, pv, mv, ds, (table_cts (xs ++ [idv]) tuples option b ia pv mv).
  split_and!; [done | done | by apply length_seq | ..].
  - intros σ Hg.
    destruct (table_off (xs ++ [idv]) tuples option n b ia pv mv ds
                eq_refl Hia Hfresh Hbool Hopt σ Hg) as (σ' & ? & ? & Hsem).
    exists σ'. split_and!; [done | done | by apply table_cts_sem].
  - intros σ Hg. split.
    + intros (σ' & Hag & Hdom & Hsat%table_cts_sem).
      destruct (table_sound (xs ++ [idv]) tuples option n b ia pv mv ds
                  eq_refl Hfresh Hbool Hb Hopt σ' Hdom Hsat) as [_ (t & Ht & Hm)].
      { by rewrite Hag. }
      rewrite (fmap_agree σ σ' n) in Hm by done. rewrite fmap_app in Hm.
      exists (σ <$> xs), (σ idv). subst t. split_and!; [exact Ht | done..].
    + intros (ws & i & Hin & <- & <-).
      destruct (table_complete (xs ++ [idv]) tuples option n b ia pv mv ds
                  eq_refl Hia Hfresh Hbool Hpv Hb Hvars Hopt σ _ Hin)
        as (σ' & ? & ? & Hsem); [by rewrite fmap_app|].
      exists σ'. split_and!; [done | done | by apply table_cts_sem].
  - intros σ' Hg Hdom Hsat%table_cts_sem.
    by destruct (table_sound (xs ++ [idv]) tuples option n b ia pv mv ds
                   eq_refl Hfresh Hbool Hb Hopt σ' Hdom Hsat Hg).
Qed.

(** C2, as amended.  Inside [table], an indicator [is_assigned[i][j]] that
    is true forces [variables[i] == j], for every variable [i] and every
    value [j] in [0 .. max_value]; the converse holds when the guard is true
    (the indicator of the value the variable has is then the true one). *)
Theorem is_assigned_link (m : CpModel) (vars : list var) (option : var)
    (tuples : list (list Z)) :
  (option < length (variables m))%nat →
  vars ≠ [] →
  tuples_ok (length vars) tuples →
  ∃ b ia pv mv ds cs,
    table_vars vars tuples m = Ok ((b, ia, pv, mv), declare m ds) ∧
    table vars tuples option m = Ok ((), post (declare m ds) cs) ∧
    ∀ σ, (∀ i d, ds !! i = Some d →
                 in_domain σ (length (variables m) + i)%nat d) →
         Forall (sat σ) cs →
         ∀ i j, 0 ≤ i < len vars → 0 ≤ j ≤ mv →
           (σ (cell ia i j) = 1 → σ (vars !!! Z.to_nat i) = j) ∧
           (σ option = 1 → σ (vars !!! Z.to_nat i) = j → σ (cell ia i j) = 1).
Proof.
  intros Hopt Hvars Hok.
  destruct (table_run vars tuples option m)
    as (ia & pv & mv & ds & Hvrun & Hrun & Hmv & Hb & Hpv & Hia & Hfresh & Hbool);
    [done..|].
  simpl in *. set (n := length (variables m)) in *.
  set (b := seq n (length tuples)) in *.
  exists b, ia, pv, mv, ds, (table_cts vars tuples option b ia pv mv).
  split_and!; [done..|].
  intros σ Hdom Hsat%table_cts_sem i j Hi Hj. split.
  - by apply (table_link vars tuples option b ia pv mv).
  - intros Hg.
    by apply (table_link_guarded vars tuples option n b ia pv mv ds
                eq_refl Hia Hfresh Hbool Hopt).
Qed.

(** C3.  For an across placement [(l, r, c)] that is possible (words of
    length [l] exist and the word fits the row), the body of the loop posts
    one constraint before the table: the sum of the start indicators of every
    length over the window of the placement equals 1, enforced if
    [A[l][r][c]]; the window is the whole row from [c] for a full-span word,
    columns [c .. c+l] on the left edge, [c .. columns-1] on the right edge
    and [c-1 .. c+l] in the interior.  The constraint is in the finished
    model. *)
Theorem across_window_posted (wordlist : gmap Z (list (list Z)))
    (rows columns : Z) (g : Grid.t) (m : CpModel) (l r c : Z) :
  build_model wordlist rows columns empty_model = Ok (g, m) →
  0 ≤ l ≤ columns → 0 ≤ r < rows → 0 ≤ c < columns →
  wordlist !! l ≠ None → l ≤ columns - c →
  let window :=
    Linear (ESum (EVar <$> across_starts (Grid.A g) columns r
                             (across_window columns l c)))
      REq (EConst 1) (Some (Pos (cell3 (Grid.A g) l r c))) in
  (∀ m0, across_cell wordlist columns (Grid.L g) (Grid.A g) (Grid.IA g) l r c m0 =
         (Add window;;
          across_table wordlist (Grid.L g) (Grid.A g) (Grid.IA g) l r c) m0) ∧
  window ∈ constraints m.
Proof.
  intros Hb%build_model_built Hl Hr Hc Hin Hfit. split.
  - intros m0. by apply (across_cell_on _ rows); [apply (built_A_cube Hb)|..].
  - by apply (across_on_constraint Hb).
Qed.

(** C4.  For every [(l, r, c)]: when no word of length [l] is in the word
    index, or the word would overrun the row (the column), the body of the
    across (down) loop posts [A[l][r][c] == 0] ([D[l][r][c] == 0]) and
    nothing else, so the start indicator is false in every solution and no
    table is attached.  The word index built by [load_words] maps no length
    to an empty list, [table] on an empty tuple set raises [ValueError], and
    on such an index the script, whatever the grid size, ends with a model or
    with a failed lookup or an overflow, never with [ValueError]. *)
Theorem impossible_placement_off (wordlist : gmap Z (list (list Z)))
    (rows columns : Z) (g : Grid.t) (m : CpModel) (l r c : Z) :
  build_model wordlist rows columns empty_model = Ok (g, m) →
  0 ≤ r < rows → 0 ≤ c < columns →
  (0 ≤ l ≤ columns → wordlist !! l = None ∨ columns - c < l →
     (∀ m0, across_cell wordlist columns (Grid.L g) (Grid.A g) (Grid.IA g) l r c m0 =
            Add (Linear (EVar (cell3 (Grid.A g) l r c)) REq (EConst 0) None) m0) ∧
     (∀ σ, solution m σ → σ (cell3 (Grid.A g) l r c) = 0)) ∧
  (0 ≤ l ≤ rows → wordlist !! l = None ∨ rows - r < l →
     (∀ m0, down_cell wordlist rows (Grid.L g) (Grid.D g) (Grid.ID g) l r c m0 =
            Add (Linear (EVar (cell3 (Grid.D g) l r c)) REq (EConst 0) None) m0) ∧
     (∀ σ, solution m σ → σ (cell3 (Grid.D g) l r c) = 0)) ∧
  (∀ words l' ws, load_words words !! l' = Some ws → ws ≠ []) ∧
  (∀ vars option m0, table vars [] option m0 = Raise ValueError) ∧
  (∀ words n k,
     raises_only lookup_or_overflow (build_model (load_words words) n k)).
Proof.
  intros Hb%build_model_built Hr Hc. split_and!.
  - intros Hl Hoff. split.
    + intros m0. by apply (across_cell_off _ rows); [apply (built_A_cube Hb)|..].
    + intros σ Hσ.
      by apply (solution_sat m σ _ Hσ (across_off_constraint Hb l r c Hr Hc Hl Hoff)).
  - intros Hl Hoff. split.
    + intros m0. by apply (down_cell_off _ _ columns); [apply (built_D_cube Hb)|..].
    + intros σ Hσ.
      by apply (solution_sat m σ _ Hσ (down_off_constraint Hb l r c Hr Hc Hl Hoff)).
  - apply load_words_nonempty.
  - apply table_empty_raises.
  - intros words n k. apply safe_build_model, load_words_index.
Qed.

(** C5.  Any status other than [OPTIMAL] ends the script after the status
    lines and the failure message, with [sys.exit()], and no letter variable
    is read or printed; with [OPTIMAL] every letter variable of the grid is
    read and printed and the script ends normally. *)
Theorem only_optimal_is_decoded (rows columns : Z) (L : list (list var))
    (value : assignment) :
  (∀ st, st ≠ OPTIMAL →
     report rows columns L st value =
       (status_lines st ++ [Print "We have a problem :(" newline],
        Raise SystemExit) ∧
     reads_nothing (report rows columns L st value).1) ∧
  (matrix rows columns L →
   (∀ r c, 0 ≤ r < rows → 0 ≤ c < columns → 0 ≤ value (cell L r c) ≤ 26) →
   report rows columns L OPTIMAL value =
     (status_lines OPTIMAL ++ grid_events rows columns L value, Ok ())).
Proof.
  split.
  - intros st Hst. rewrite report_failure by done. split; [done|].
    intros x. simpl. destruct st; set_solver.
  - apply report_success.
Qed.

(** C6.  In every solved grid, a non-black cell ([L[r][c] != 0]) that is not
    an across lone letter is covered by exactly one active across start
    indicator, one that is not a down lone letter by exactly one active down
    start indicator, and no cell is a lone letter in both orientations. *)
Theorem letters_covered (wordlist : gmap Z (list (list Z))) (rows columns : Z)
    (g : Grid.t) (m : CpModel) (σ : assignment) (r c : Z) :
  build_model wordlist rows columns empty_model = Ok (g, m) →
  solution m σ →
  0 ≤ r < rows → 0 ≤ c < columns →
  (σ (cell (Grid.L g) r c) ≠ 0 → σ (cell (Grid.LLA g) r c) = 0 →
     exactly_one (across_run_covers σ g columns r c)) ∧
  (σ (cell (Grid.L g) r c) ≠ 0 → σ (cell (Grid.LLD g) r c) = 0 →
     exactly_one (down_run_covers σ g rows r c)) ∧
  ¬ (σ (cell (Grid.LLA g) r c) = 1 ∧ σ (cell (Grid.LLD g) r c) = 1).
Proof.
  intros Hb%build_model_built Hσ Hr Hc. split_and!.
  - by apply (letter_across_covered Hb Hσ).
  - by apply (letter_down_covered Hb Hσ).
  - by apply (not_lone_both Hb Hσ).
Qed.

(** C7.  In every solved grid the values of all the across ids [IA[r][c]]
    and all the down ids [ID[r][c]], over every cell, are pairwise distinct;
    and two runs may spell the same word with two different ids: the example
    grid has a solution whose across runs in rows 1 and 2 both spell [AAA]. *)
Theorem ids_pairwise_distinct (wordlist : gmap Z (list (list Z)))
    (rows columns : Z) (g : Grid.t) (m : CpModel) (σ : assignment) :
  build_model wordlist rows columns empty_model = Ok (g, m) →
  solution m σ →
  NoDup (((λ p, σ (cell (Grid.IA g) p.1 p.2)) <$> cells rows columns) ++
         ((λ p, σ (cell (Grid.ID g) p.1 p.2)) <$> cells rows columns)) ∧
  (∀ r c r' c',
     0 ≤ r < rows → 0 ≤ c < columns → 0 ≤ r' < rows → 0 ≤ c' < columns →
     σ (cell (Grid.IA g) r c) ≠ σ (cell (Grid.ID g) r' c') ∧
     ((r, c) ≠ (r', c') →
      σ (cell (Grid.IA g) r c) ≠ σ (cell (Grid.IA g) r' c') ∧
      σ (cell (Grid.ID g) r c) ≠ σ (cell (Grid.ID g) r' c'))) ∧
  (∃ σ',
     build_model (load_words example_words) 3 3 empty_model =
       Ok (example_grid, example_model) ∧
     solution example_model σ' ∧
     σ' (cell3 (Grid.A example_grid) 3 1 0) = 1 ∧
     σ' (cell3 (Grid.A example_grid) 3 2 0) = 1 ∧
     same_spelling σ' example_grid 3 1 0 2 0 ∧
     σ' (cell (Grid.IA example_grid) 1 0) ≠ σ' (cell (Grid.IA example_grid) 2 0)).
Proof.
  intros Hb%build_model_built Hσ. split_and!.
  - by apply (ids_NoDup Hb Hσ).
  - intros. by apply (ids_distinct Hb Hσ).
  - exists (assign example_values). split_and!.
    + by vm_compute.
    + apply check_solution_sound. by vm_compute.
    + by vm_compute.
    + by vm_compute.
    + intros i Hi. assert (i = 0 ∨ i = 1 ∨ i = 2) as [->|[->| ->]] by lia;
        by vm_compute.
    + by vm_compute.
Qed.

(** C8.  In every solved grid whose area is exactly representable as a
    double, the number of black squares is at most [rows * columns] divided
    by 5 rounded down, which is the bound [int(rows*columns/5)] the script
    posts, and every 3x3 sub-window holds at most 2 black squares. *)
Theorem black_squares_bounded (wordlist : gmap Z (list (list Z)))
    (rows columns : Z) (g : Grid.t) (m : CpModel) (σ : assignment) :
  build_model wordlist rows columns empty_model = Ok (g, m) →
  solution m σ →
  rows * columns < 2 ^ 53 →
  blacks σ g (cells rows columns) ≤ (rows * columns) `div` 5 ∧
  (∀ r c, 0 ≤ r → r + 3 ≤ rows → 0 ≤ c → c + 3 ≤ columns →
     blacks σ g (window_3x3 r c) ≤ 2) ∧
  (∃ q, truediv (rows * columns) 5 = Ok q ∧
        py_int q = (rows * columns) `div` 5 ∧
        Linear (ESum ((λ row, ESum (EVar <$> row)) <$> Grid.B g)) RLe
          (EConst (py_int q)) None ∈ constraints m).
Proof.
  intros Hb%build_model_built Hσ Harea.
  assert (0 ≤ rows * columns) as Hnn by (destruct (built_dims _ _ _ _ _ Hb); nia).
  destruct (int_truediv_5 (rows * columns)) as (q & Hq & Hfloor); [lia|].
  destruct (black_limit_constraint Hb) as (q' & Hq' & Hct).
  destruct (total_blacks Hb Hσ) as (q'' & Hq'' & Hle).
  assert (q' = q) as -> by congruence. assert (q'' = q) as -> by congruence.
  split_and!.
  - by rewrite <- Hfloor.
  - intros. by apply (window_blacks Hb Hσ).
  - by exists q.
Qed.

(** C9.  The body of the down loop at [(l, r, c)] is the body of the across
    loop at [(l, c, r)] on the transposed arrays, with [rows] in the place of
    [columns]: the two post the same constraints and make the same call of
    [table]. *)
Theorem down_is_transposed_across (wordlist : gmap Z (list (list Z)))
    (rows columns : Z) (L ID : list (list var)) (D : list (list (list var)))
    (l r c : Z) (m : CpModel) :
  matrix rows columns L → matrix rows columns ID →
  Forall (matrix rows columns) D →
  0 ≤ r < rows → 0 ≤ c < columns →
  down_cell wordlist rows L D ID l r c m =
  across_cell wordlist rows (transpose rows columns L)
    (transpose rows columns <$> D) (transpose rows columns ID) l c r m.
Proof. intros. by apply down_cell_mirror. Qed.

(** C10 (what the code does).  With [rows = columns = 1] the construction of
    the model never completes, whatever the word index: the lone-letter
    constraint of the only cell reads [B[0][1]].  For the word file [AB],
    [CAT] the script ends with an [IndexError] before any solve. *)
Theorem single_cell_grid_raises :
  (∀ wordlist g m, build_model wordlist 1 1 empty_model ≠ Ok (g, m)) ∧
  (∀ solve, crosswords 1 1 solve ["AB"; "CAT"]%string = ([], Raise IndexError)).
Proof.
  split.
  - intros wordlist g m Hb%build_model_built.
    destruct (built_dims _ _ _ _ _ Hb); lia.
  - intros solve. by vm_compute.
Qed.

(** * The properties on the worked examples *)

Lemma example_built :
  build_model (load_words example_words) 3 3 empty_model =
  Ok (example_grid, example_model).
Proof. by vm_compute. Qed.

Lemma example_solution : solution example_model (assign example_values).
Proof. apply check_solution_sound. by vm_compute. Qed.

Lemma small_table_built :
  table [0; 1]%nat small_tuples 2%nat small_model = Ok ((), small_table).
Proof. by vm_compute. Qed.

Lemma small_solution : solution small_table (assign small_values).
Proof. apply check_solution_sound. by vm_compute. Qed.

(** The claim C2 as it is written fails on the table of [small_tuples]: with
    the guard false, the letter is [A] (value 1) in a solution where
    [is_assigned[0][1]] is false. *)
Lemma is_assigned_not_converse :
  ¬ (∀ σ, solution small_table σ →
       ∀ i j, 0 ≤ i < 2 → 0 ≤ j ≤ 2 →
         (σ (cell small_is_assigned i j) = 1 ↔
          σ ([0; 1]%nat !!! Z.to_nat i) = j)).
Proof.
  intros H. destruct (H _ small_solution 0 1 ltac:(lia) ltac:(lia)) as [_ Hconv].
  specialize (Hconv eq_refl). by vm_compute in Hconv.
Qed.

Lemma table_reified_witness :
  (2 < length (variables small_model))%nat ∧
  Forall (λ x, (x < length (variables small_model))%nat) ([0%nat] ++ [1%nat]) ∧
  tuples_ok (length ([0%nat] ++ [1%nat])) small_tuples ∧
  ∃ b ia pv mv ds cs,
    table_vars ([0%nat] ++ [1%nat]) small_tuples small_model =
      Ok ((b, ia, pv, mv), declare small_model ds) ∧
    table ([0%nat] ++ [1%nat]) small_tuples 2%nat small_model =
      Ok ((), post (declare small_model ds) cs) ∧
    length b = length small_tuples ∧
    (∀ σ, σ 2%nat = 0 → accepts small_model ds cs σ) ∧
    (∀ σ, σ 2%nat = 1 →
       (accepts small_model ds cs σ ↔
        ∃ ws i, ws ++ [i] ∈ small_tuples ∧ σ <$> [0%nat] = ws ∧ σ 1%nat = i)) ∧
    (∀ σ', σ' 2%nat = 1 →
       (∀ i d, ds !! i = Some d →
               in_domain σ' (length (variables small_model) + i)%nat d) →
       Forall (sat σ') cs → one_true σ' b).
Proof.
  assert (H1 : (2 < length (variables small_model))%nat) by (simpl; lia).
  assert (H2 : Forall (λ x, (x < length (variables small_model))%nat)
                      ([0%nat] ++ [1%nat])) by (repeat constructor).
  assert (H3 : tuples_ok (length ([0%nat] ++ [1%nat])) small_tuples)
    by (split; [done | repeat constructor; lia]).
  split_and!; [exact H1 | exact H2 | exact H3 |].
  exact (table_reified small_model [0%nat] 1%nat 2%nat small_tuples H1 H2 H3).
Defined.

Lemma is_assigned_link_witness :
  (2 < length (variables small_model))%nat ∧
  [0; 1]%nat ≠ [] ∧
  tuples_ok (length [0; 1]%nat) small_tuples ∧
  ∃ b ia pv mv ds cs,
    table_vars [0; 1]%nat small_tuples small_model =
      Ok ((b, ia, pv, mv), declare small_model ds) ∧
    table [0; 1]%nat small_tuples 2%nat small_model =
      Ok ((), post (declare small_model ds) cs) ∧
    ∀ σ, (∀ i d, ds !! i = Some d →
                 in_domain σ (length (variables small_model) + i)%nat d) →
         Forall (sat σ) cs →
         ∀ i j, 0 ≤ i < len [0; 1]%nat → 0 ≤ j ≤ mv →
           (σ (cell ia i j) = 1 → σ ([0; 1]%nat !!! Z.to_nat i) = j) ∧
           (σ 2%nat = 1 → σ ([0; 1]%nat !!! Z.to_nat i) = j → σ (cell ia i j) = 1).
Proof.
  assert (H1 : (2 < length (variables small_model))%nat) by (simpl; lia).
  assert (H2 : [0; 1]%nat ≠ []) by done.
  assert (H3 : tuples_ok (length [0; 1]%nat) small_tuples)
    by (split; [done | repeat constructor; lia]).
  split_and!; [exact H1 | exact H2 | exact H3 |].
  exact (is_assigned_link small_model [0; 1]%nat 2%nat small_tuples H1 H2 H3).
Defined.

Lemma across_window_posted_witness :
  build_model (load_words example_words) 3 3 empty_model =
    Ok (example_grid, example_model) ∧
  load_words example_words !! 2 ≠ None ∧
  (∀ m0, across_cell (load_words example_words) 3 (Grid.L example_grid)
           (Grid.A example_grid) (Grid.IA example_grid) 2 0 1 m0 =
         (Add (Linear (ESum (EVar <$> across_starts (Grid.A example_grid) 3 0
                                        (across_window 3 2 1)))
                 REq (EConst 1) (Some (Pos (cell3 (Grid.A example_grid) 2 0 1))));;
          across_table (load_words example_words) (Grid.L example_grid)
            (Grid.A example_grid) (Grid.IA example_grid) 2 0 1) m0) ∧
  Linear (ESum (EVar <$> across_starts (Grid.A example_grid) 3 0
                           (across_window 3 2 1)))
    REq (EConst 1) (Some (Pos (cell3 (Grid.A example_grid) 2 0 1)))
    ∈ constraints example_model.
Proof.
  assert (H1 : build_model (load_words example_words) 3 3 empty_model =
               Ok (example_grid, example_model)) by (vm_compute; reflexivity).
  assert (H2 : load_words example_words !! 2 ≠ None)
    by (vm_compute; discriminate).
  split_and!; [exact H1 | exact H2 | ..];
    apply (across_window_posted (load_words example_words) 3 3 example_grid
             example_model 2 0 1 H1); (lia || exact H2).
Defined.

Lemma impossible_placement_off_witness :
  build_model (load_words example_words) 3 3 empty_model =
    Ok (example_grid, example_model) ∧
  load_words example_words !! 1 = None ∧
  (∀ m0, across_cell (load_words example_words) 3 (Grid.L example_grid)
           (Grid.A example_grid) (Grid.IA example_grid) 1 0 0 m0 =
         Add (Linear (EVar (cell3 (Grid.A example_grid) 1 0 0)) REq (EConst 0) None) m0) ∧
  (∀ σ, solution example_model σ → σ (cell3 (Grid.A example_grid) 1 0 0) = 0) ∧
  (∀ σ, solution example_model σ → σ (cell3 (Grid.D example_grid) 1 0 0) = 0).
Proof.
  assert (H1 : build_model (load_words example_words) 3 3 empty_model =
               Ok (example_grid, example_model)) by (vm_compute; reflexivity).
  assert (H2 : load_words example_words !! 1 = None) by (vm_compute; reflexivity).
  destruct (impossible_placement_off (load_words example_words) 3 3 example_grid
              example_model 1 0 0 H1 ltac:(lia) ltac:(lia))
    as (Hacross & Hdown & _).
  destruct (Hacross ltac:(lia) (or_introl H2)) as [Ha1 Ha2].
  destruct (Hdown ltac:(lia) (or_introl H2)) as [_ Hd2].
  split_and!; [exact H1 | exact H2 | exact Ha1 | exact Ha2 | exact Hd2].
Defined.

Lemma example_letters :
  ∀ r c, 0 ≤ r < 3 → 0 ≤ c < 3 →
    0 ≤ assign example_values (cell (Grid.L example_grid) r c) ≤ 26.
Proof.
  intros r c Hr Hc.
  assert (r = 0 ∨ r = 1 ∨ r = 2) as [->|[->| ->]] by lia;
    assert (c = 0 ∨ c = 1 ∨ c = 2) as [->|[->| ->]] by lia;
    vm_compute; split; discriminate.
Defined.

Lemma example_L_matrix : matrix 3 3 (Grid.L example_grid).
Proof. split; [reflexivity | vm_compute; repeat constructor]. Defined.

Lemma only_optimal_is_decoded_witness :
  report 3 3 (Grid.L example_grid) FEASIBLE (assign example_values) =
    (status_lines FEASIBLE ++ [Print "We have a problem :(" newline],
     Raise SystemExit) ∧
  reads_nothing (report 3 3 (Grid.L example_grid) FEASIBLE
                   (assign example_values)).1 ∧
  report 3 3 (Grid.L example_grid) OPTIMAL (assign example_values) =
    (status_lines OPTIMAL ++
     grid_events 3 3 (Grid.L example_grid) (assign example_values), Ok ()).
Proof.
  destruct (only_optimal_is_decoded 3 3 (Grid.L example_grid)
              (assign example_values)) as [Hfail Hok].
  destruct (Hfail FEASIBLE ltac:(discriminate)) as [H1 H2].
  split_and!; [exact H1 | exact H2 |].
  exact (Hok example_L_matrix example_letters).
Defined.

Lemma letters_covered_witness :
  build_model (load_words example_words) 3 3 empty_model =
    Ok (example_grid, example_model) ∧
  solution example_model (assign example_values) ∧
  exactly_one (across_run_covers (assign example_values) example_grid 3 1 1) ∧
  exactly_one (down_run_covers (assign example_values) example_grid 3 1 1) ∧
  ¬ (assign example_values (cell (Grid.LLA example_grid) 1 1) = 1 ∧
     assign example_values (cell (Grid.LLD example_grid) 1 1) = 1).
Proof.
  assert (H1 : build_model (load_words example_words) 3 3 empty_model =
               Ok (example_grid, example_model)) by (vm_compute; reflexivity).
  assert (H2 : solution example_model (assign example_values))
    by (apply check_solution_sound; vm_compute; reflexivity).
  destruct (letters_covered (load_words example_words) 3 3 example_grid
              example_model (assign example_values) 1 1 H1 H2
              ltac:(lia) ltac:(lia)) as (Ha & Hd & Hn).
  split_and!; [exact H1 | exact H2 | | | exact Hn].
  - apply Ha; [vm_compute; discriminate | vm_compute; reflexivity].
  - apply Hd; [vm_compute; discriminate | vm_compute; reflexivity].
Defined.

Lemma ids_pairwise_distinct_witness :
  build_model (load_words example_words) 3 3 empty_model =
    Ok (example_grid, example_model) ∧
  solution example_model (assign example_values) ∧
  NoDup (((λ p, assign example_values (cell (Grid.IA example_grid) p.1 p.2))
            <$> cells 3 3) ++
         ((λ p, assign example_values (cell (Grid.ID example_grid) p.1 p.2))
            <$> cells 3 3)).
Proof.
  assert (H1 : build_model (load_words example_words) 3 3 empty_model =
               Ok (example_grid, example_model)) by (vm_compute; reflexivity).
  assert (H2 : solution example_model (assign example_values))
    by (apply check_solution_sound; vm_compute; reflexivity).
  split_and!; [exact H1 | exact H2 |].
  exact (proj1 (ids_pairwise_distinct (load_words example_words) 3 3
                  example_grid example_model (assign example_values) H1 H2)).
Defined.

Lemma black_squares_bounded_witness :
  build_model (load_words example_words) 3 3 empty_model =
    Ok (example_grid, example_model) ∧
  solution example_model (assign example_values) ∧
  3 * 3 < 2 ^ 53 ∧
  blacks (assign example_values) example_grid (cells 3 3) ≤ (3 * 3) `div` 5 ∧
  blacks (assign example_values) example_grid (window_3x3 0 0) ≤ 2.
Proof.
  assert (H1 : build_model (load_words example_words) 3 3 empty_model =
               Ok (example_grid, example_model)) by (vm_compute; reflexivity).
  assert (H2 : solution example_model (assign example_values))
    by (apply check_solution_sound; vm_compute; reflexivity).
  assert (H3 : 3 * 3 < 2 ^ 53) by (vm_compute; reflexivity).
  destruct (black_squares_bounded (load_words example_words) 3 3 example_grid
              example_model (assign example_values) H1 H2 H3) as (Ht & Hw & _).
  split_and!; [exact H1 | exact H2 | exact H3 | exact Ht |].
  apply Hw; lia.
Defined.

Lemma down_is_transposed_across_witness :
  matrix 3 3 (Grid.L example_grid) ∧ matrix 3 3 (Grid.ID example_grid) ∧
  Forall (matrix 3 3) (Grid.D example_grid) ∧
  down_cell (load_words example_words) 3 (Grid.L example_grid)
    (Grid.D example_grid) (Grid.ID example_grid) 3 0 1 empty_model =
  across_cell (load_words example_words) 3 (transpose 3 3 (Grid.L example_grid))
    (transpose 3 3 <$> Grid.D example_grid)
    (transpose 3 3 (Grid.ID example_grid)) 3 1 0 empty_model.
Proof.
  assert (H1 : matrix 3 3 (Grid.L example_grid))
    by (split; [reflexivity | vm_compute; repeat constructor]).
  assert (H2 : matrix 3 3 (Grid.ID example_grid))
    by (split; [reflexivity | vm_compute; repeat constructor]).
  assert (H3 : Forall (matrix 3 3) (Grid.D example_grid))
    by (vm_compute; repeat constructor).
  split_and!; [exact H1 | exact H2 | exact H3 |].
  apply (down_is_transposed_across (load_words example_words) 3 3
           (Grid.L example_grid) (Grid.ID example_grid) (Grid.D example_grid)
           3 0 1 empty_model H1 H2 H3); lia.
Defined.

(** * Part III: further properties of the code *)

(** ** [str.find] on one character *)

Lemma find_from_spec s a i :
  (find_from s a i = -1 ∧ a ∉ letters s ∨
   ∃ k : nat, find_from s a i = i + Z.of_nat k ∧ letters s !! k = Some a ∧
              ∀ k', (k' < k)%nat → letters s !! k' ≠ Some a) ∨ i < 0.
Proof.
  destruct (decide (i < 0)) as [|Hi]; [by right|]. left.
  revert i Hi. induction s as [|b s IH]; intros i Hi; simpl.
  - left. split; [done|]. apply not_elem_of_nil.
  - case_bool_decide as Hab.
    + subst b. right. exists 0%nat. split_and!; [lia | done | lia].
    + destruct (IH (i + 1) ltac:(lia)) as [[-> Hnot]|(k & -> & Hk & Hfirst)].
      * left. split; [done|]. rewrite not_elem_of_cons. split; [done|done].
      * right. exists (S k). split_and!; [lia | done |].
        intros [|k'] ?; simpl; [congruence|]. apply Hfirst. lia.
Qed.

Lemma letters_length s : length (letters s) = String.length s.
Proof. induction s; simpl; congruence. Qed.

(** ** The codes of a word *)


Lemma word_to_numbers_lookup word (j : nat) a :
  letters word !! j = Some a →
  word_to_numbers word !! j = Some (find_from alphabet (upper_ascii a) 0).
Proof. intros H. unfold word_to_numbers. by rewrite list_lookup_fmap, H. Qed.

Lemma word_to_numbers_length word :
  length (word_to_numbers word) = String.length word.
Proof. unfold word_to_numbers. by rewrite length_fmap, letters_length. Qed.


Lemma letter_code a :
  is_letter a = true →
  1 ≤ find_from alphabet (upper_ascii a) 0 ≤ 26 ∧
  getchar printed_alphabet (find_from alphabet (upper_ascii a) 0) =
    Ok (String (upper_ascii a) EmptyString).
Proof.
  destruct a as [[] [] [] [] [] [] [] []]; vm_compute; intros H;
    try discriminate H; (split; [split; discriminate | reflexivity]).
Qed.

(** X2.  A word made of letters is encoded with the codes 1 to 26 only, and
    decoding its codes the way the grid is printed gives the word back in
    upper case. *)
Theorem alphabetic_word_round_trip (word : string) :
  alphabetic word →
  Forall (λ v, 1 ≤ v ≤ 26) (word_to_numbers word) ∧
  traverse (getchar printed_alphabet) (word_to_numbers word) =
    Ok ((λ a, String (upper_ascii a) EmptyString) <$> letters word).
Proof.
  unfold alphabetic, word_to_numbers. induction 1 as [|a ls Ha _ [IH1 IH2]].
  - by split.
  - destruct (letter_code a Ha) as [Hv Hch]. split.
    + rewrite fmap_cons. by constructor.
    + rewrite !fmap_cons.
      change (traverse ?f (?x :: ?xs)) with (y ← f x; ys ← traverse f xs; Ok (y :: ys)).
      unfold alphabet in Hch. rewrite Hch. cbn [mbind result_bind].
      by rewrite IH2.
Qed.

(** ** The word index *)

Lemma elem_of_entries l i words t :
  t ∈ entries l i words ↔
  ∃ (k : nat) word, words !! k = Some word ∧
    Z.of_nat (String.length word) = l ∧ t = word_to_numbers word ++ [i + Z.of_nat k].
Proof.
  revert i. induction words as [|w words IH]; intros i; simpl.
  - split; [by intros ?%elem_of_nil | by intros (k & ? & ? & _)].
  - rewrite elem_of_app, IH. split.
    + intros [Ht|(k & word & Hk & Hl & ->)].
      * case_bool_decide; [|by apply elem_of_nil in Ht].
        apply list_elem_of_singleton in Ht as ->.
        exists 0%nat, w. split_and!; [done..|]. by rewrite Z.add_0_r.
      * exists (S k), word. split_and!; [done..|]. do 2 f_equal. lia.
    + intros ([|k] & word & Hk & Hl & ->); simpl in Hk.
      * injection Hk as ->. left. rewrite bool_decide_true by done.
        rewrite Z.add_0_r. by apply list_elem_of_singleton.
      * right. exists k, word. split_and!; [done..|]. do 2 f_equal. lia.
Qed.

Lemma foldl_add_word_lookup words : ∀ wl i l,
  map_Forall (λ _ ws, ws ≠ []) wl →
  (foldl add_word (wl, i) words).1 !! l =
  match default [] (wl !! l) ++ entries l i words with
  | [] => None
  | ws => Some ws
  end.
Proof.
  induction words as [|w words IH]; intros wl i l Hwl.
  - simpl. rewrite app_nil_r. destruct (wl !! l) as [ws|] eqn:E; [|done].
    simpl. specialize (Hwl l ws E). by destruct ws.
  - change (foldl add_word (wl, i) (w :: words))
      with (foldl add_word (add_word (wl, i) w) words).
    pose proof (add_word_nonempty (wl, i) w Hwl) as Hwl'.
    destruct (add_word (wl, i) w) as [wl' i'] eqn:Hadd.
    assert (i' = i + 1) as -> by (simpl in Hadd; by injection Hadd as _ <-).
    rewrite IH by done. simpl entries.
    assert (default [] (wl' !! l) =
            default [] (wl !! l) ++
            (if bool_decide (Z.of_nat (String.length w) = l)
             then [word_to_numbers w ++ [i]] else [])) as ->.
    { simpl in Hadd. injection Hadd as <-.
      case_bool_decide as Hl.
      - subst l. destruct (wl !! _) as [ws|] eqn:E; by rewrite lookup_insert_eq.
      - rewrite app_nil_r.
        destruct (wl !! Z.of_nat (String.length w)) as [ws|] eqn:E;
          by rewrite lookup_insert_ne. }
    by rewrite <- app_assoc.
Qed.

Lemma load_words_lookup (words : list string) (l : Z) :
  load_words words !! l =
  match entries l 0 words with
  | [] => None
  | ws => Some ws
  end.
Proof.
  unfold load_words. rewrite foldl_add_word_lookup by apply map_Forall_empty.
  by rewrite lookup_empty.
Qed.


Lemma load_words_elem words l ws t :
  load_words words !! l = Some ws →
  t ∈ ws ↔
  ∃ (k : nat) word, words !! k = Some word ∧
    Z.of_nat (String.length word) = l ∧ t = word_to_numbers word ++ [Z.of_nat k].
Proof.
  rewrite load_words_lookup. intros Hl.
  assert (ws = entries l 0 words) as -> by (destruct (entries _ _ _); congruence).
  rewrite elem_of_entries. by setoid_rewrite Z.add_0_l.
Qed.


Lemma sumZ_Permutation xs ys : xs ≡ₚ ys → sumZ xs = sumZ ys.
Proof.
  induction 1; simpl; unfold sumZ in *; simpl; lia.
Qed.

Lemma index_size_insert (wl : gmap Z (list (list Z))) k ws :
  index_size (<[k := ws]> wl) =
  index_size wl - len (default [] (wl !! k)) + len ws.
Proof.
  assert (∀ (m : gmap Z (list (list Z))) v, m !! k = None →
            index_size (<[k := v]> m) = len v + index_size m) as Hfresh.
  { intros m v Hm. unfold index_size.
    change (foldr Z.add 0) with sumZ.
    rewrite (sumZ_Permutation _ _
               (fmap_Permutation _ _ _ (map_to_list_insert m k v Hm))).
    by rewrite fmap_cons, sumZ_cons. }
  destruct (wl !! k) as [old|] eqn:E; simpl.
  - rewrite <- (insert_delete_eq wl k ws).
    rewrite <- (insert_delete_id wl k old E) at 2.
    rewrite !Hfresh by apply lookup_delete_eq. lia.
  - rewrite Hfresh by done. unfold len at 2. simpl. lia.
Qed.

Lemma index_size_add_word st word :
  index_size (add_word st word).1 = index_size st.1 + 1.
Proof.
  destruct st as [wl i]. simpl.
  destruct (wl !! _) as [ws|] eqn:E; rewrite index_size_insert, E; simpl;
    unfold len; rewrite ?length_app; simpl; lia.
Qed.

Lemma index_size_load_words words : index_size (load_words words) = len words.
Proof.
  unfold load_words.
  assert (∀ st, index_size (foldl add_word st words).1 =
                index_size st.1 + len words) as H.
  { induction words as [|w words IH]; intros st.
    - unfold len. simpl. lia.
    - simpl foldl. rewrite IH, index_size_add_word. unfold len. simpl. lia. }
  rewrite H. simpl. unfold index_size. by rewrite map_to_list_empty.
Qed.

(** X5.  The upper bound of the word-id variables [IA] and [ID] is the
    number of lines of the word file plus twice the number of cells. *)
Theorem id_bound_load_words (words : list string) (rows columns : Z) :
  id_bound (load_words words) rows columns = len words + rows * columns * 2.
Proof.
  unfold id_bound. change (foldr Z.add 0 _) with (index_size (load_words words)).
  by rewrite index_size_load_words.
Qed.

(** ** The outcomes of [table] *)

Lemma bind_raise {A B} (c : M A) (f : A → M B) m e :
  c m = Raise e → (c ≫= f) m = Raise e.
Proof. unfold mbind, M_bind. by intros ->. Qed.

Lemma lift_raise {A} (r : result A) e m : r = Raise e → lift r m = Raise e.
Proof. by intros ->. Qed.

Lemma foldl_max_elem a xs : foldl Z.max a xs ∈ a :: xs.
Proof.
  revert a. induction xs as [|x xs IH]; intros a; simpl; [left|].
  specialize (IH (Z.max a x)). apply elem_of_cons in IH as [->|IH].
  - destruct (Z.max_spec a x) as [[_ ->]|[_ ->]]; [right; left | left].
  - by do 2 right.
Qed.

Lemma py_max_spec xs mx :
  py_max xs = Ok mx → mx ∈ xs ∧ ∀ v, v ∈ xs → v ≤ mx.
Proof.
  destruct xs as [|x xs]; [done|]. intros [= <-]. split.
  - apply foldl_max_elem.
  - destruct (foldl_max_ge x xs) as [H1 H2].
    intros v [->|Hv]%elem_of_cons; [done | by apply H2].
Qed.

Lemma traverse_Ok {A B} (f : A → result B) xs ys :
  traverse f xs = Ok ys → Forall2 (λ x y, f x = Ok y) xs ys.
Proof.
  revert ys. induction xs as [|x xs IH]; intros ys; simpl.
  - intros [= <-]. constructor.
  - intros (y & Hy & (ys' & Hys & [= <-])%result_bind_Ok)%result_bind_Ok.
    constructor; [done | by apply IH].
Qed.

Lemma traverse_py_max_empty tuples :
  [] ∈ tuples → traverse py_max tuples = Raise ValueError.
Proof.
  induction tuples as [|t tuples IH]; [by intros ?%elem_of_nil|].
  intros [<-|Hin]%elem_of_cons; [done|]. simpl.
  destruct (py_max t) as [mt|e] eqn:E; simpl.
  - by rewrite IH.
  - destruct t; [by injection E as <- | done].
Qed.

Lemma max_value_raises tuples :
  tuples = [] ∨ [] ∈ tuples →
  (ms ← traverse py_max tuples; py_max ms) = Raise ValueError.
Proof.
  intros [->|Hin]; [done|]. by rewrite traverse_py_max_empty.
Qed.

Lemma max_value_spec tuples :
  tuples ≠ [] → Forall (λ t, t ≠ []) tuples →
  ∃ mv, (ms ← traverse py_max tuples; py_max ms) = Ok mv ∧ is_max mv tuples.
Proof.
  intros Hne Hall. destruct (max_value_Ok tuples Hne Hall) as (mv & Hmv & Hle).
  exists mv. split; [done|]. split; [|done].
  apply result_bind_Ok in Hmv as (ms & Hms%traverse_Ok & [Hin _]%py_max_spec).
  apply list_elem_of_lookup in Hin as (k & Hk).
  destruct (Forall2_lookup_r _ _ _ _ _ Hms Hk) as (t & Ht & [Hmt _]%py_max_spec).
  exists t. split; [by eapply list_elem_of_lookup_2 | done].
Qed.

Lemma is_max_unique mv mv' tuples : is_max mv tuples → is_max mv' tuples → mv = mv'.
Proof.
  intros [(t & Ht & Hv) Hle] [(t' & Ht' & Hv') Hle'].
  specialize (Hle _ _ Ht' Hv'). specialize (Hle' _ _ Ht Hv). lia.
Qed.

(** What [table] does before it reads the tuples: the variables [b]. *)
Lemma table_b_run (tuples : list (list Z)) m :
  comp (range (len tuples)) (λ i, NewBoolVar ("b" +:+ idx i)) m =
  Ok (seq (length (variables m)) (length tuples),
      declare m ((λ i, {| lb := 0; ub := 1; name := "b" +:+ idx i |})
                   <$> range (len tuples))).
Proof.
  unfold NewBoolVar. rewrite alloc_row, range_length.
  by replace (Z.to_nat (len tuples)) with (length tuples) by (unfold len; lia).
Qed.

Lemma table_value_error vars tuples option m :
  tuples = [] ∨ [] ∈ tuples → table vars tuples option m = Raise ValueError.
Proof.
  intros H. unfold table. apply bind_raise. unfold table_vars.
  rewrite (bind_run _ _ _ _ _ (table_b_run tuples m)).
  by apply bind_raise, lift_raise, max_value_raises.
Qed.

(** The keys of [possible_values] never change, and every index of every
    tuple has to be one of them. *)
Lemma pv_add_keys pv ij pv' :
  pv_add pv ij = Ok pv' →
  is_Some (pv !! ij.1) ∧ ∀ i, is_Some (pv' !! i) ↔ is_Some (pv !! i).
Proof.
  unfold pv_add, getkey. destruct (pv !! ij.1) as [s|] eqn:E; [|done].
  simpl. intros [= <-]. split; [done|]. intros i.
  destruct (decide (ij.1 = i)) as [<-|Hne].
  - rewrite lookup_insert_eq, E. by split.
  - by rewrite lookup_insert_ne.
Qed.

Lemma foldM_pv_add_keys ps : ∀ pv pv',
  foldM pv_add pv ps = Ok pv' →
  (∀ p, p ∈ ps → is_Some (pv !! p.1)) ∧
  ∀ i, is_Some (pv' !! i) ↔ is_Some (pv !! i).
Proof.
  induction ps as [|p ps IH]; intros pv pv'; simpl.
  - intros [= <-]. split; [by intros ? ?%elem_of_nil | done].
  - intros (pv1 & [Hp Hk1]%pv_add_keys & [Hps Hk2]%IH)%result_bind_Ok. split.
    + intros q [->|Hq]%elem_of_cons; [done|]. by apply Hk1, Hps.
    + intros i. by rewrite Hk2, Hk1.
Qed.

Lemma collect_values_keys tuples : ∀ pv pv',
  collect_values pv tuples = Ok pv' →
  (∀ t p, t ∈ tuples → p ∈ enumerate t → is_Some (pv !! p.1)) ∧
  ∀ i, is_Some (pv' !! i) ↔ is_Some (pv !! i).
Proof.
  unfold collect_values.
  induction tuples as [|t tuples IH]; intros pv pv'; simpl.
  - intros [= <-]. split; [by intros ? ? ?%elem_of_nil | done].
  - intros (pv1 & [Ht Hk1]%foldM_pv_add_keys & [Hts Hk2]%IH)%result_bind_Ok. split.
    + intros t' p [->|Hin]%elem_of_cons Hp; [by apply Ht|].
      by eapply Hk1, Hts.
    + intros i. by rewrite Hk2, Hk1.
Qed.

Lemma collect_values_long k tuples t :
  t ∈ tuples → k < len t → 0 ≤ k →
  collect_values (list_to_map ((λ i, (i, ∅)) <$> range k)) tuples = Raise KeyError.
Proof.
  intros Ht Hlen Hk.
  destruct (collect_values _ tuples) as [pv'|e] eqn:E.
  - exfalso. apply collect_values_keys in E as [Hkeys _].
    assert (∃ x, t !! Z.to_nat k = Some x) as [x Hx].
    { apply lookup_lt_is_Some_2. unfold len in Hlen. lia. }
    specialize (Hkeys t (k, x) Ht). simpl in Hkeys.
    destruct (pv_init k k) as [_ Hnone]. rewrite Hnone in Hkeys by lia.
    destruct Hkeys as [? ?]; [|done]. by apply elem_of_enumerate.
  - by apply collect_values_Raise in E as ->.
Qed.

Lemma table_key_error vars tuples option m t :
  Forall (λ t, t ≠ []) tuples → t ∈ tuples → (length vars < length t)%nat →
  table vars tuples option m = Raise KeyError.
Proof.
  intros Hall Ht Hlen. unfold table. apply bind_raise. unfold table_vars.
  rewrite (bind_run _ _ _ _ _ (table_b_run tuples m)).
  destruct (max_value_Ok tuples) as (mv & Hmv & _);
    [intros ->; by apply elem_of_nil in Ht | done |].
  rewrite (bind_run _ _ _ _ _ (lift_run _ _ _ Hmv)).
  apply bind_raise, lift_raise. apply (collect_values_long _ _ t); [done| |].
  - unfold len. lia.
  - unfold len. lia.
Qed.

(** *** Subscripts with a negative index *)

Lemma getitem_wrap `{Inhabited A} (xs : list A) i :
  - len xs ≤ i < len xs →
  getitem xs i = Ok (xs !!! Z.to_nat (position (len xs) i)).
Proof.
  intros Hi. unfold getitem, position. cbv zeta.
  destruct (decide (i < 0)).
  - rewrite !(bool_decide_true (i < 0)), bool_decide_true by lia.
    rewrite (list_lookup_lookup_total_lt xs); [done|]. unfold len in *. lia.
  - rewrite !(bool_decide_false (i < 0)), bool_decide_true by lia.
    rewrite (list_lookup_lookup_total_lt xs); [done|]. unfold len in *. lia.
Qed.

Lemma getitem_below {A} (xs : list A) i :
  i < - len xs → getitem xs i = Raise IndexError.
Proof.
  intros Hi. unfold getitem. cbv zeta. assert (0 ≤ len xs) by (unfold len; lia).
  rewrite (bool_decide_true (i < 0)) by lia. by rewrite bool_decide_false by lia.
Qed.

Lemma position_nonneg n i : 0 ≤ i → position n i = i.
Proof. intros. unfold position. by rewrite bool_decide_false by lia. Qed.

(** *** Statements that may fail *)

Lemma fails_bind {A B} e (c : M A) (f : A → M B) :
  fails_with e c → fails_with e (c ≫= f).
Proof. intros Hc m. by apply bind_raise. Qed.

Lemma returns_or_ret {A} e (a : A) : returns_or e (mret a).
Proof. intros m. left. by exists a, m. Qed.

Lemma returns_or_Add e ct : returns_or e (Add ct).
Proof. intros m. left. by eexists _, _. Qed.

Lemma returns_or_lift {A} e (r : result A) :
  (∀ e', r = Raise e' → e' = e) → returns_or e (lift r).
Proof.
  intros Hr m. destruct r as [a|e']; [left; by exists a, m|].
  right. by rewrite (Hr e').
Qed.

Lemma returns_or_bind {A B} e (c : M A) (f : A → M B) :
  returns_or e c → (∀ a, returns_or e (f a)) → returns_or e (c ≫= f).
Proof.
  intros Hc Hf m. destruct (Hc m) as [(a & m' & Hm)|Hm].
  - rewrite (bind_run _ _ _ _ _ Hm). apply Hf.
  - right. by apply bind_raise.
Qed.

Lemma returns_or_comp {A B} e (xs : list A) (f : A → M B) :
  (∀ x, returns_or e (f x)) → returns_or e (comp xs f).
Proof.
  intros Hf. induction xs as [|x xs IH]; simpl; [apply returns_or_ret|].
  apply returns_or_bind; [done|]. intros y.
  apply returns_or_bind; [done|]. intros ys. apply returns_or_ret.
Qed.

Lemma fails_bind_after {A B} e (c : M A) (f : A → M B) :
  returns_or e c → (∀ a, fails_with e (f a)) → fails_with e (c ≫= f).
Proof.
  intros Hc Hf m. destruct (Hc m) as [(a & m' & Hm)|Hm].
  - rewrite (bind_run _ _ _ _ _ Hm). apply Hf.
  - by apply bind_raise.
Qed.

Lemma comp_fails {A B} e (xs : list A) (f : A → M B) x :
  x ∈ xs → (∀ y, returns_or e (f y)) → fails_with e (f x) →
  fails_with e (comp xs f).
Proof.
  intros Hx Hf Hfx. induction xs as [|y xs IH]; [by apply elem_of_nil in Hx|].
  simpl. apply elem_of_cons in Hx as [<-|Hx].
  - by apply fails_bind.
  - apply fails_bind_after; [done|]. intros ?. apply fails_bind. by apply IH.
Qed.

Lemma for_fails {A} e (xs : list A) (body : A → M ()) x :
  x ∈ xs → (∀ y, returns_or e (body y)) → fails_with e (body x) →
  fails_with e (for_ xs body).
Proof.
  intros Hx Hf Hfx. induction xs as [|y xs IH]; [by apply elem_of_nil in Hx|].
  simpl. apply elem_of_cons in Hx as [<-|Hx].
  - by apply fails_bind.
  - apply fails_bind_after; [done|]. intros ?. by apply IH.
Qed.

Lemma returns_or_getitem {A} (xs : list A) i :
  returns_or IndexError (lift (getitem xs i)).
Proof. apply returns_or_lift. intros e. apply getitem_Raise. Qed.

(** *** The variables and the constraints of a call *)

Lemma matrix_concat_length {A} (n k : Z) (X : list (list A)) :
  matrix n k X → length (concat X) = (Z.to_nat n * Z.to_nat k)%nat.
Proof.
  intros [Hn Hk]. rewrite <- Hn. clear Hn.
  induction Hk as [|row X Hrow _ IH]; [done|].
  simpl. rewrite length_app, IH, Hrow. lia.
Qed.

Lemma table_vars_run vars tuples m :
  tuples ≠ [] →
  Forall (λ t, t ≠ [] ∧ (length t ≤ length vars)%nat) tuples →
  ∃ ia pv mv ds,
    let b := seq (length (variables m)) (length tuples) in
    table_vars vars tuples m = Ok ((b, ia, pv, mv), declare m ds) ∧
    is_max mv tuples ∧
    pv_inv (len vars) pv (λ i j, ∃ t, t ∈ tuples ∧ t !! Z.to_nat i = Some j) ∧
    matrix (len vars) (mv + 1) ia ∧
    b ++ concat ia = seq (length (variables m)) (length ds) ∧
    length ds = (length tuples + length vars * Z.to_nat (mv + 1))%nat ∧
    Forall (λ d, lb d = 0 ∧ ub d = 1) ds.
Proof.
  intros Hne Hall.
  destruct (max_value_spec tuples Hne) as (mv & Hmv & Hmax).
  { eapply Forall_impl; [done|]. by intros t [? _]. }
  destruct (possible_values_Ok (len vars) tuples) as (pv & Hpvrun & Hpv).
  { eapply Forall_impl; [done|]. intros t [_ Hlen]. unfold len. lia. }
  set (n := length (variables m)).
  set (dsb := (λ i, {| lb := 0; ub := 1; name := "b" +:+ idx i |})
                <$> range (len tuples)).
  destruct (alloc_matrix 0 1 (λ i j, "is_assigned" +:+ idx i +:+ idx j)
              (range (len vars)) (range (mv + 1)) (declare m dsb))
    as (ia & dsa & Hrun & HlenX & Hrows & Hcat & Hds).
  assert (length dsb = length tuples) as Hdsb.
  { unfold dsb. rewrite length_fmap, range_length. unfold len. lia. }
  assert (matrix (len vars) (mv + 1) ia) as Hia.
  { split; [by rewrite HlenX, range_length|].
    eapply Forall_impl; [done|]. intros row ->. by rewrite range_length. }
  assert (seq n (length tuples) ++ concat ia = seq n (length (dsb ++ dsa))) as Hfresh.
  { rewrite Hcat. simpl. rewrite !length_app, Hdsb. fold n. by rewrite seq_app. }
  exists ia, pv, mv, (dsb ++ dsa). simpl. split_and!; try done.
  - unfold table_vars. rewrite (bind_run _ _ _ _ _ (table_b_run tuples m)).
    rewrite (bind_run _ _ _ _ _ (lift_run _ _ _ Hmv)).
    rewrite (bind_run _ _ _ _ _ (lift_run _ _ _ Hpvrun)).
    unfold NewBoolVar. fold dsb. rewrite (bind_run _ _ _ _ _ Hrun).
    by rewrite declare_declare.
  - apply (f_equal length) in Hfresh.
    rewrite length_app, !length_seq in Hfresh. rewrite <- Hfresh. f_equal.
    etrans; [exact (matrix_concat_length _ _ _ Hia)|].
    unfold len. by rewrite Nat2Z.id.
  - apply Forall_app. split; [|done]. by apply Forall_fmap, Forall_forall.
Qed.

Section TableLoops.
Context (vars : list var) (tuples : list (list Z)) (option : var).
Context (b : list var) (ia : list (list var)).
Context (pv : gmap Z (gset Z)) (mv : Z) (P : Z → Z → Prop).
Hypothesis Hb : length b = length tuples.
Hypothesis Hia : matrix (len vars) (mv + 1) ia.
Hypothesis Hpv : pv_inv (len vars) pv P.
Hypothesis Hlen : Forall (λ t, (length t ≤ length vars)%nat) tuples.

(** The reads of one tuple: [[is_assigned[j][t[j]] for j in range(len(t))]]. *)
Local Abbreviation reads t :=
  (comp (range (len t)) (λ j,
     row ← lift (getitem ia j);
     tj ← lift (getitem t j);
     a ← lift (getitem row tj);
     mret (Pos a))).

Lemma table_reads_run t m :
  t ∈ tuples → Forall (λ v, - (mv + 1) ≤ v ≤ mv) t →
  reads t m =
  Ok ((λ j, Pos (cell ia j (position (mv + 1) (t !!! Z.to_nat j))))
        <$> range (len t), m).
Proof.
  intros Hin Hval. rewrite Forall_forall in Hlen. specialize (Hlen t Hin).
  rewrite Forall_forall in Hval.
  apply comp_pure. intros j m0 Hj%elem_of_range.
  assert (0 ≤ j < len vars) by (unfold len in *; lia).
  assert (- (mv + 1) ≤ t !!! Z.to_nat j ≤ mv) as Htj.
  { apply Hval, list_elem_of_lookup_total_2. unfold len in *. lia. }
  rewrite (bind_run _ _ m0 (ia !!! Z.to_nat j) m0).
  2:{ apply lift_run, getitem_total. destruct Hia as [Hn _]. unfold len in *. lia. }
  rewrite (bind_run _ _ m0 (t !!! Z.to_nat j) m0)
    by by apply lift_run, getitem_total.
  assert (len (ia !!! Z.to_nat j) = mv + 1) as Hrow.
  { unfold len. rewrite (matrix_row (len vars) (mv + 1)) by done. lia. }
  rewrite (bind_run _ _ m0 (cell ia j (position (mv + 1) (t !!! Z.to_nat j))) m0);
    [done|].
  apply lift_run. rewrite getitem_wrap by lia. by rewrite Hrow.
Qed.

Lemma table_reads_returns_or t : returns_or IndexError (reads t).
Proof.
  apply returns_or_comp. intros j.
  repeat (apply returns_or_bind; [apply returns_or_getitem|]; intros ?).
  apply returns_or_ret.
Qed.

Lemma table_reads_fail t v :
  t ∈ tuples → v ∈ t → v < - Z.max 0 (mv + 1) →
  fails_with IndexError (reads t).
Proof.
  intros Hin Hv Hlt. rewrite Forall_forall in Hlen. specialize (Hlen t Hin).
  apply list_elem_of_lookup in Hv as (j & Hj).
  pose proof (lookup_lt_Some _ _ _ Hj) as Hjlt.
  apply (comp_fails _ _ _ (Z.of_nat j)).
  - apply elem_of_range. unfold len. lia.
  - intros j'.
    repeat (apply returns_or_bind; [apply returns_or_getitem|]; intros ?).
    apply returns_or_ret.
  - intros m. rewrite (bind_run _ _ m (ia !!! j) m).
    2:{ apply lift_run. rewrite <- (Nat2Z.id j) at 2. apply getitem_total.
        destruct Hia as [Hn _]. unfold len in *. lia. }
    rewrite (bind_run _ _ m v m).
    2:{ apply lift_run, getitem_Ok; [lia|]. by rewrite Nat2Z.id. }
    apply bind_raise, lift_raise, getitem_below.
    unfold len. rewrite <- (Nat2Z.id j), (matrix_row (len vars) (mv + 1)) by
      (done || unfold len; lia). lia.
Qed.

(** The three loops before the tuples are read. *)
Local Abbreviation impossible_loop :=
  (for_ (range (len vars)) (λ i,
     for_ (range (mv + 1)) (λ j,
       s ← lift (getkey pv i);
       if bool_decide (j ∉ s) then
         a ← at2 ia i j;
         Add (Linear (EVar a) REq (EConst 0) (Some (Pos option)))
       else mret ()))).
Local Abbreviation one_value_loop :=
  (for_ ia (λ i,
     Add (Linear (ESum (EVar <$> i)) REq (EConst 1) (Some (Pos option))))).
Local Abbreviation link_loop :=
  (for_ (range (len vars)) (λ i,
     for_ (range (mv + 1)) (λ j,
       x ← lift (getitem vars i);
       a ← at2 ia i j;
       Add (Linear (EVar x) REq (EConst j) (Some (Pos a)))))).

Lemma impossible_loop_posts :
  posts impossible_loop
    (concat ((λ i, concat ((λ j,
        if bool_decide (j ∉ default ∅ (pv !! i)) then
          [Linear (EVar (cell ia i j)) REq (EConst 0) (Some (Pos option))]
        else []) <$> range (mv + 1))) <$> range (len vars))).
Proof.
  apply posts_for. intros i Hi%elem_of_range.
  apply posts_for. intros j Hj%elem_of_range.
  destruct (Hpv i) as [H1 _]. destruct (H1 Hi) as (s & Hs & _).
  apply (posts_lift _ s); [unfold getkey; by rewrite Hs|]. rewrite Hs. simpl.
  case_bool_decide; [|apply posts_ret].
  apply (posts_pure _ (cell ia i j)); [by apply (at2_run (len vars) (mv + 1))|].
  apply posts_Add.
Qed.

Lemma one_value_loop_posts :
  posts one_value_loop
    ((λ row, Linear (ESum (EVar <$> row)) REq (EConst 1) (Some (Pos option)))
       <$> ia).
Proof. apply posts_for1. intros row _. apply posts_Add. Qed.

Lemma link_loop_posts :
  posts link_loop
    (concat ((λ i, (λ j,
       Linear (EVar (vars !!! Z.to_nat i)) REq (EConst j)
         (Some (Pos (cell ia i j)))) <$> range (mv + 1))
       <$> range (len vars))).
Proof.
  apply posts_for. intros i Hi%elem_of_range.
  apply posts_for1. intros j Hj%elem_of_range.
  apply (posts_lift _ (vars !!! Z.to_nat i)); [by apply getitem_total|].
  apply (posts_pure _ (cell ia i j)); [by apply (at2_run (len vars) (mv + 1))|].
  apply posts_Add.
Qed.

Lemma posts_then_fails e (c d : M ()) cs :
  posts c cs → fails_with e d → fails_with e (c;; d).
Proof. intros Hc Hd m. rewrite (bind_run _ _ _ _ _ (Hc m)). apply Hd. Qed.

Lemma table_constraints_wrap_posts :
  Forall (Forall (λ v, - (mv + 1) ≤ v ≤ mv)) tuples →
  posts (table_constraints vars tuples option b ia pv mv)
        (table_cts_wrap vars tuples option b ia pv mv).
Proof.
  intros Hval. unfold table_constraints, table_cts_wrap.
  apply posts_seq; [apply impossible_loop_posts|].
  apply posts_seq; [apply one_value_loop_posts|].
  apply posts_seq; [apply link_loop_posts|].
  apply posts_seq; [|apply posts_Add].
  apply posts_for1. intros [i t] [Hi Ht]%elem_of_enumerate.
  assert (t ∈ tuples) as Hin by by eapply list_elem_of_lookup_2.
  apply (posts_pure _ ((λ j, Pos (cell ia j (position (mv + 1) (t !!! Z.to_nat j))))
                         <$> range (len t))).
  { intros m. apply table_reads_run; [done|].
    by apply (proj1 (Forall_forall _ _) Hval). }
  apply (posts_lift _ (b !!! Z.to_nat i)).
  { apply getitem_total. apply lookup_lt_Some in Ht. unfold len. lia. }
  apply posts_Add.
Qed.

Lemma table_constraints_fail t v :
  t ∈ tuples → v ∈ t → v < - Z.max 0 (mv + 1) →
  fails_with IndexError (table_constraints vars tuples option b ia pv mv).
Proof.
  intros Hin Hv Hlt m. unfold table_constraints.
  assert (fails_with IndexError
    (for_ (enumerate tuples) (λ '(i, t),
       ls ← reads t;
       bi ← lift (getitem b i);
       Add (BoolAnd ls (Some (Pos bi)))))) as Hloop.
  { apply list_elem_of_lookup in Hin as (k & Hk).
    apply (for_fails _ _ _ (Z.of_nat k, t)).
    - apply elem_of_enumerate. rewrite Nat2Z.id. split; [lia|done].
    - intros [i t']. apply returns_or_bind; [apply table_reads_returns_or|].
      intros ls. apply returns_or_bind; [apply returns_or_getitem|].
      intros bi. apply returns_or_Add.
    - apply fails_bind. apply (table_reads_fail t v); [|done..].
      by eapply list_elem_of_lookup_2. }
  revert m.
  apply (posts_then_fails _ _ _ _ impossible_loop_posts).
  apply (posts_then_fails _ _ _ _ one_value_loop_posts).
  apply (posts_then_fails _ _ _ _ link_loop_posts).
  by apply fails_bind.
Qed.
End TableLoops.

(** [table] on tuples no longer than the variables, whose entries are valid
    subscripts of a row of [is_assigned]. *)
Lemma table_wrap_run vars tuples option m mv :
  tuples ≠ [] →
  Forall (λ t, t ≠ [] ∧ (length t ≤ length vars)%nat) tuples →
  is_max mv tuples →
  Forall (Forall (λ v, - (mv + 1) ≤ v)) tuples →
  ∃ ia pv ds,
    let b := seq (length (variables m)) (length tuples) in
    table_vars vars tuples m = Ok ((b, ia, pv, mv), declare m ds) ∧
    table vars tuples option m =
      Ok ((), post (declare m ds) (table_cts_wrap vars tuples option b ia pv mv)) ∧
    matrix (len vars) (mv + 1) ia ∧
    b ++ concat ia = seq (length (variables m)) (length ds) ∧
    length ds = (length tuples + length vars * Z.to_nat (mv + 1))%nat ∧
    Forall (λ d, lb d = 0 ∧ ub d = 1) ds.
Proof.
  intros Hne Hall Hmax Hlow.
  destruct (table_vars_run vars tuples m Hne Hall)
    as (ia & pv & mv' & ds & Hrun & Hmax' & Hpv & Hia & Hfresh & Hcount & Hbool).
  assert (mv' = mv) as -> by by eapply is_max_unique.
  exists ia, pv, ds. simpl. split_and!; try done.
  unfold table. simpl in Hrun. rewrite (bind_run _ _ _ _ _ Hrun).
  eapply table_constraints_wrap_posts; [by rewrite length_seq | done | done | |].
  - eapply Forall_impl; [exact Hall|]. by intros t [_ ?].
  - apply Forall_forall. intros t Ht. apply Forall_forall. intros v Hv.
    split; [|by apply (proj2 Hmax t v)].
    by apply (proj1 (Forall_forall _ _) (proj1 (Forall_forall _ _) Hlow t Ht)).
Qed.

Lemma table_index_error vars tuples option m mv t v :
  tuples ≠ [] →
  Forall (λ t, t ≠ [] ∧ (length t ≤ length vars)%nat) tuples →
  is_max mv tuples →
  t ∈ tuples → v ∈ t → v < - (mv + 1) ∨ mv < 0 →
  table vars tuples option m = Raise IndexError.
Proof.
  intros Hne Hall Hmax Ht Hv Hlow.
  destruct (table_vars_run vars tuples m Hne Hall)
    as (ia & pv & mv' & ds & Hrun & Hmax' & Hpv & Hia & Hfresh & Hcount & Hbool).
  assert (mv' = mv) as -> by by eapply is_max_unique.
  unfold table. simpl in Hrun. rewrite (bind_run _ _ _ _ _ Hrun).
  pose proof (proj2 Hmax t v Ht Hv) as Hle.
  eapply (table_constraints_fail _ _ _ _ _ _ _ _ _ Hia Hpv); [|done..|lia].
  eapply Forall_impl; [exact Hall|]. by intros ? [_ ?].
  Unshelve. by rewrite length_seq.
Qed.

(** *** What the constraints of a call say *)

Lemma sumZ_one_exists {K} (f : K → Z) (ps : list K) :
  (∀ p, p ∈ ps → 0 ≤ f p ≤ 1) → sumZ (f <$> ps) = 1 → ∃ p, p ∈ ps ∧ f p = 1.
Proof.
  induction ps as [|p ps IH]; intros Hf Hsum; [done|].
  rewrite fmap_cons, sumZ_cons in Hsum.
  destruct (decide (f p = 1)) as [Hp|Hp].
  - exists p. split; [left | done].
  - destruct IH as (q & Hq & Hq1).
    + intros q Hq. apply Hf. by right.
    + pose proof (Hf p ltac:(left)). lia.
    + exists q. split; [by right | done].
Qed.

Lemma table_wrap_sound vars tuples option n b ia pv mv ds σ :
  b = seq n (length tuples) →
  b ++ concat ia = seq n (length ds) →
  Forall (λ d, lb d = 0 ∧ ub d = 1) ds →
  0 ≤ mv →
  Forall (λ t, length t = length vars ∧ Forall (λ v, - (mv + 1) ≤ v ≤ mv) t)
         tuples →
  (∀ i d, ds !! i = Some d → in_domain σ (n + i)%nat d) →
  Forall (sat σ) (table_cts_wrap vars tuples option b ia pv mv) →
  σ option = 1 →
  ∃ (k : nat) t, tuples !! k = Some t ∧ σ (b !!! k) = 1 ∧
                 σ <$> vars = position (mv + 1) <$> t.
Proof.
  intros Hb Hfresh Hbool Hmv Htuples Hdom Hsat Hopt.
  unfold table_cts_wrap in Hsat.
  rewrite !Forall_app, !Forall_concat_fmap, !Forall_fmap_iff in Hsat.
  rewrite Forall_singleton in Hsat.
  destruct Hsat as (_ & _ & Hlink & Hand & Hone).
  apply sat_sum_eq in Hone; [|done].
  destruct (sumZ_one_exists σ b) as (x & Hx & Hx1); [|done|].
  { intros y Hy.
    assert (y ∈ seq n (length ds)) as Hin by (rewrite <- Hfresh, elem_of_app; by left).
    apply elem_of_seq in Hin.
    destruct (lookup_lt_is_Some_2 ds (y - n)) as [d Hd]; [lia|].
    specialize (Hdom _ _ Hd). replace (n + (y - n))%nat with y in Hdom by lia.
    destruct (proj1 (Forall_forall _ _) Hbool d) as [Hlo Hhi];
      [by eapply list_elem_of_lookup_2|].
    unfold in_domain in Hdom. lia. }
  apply list_elem_of_lookup in Hx as (k & Hk).
  assert (k < length tuples)%nat as Hlt.
  { apply lookup_lt_Some in Hk. by rewrite Hb, length_seq in Hk. }
  destruct (lookup_lt_is_Some_2 tuples k Hlt) as [t Ht].
  assert (t ∈ tuples) as Hin by by eapply list_elem_of_lookup_2.
  exists k, t. split_and!; [done | by rewrite (list_lookup_total_correct _ _ _ Hk) |].
  destruct (proj1 (Forall_forall _ _) Htuples t Hin) as [Hlen Hval].
  specialize (Hand (Z.of_nat k, t)). simpl in Hand. rewrite Nat2Z.id in Hand.
  assert (Forall (lit_holds σ)
            ((λ j, Pos (cell ia j (position (mv + 1) (t !!! Z.to_nat j))))
               <$> range (len t))) as Hall.
  { apply Hand.
    - apply elem_of_enumerate. rewrite Nat2Z.id. split; [lia | done].
    - simpl. by rewrite (list_lookup_total_correct _ _ _ Hk). }
  rewrite Forall_fmap_iff in Hall.
  apply list_eq_same_length with (length vars);
    [by rewrite length_fmap | by rewrite length_fmap |].
  intros i v w Hi Hv Hw. rewrite list_lookup_fmap in Hv.
  rewrite list_lookup_fmap in Hw.
  destruct (vars !! i) as [y|] eqn:Hy; [|done].
  destruct (t !! i) as [ti|] eqn:Hti; [|done]. simpl in Hv, Hw.
  injection Hv as <-. injection Hw as <-.
  specialize (Hall (Z.of_nat i)). rewrite Nat2Z.id in Hall.
  rewrite (list_lookup_total_correct _ _ _ Hti) in Hall.
  assert (- (mv + 1) ≤ ti ≤ mv) as Hrange.
  { apply (proj1 (Forall_forall _ _) Hval). by eapply list_elem_of_lookup_2. }
  assert (0 ≤ position (mv + 1) ti ≤ mv) as Hpos.
  { unfold position. case_bool_decide; lia. }
  assert (Z.of_nat i ∈ range (len vars)) as Hir
    by (apply elem_of_range; unfold len; lia).
  specialize (Hlink (Z.of_nat i) Hir). rewrite Forall_fmap_iff in Hlink.
  specialize (Hlink (position (mv + 1) ti)). simpl in Hlink.
  rewrite Nat2Z.id, (list_lookup_total_correct _ _ _ Hy) in Hlink.
  apply Hlink; [apply elem_of_range; lia|].
  apply Hall. apply elem_of_range. unfold len. lia.
Qed.

(** ** Statements that return *)







Lemma returns_posts (c : M ()) cs : posts c cs → returns c (λ _, True).
Proof. intros Hc m. exists (), (post m cs). by rewrite Hc. Qed.







(** ** [table] on the entries of a word index *)

Lemma word_entries_max l ws mv :
  word_entries l ws → is_max mv ws →
  0 ≤ mv ∧ Forall (Forall (λ v, - (mv + 1) ≤ v)) ws ∧
  Forall (λ t, t ≠ [] ∧ length t = S (Z.to_nat l)) ws.
Proof.
  intros (Hl & Hne & Hall) [(t0 & Ht0 & Hmv) Hle].
  rewrite Forall_forall in Hall.
  assert (0 ≤ mv) as Hmv0.
  { destruct (Hall t0 Ht0) as (cs & i & -> & _ & _ & Hi).
    specialize (Hle (cs ++ [i]) i Ht0). rewrite elem_of_app in Hle.
    assert (i ≤ mv) by (apply Hle; right; by apply list_elem_of_singleton). lia. }
  split_and!; [done| |]; apply Forall_forall; intros t Ht;
    destruct (Hall t Ht) as (cs & i & -> & Hlen & Hcs & Hi).
  - apply Forall_app. split.
    + eapply Forall_impl; [done|]. simpl. intros. lia.
    + apply Forall_singleton. lia.
  - split; [by destruct cs|]. rewrite length_app. simpl. unfold len in Hlen. lia.
Qed.


(** The index [load_words] makes is made of such entries. *)
Lemma word_to_numbers_low word : Forall (λ v, -1 ≤ v) (word_to_numbers word).
Proof.
  unfold word_to_numbers. apply Forall_fmap, Forall_forall. intros a _.
  unfold compose.
  destruct (find_from_spec alphabet (upper_ascii a) 0)
    as [[[H _]|(k & H & _)]|?]; [| |lia]; unfold alphabet in H; rewrite H; lia.
Qed.

Lemma load_words_word_lists words : word_lists (load_words words).
Proof.
  intros l ws Hl. split_and!.
  - rewrite load_words_lookup in Hl.
    destruct (entries l 0 words) as [|t ts] eqn:E; [done|].
    assert (t ∈ entries l 0 words) as Ht by (rewrite E; left).
    apply elem_of_entries in Ht as (k & w & _ & <- & _). lia.
  - by eapply load_words_nonempty.
  - apply Forall_forall. intros t Ht.
    apply (load_words_elem _ _ _ _ Hl) in Ht as (k & w & Hk & Hlen & ->).
    exists (word_to_numbers w), (Z.of_nat k). split_and!; [done| | |lia].
    + unfold len. by rewrite word_to_numbers_length.
    + apply word_to_numbers_low.
Qed.

(** ** The script builds a model *)

Section Totality.
Context (wordlist : gmap Z (list (list Z))) (rows columns : Z).
Hypothesis Hwl : word_lists wordlist.
Hypothesis Hrows : 2 ≤ rows.
Hypothesis Hcolumns : 2 ≤ columns.
Hypothesis Harea : rows * columns < 2 ^ 53.

Local Abbreviation done_ := (λ _ : (), True).















End Totality.

(** ** What a call of [table] means in the finished model *)

Lemma letter_entries_word_entries l ws : letter_entries l ws → word_entries l ws.
Proof.
  intros (Hl & Hne & Hall). split_and!; [done..|].
  eapply Forall_impl; [done|]. intros t (cs & i & -> & Hlen & Hcs & Hi).
  exists cs, i. split_and!; [done..| |done].
  eapply Forall_impl; [done|]. simpl. intros. lia.
Qed.

Lemma ran_table_sound vars l ws option m σ :
  ran (table vars ws option) () m → solution m σ →
  word_entries l ws → length vars = S (Z.to_nat l) → σ option = 1 →
  ∃ mv t, is_max mv ws ∧ 0 ≤ mv ∧ t ∈ ws ∧ σ <$> vars = position (mv + 1) <$> t.
Proof.
  intros (m0 & m1 & Hrun & [Hvs Hcs]) [Hdom Hsat] Hws Hvars Hopt.
  pose proof Hws as (Hl & Hne & Hall).
  destruct (max_value_spec ws Hne) as (mv & _ & Hmax).
  { eapply Forall_impl; [done|]. intros t (cs & i & -> & _). by destruct cs. }
  destruct (word_entries_max l ws mv Hws Hmax) as (Hmv & Hlow & Hlen).
  destruct (table_wrap_run vars ws option m0 mv)
    as (ia & pv & ds & _ & Hrun' & Hia & Hfresh & _ & Hbool); [done| |done|done|].
  { eapply Forall_impl; [exact Hlen|]. intros t [? ->]. split; [done|lia]. }
  rewrite Hrun' in Hrun. injection Hrun as <-. simpl in Hvs, Hcs.
  destruct (table_wrap_sound vars ws option (length (variables m0))
              (seq (length (variables m0)) (length ws)) ia pv mv ds σ)
    as (k & t & Hk & _ & Heq); [done|done|done|done| | | |done|].
  - apply Forall_forall. intros t Ht.
    destruct (proj1 (Forall_forall _ _) Hlen t Ht) as [_ ->]. split; [done|].
    apply Forall_forall. intros v Hv. split.
    + by apply (proj1 (Forall_forall _ _) (proj1 (Forall_forall _ _) Hlow t Ht)).
    + by apply (proj2 Hmax t v).
  - intros i d Hd. apply Hdom.
    eapply prefix_lookup_Some; [|done]. by rewrite lookup_app_r, Nat.add_sub'; [|lia].
  - rewrite Forall_forall in Hsat. apply Forall_forall. intros ct Hct.
    apply Hsat. eapply elem_of_prefix; [|done]. apply elem_of_app. by right.
  - exists mv, t. split_and!; [done..| |done]. by eapply list_elem_of_lookup_2.
Qed.

(** With entries that are not negative, the variables take the values of a
    tuple as they are. *)
Lemma position_fmap_nonneg n t :
  Forall (λ v, 0 ≤ v) t → position n <$> t = t.
Proof.
  induction 1 as [|v t Hv _ IH]; [done|].
  by rewrite fmap_cons, IH, position_nonneg.
Qed.

(** ** Active starts spell words of the index *)

Section Spelling.
Context {wordlist : gmap Z (list (list Z))} {rows columns : Z}.
Context {g : Grid.t} {m : CpModel} {σ : assignment}.
Hypothesis Hb : built wordlist rows columns g m.
Hypothesis Hσ : solution m σ.
Hypothesis Hwl : letter_lists wordlist.
Context (l r c : Z).
Hypothesis Hr : 0 ≤ r < rows.
Hypothesis Hc : 0 ≤ c < columns.

Lemma across_start_possible :
  0 ≤ l ≤ columns → σ (cell3 (Grid.A g) l r c) = 1 →
  ∃ ws, wordlist !! l = Some ws ∧ l ≤ columns - c.
Proof.
  intros Hl HA.
  destruct (wordlist !! l) as [ws|] eqn:Hws;
    [destruct (decide (columns - c < l))|].
  - pose proof (across_off_constraint Hb l r c Hr Hc Hl (or_intror ltac:(done))) as H.
    apply (solution_sat m σ) in H; [|done]. simpl in H. lia.
  - exists ws. split; [done|lia].
  - pose proof (across_off_constraint Hb l r c Hr Hc Hl (or_introl Hws)) as H.
    apply (solution_sat m σ) in H; [|done]. simpl in H. lia.
Qed.

Lemma down_start_possible :
  0 ≤ l ≤ rows → σ (cell3 (Grid.D g) l r c) = 1 →
  ∃ ws, wordlist !! l = Some ws ∧ l ≤ rows - r.
Proof.
  intros Hl HD.
  destruct (wordlist !! l) as [ws|] eqn:Hws;
    [destruct (decide (rows - r < l))|].
  - pose proof (down_off_constraint Hb l r c Hr Hc Hl (or_intror ltac:(done))) as H.
    apply (solution_sat m σ) in H; [|done]. simpl in H. lia.
  - exists ws. split; [done|lia].
  - pose proof (down_off_constraint Hb l r c Hr Hc Hl (or_introl Hws)) as H.
    apply (solution_sat m σ) in H; [|done]. simpl in H. lia.
Qed.

Lemma across_start_spells :
  0 ≤ l ≤ columns → σ (cell3 (Grid.A g) l r c) = 1 →
  ∃ ws codes i,
    wordlist !! l = Some ws ∧ l ≤ columns - c ∧ codes ++ [i] ∈ ws ∧
    len codes = l ∧ Forall (λ v, 1 ≤ v ≤ 26) codes ∧
    (∀ j, 0 ≤ j < l → σ (cell (Grid.L g) r (c + j)) = codes !!! Z.to_nat j) ∧
    σ (cell (Grid.IA g) r c) = i.
Proof.
  intros Hl HA. destruct (across_start_possible Hl HA) as (ws & Hws & Hfit).
  pose proof (built_across_cell Hb l r c Hr Hc Hl) as H.
  destruct (built_L_vars Hb) as [HL _]. destruct (built_IA_vars Hb) as [HIA _].
  pose proof (built_A_cube Hb) as HAc.
  eapply ran_ext in H;
    [|intros m0; apply (across_cell_on _ rows); [done..|by rewrite Hws|done]].
  apply ran_Add_seq in H as [_ H]; [|apply mono_across_table].
  unfold across_table in H.
  apply (ran_pure _ ((λ i, cell (Grid.L g) r (c + i)) <$> range l)) in H.
  2:{ intros m0. apply comp_pure. intros i m1 Hi%elem_of_range.
      apply (at2_cell rows columns); [done | lia | lia]. }
  apply (ran_at2 rows columns) in H; [|done..].
  apply ran_lift in H as (ws' & Hget & H).
  unfold getkey in Hget. rewrite Hws in Hget. injection Hget as <-.
  apply (ran_at3 (columns + 1) rows columns) in H; [|done|lia|done..].
  pose proof (Hwl l ws Hws) as Hle.
  destruct (ran_table_sound _ l ws _ m σ H Hσ) as (mv & t & _ & _ & Ht & Heq);
    [by apply letter_entries_word_entries| |done|].
  { rewrite length_app, length_fmap, range_length. simpl. lia. }
  destruct Hle as (_ & _ & Hall).
  destruct (proj1 (Forall_forall _ _) Hall t Ht) as (codes & i & -> & Hlen & Hcodes & Hi).
  rewrite position_fmap_nonneg in Heq.
  2:{ apply Forall_app. split; [|by apply Forall_singleton].
      eapply Forall_impl; [done|]. simpl. intros. lia. }
  rewrite fmap_app in Heq. apply app_inj_2 in Heq as [Hcs Hid]; [|done].
  exists ws, codes, i. split_and!; [done..| |by injection Hid].
  intros j Hj. rewrite <- Hcs, <- list_fmap_compose. symmetry.
  apply list_lookup_total_correct.
  rewrite list_lookup_fmap, range_lookup by lia. simpl.
  by rewrite Z2Nat.id by lia.
Qed.

Lemma down_start_spells :
  0 ≤ l ≤ rows → σ (cell3 (Grid.D g) l r c) = 1 →
  ∃ ws codes i,
    wordlist !! l = Some ws ∧ l ≤ rows - r ∧ codes ++ [i] ∈ ws ∧
    len codes = l ∧ Forall (λ v, 1 ≤ v ≤ 26) codes ∧
    (∀ j, 0 ≤ j < l → σ (cell (Grid.L g) (r + j) c) = codes !!! Z.to_nat j) ∧
    σ (cell (Grid.ID g) r c) = i.
Proof.
  intros Hl HD. destruct (down_start_possible Hl HD) as (ws & Hws & Hfit).
  pose proof (built_down_cell Hb l r c Hr Hc Hl) as H.
  destruct (built_L_vars Hb) as [HL _]. destruct (built_ID_vars Hb) as [HID _].
  pose proof (built_D_cube Hb) as HDc.
  eapply ran_ext in H;
    [|intros m0; apply (down_cell_on _ _ columns); [done..|by rewrite Hws|done]].
  apply ran_Add_seq in H as [_ H]; [|apply mono_down_table].
  unfold down_table in H.
  apply (ran_pure _ ((λ i, cell (Grid.L g) (r + i) c) <$> range l)) in H.
  2:{ intros m0. apply comp_pure. intros i m1 Hi%elem_of_range.
      apply (at2_cell rows columns); [done | lia | lia]. }
  apply (ran_at2 rows columns) in H; [|done..].
  apply ran_lift in H as (ws' & Hget & H).
  unfold getkey in Hget. rewrite Hws in Hget. injection Hget as <-.
  apply (ran_at3 (rows + 1) rows columns) in H; [|done|lia|done..].
  pose proof (Hwl l ws Hws) as Hle.
  destruct (ran_table_sound _ l ws _ m σ H Hσ) as (mv & t & _ & _ & Ht & Heq);
    [by apply letter_entries_word_entries| |done|].
  { rewrite length_app, length_fmap, range_length. simpl. lia. }
  destruct Hle as (_ & _ & Hall).
  destruct (proj1 (Forall_forall _ _) Hall t Ht) as (codes & i & -> & Hlen & Hcodes & Hi).
  rewrite position_fmap_nonneg in Heq.
  2:{ apply Forall_app. split; [|by apply Forall_singleton].
      eapply Forall_impl; [done|]. simpl. intros. lia. }
  rewrite fmap_app in Heq. apply app_inj_2 in Heq as [Hcs Hid]; [|done].
  exists ws, codes, i. split_and!; [done..| |by injection Hid].
  intros j Hj. rewrite <- Hcs, <- list_fmap_compose. symmetry.
  apply list_lookup_total_correct.
  rewrite list_lookup_fmap, range_lookup by lia. simpl.
  by rewrite Z2Nat.id by lia.
Qed.
End Spelling.

(** ** Lone letters *)

Lemma elem_of_neighbours n i j :
  j ∈ neighbours n i ↔ (j = i - 1 ∨ j = i + 1) ∧ 0 ≤ j < n.
Proof.
  unfold neighbours. rewrite list_elem_of_filter, !elem_of_cons, elem_of_nil.
  naive_solver.
Qed.

Section LoneLetters.
Context {wordlist : gmap Z (list (list Z))} {rows columns : Z}.
Context {g : Grid.t} {m : CpModel} {σ : assignment}.
Hypothesis Hb : built wordlist rows columns g m.
Hypothesis Hσ : solution m σ.
Context (r c : Z).
Hypothesis Hr : 0 ≤ r < rows.
Hypothesis Hc : 0 ≤ c < columns.

Lemma grid_dims : 2 ≤ rows ∧ 2 ≤ columns.
Proof. destruct (built_dims _ _ _ _ _ Hb); lia. Qed.

Lemma lone_across_constraints :
  Linear (EVar (cell (Grid.LLA g) r 0)) REq (EVar (cell (Grid.B g) r 1)) None
    ∈ constraints m ∧
  Linear (EVar (cell (Grid.LLA g) r (columns - 1))) REq
    (EVar (cell (Grid.B g) r (columns - 2))) None ∈ constraints m ∧
  (1 ≤ c < columns - 1 →
   Linear (EAdd (EVar (cell (Grid.B g) r (c - 1))) (EVar (cell (Grid.B g) r (c + 1))))
     REq (EConst 2) (Some (Pos (cell (Grid.LLA g) r c))) ∈ constraints m ∧
   Linear (EAdd (EVar (cell (Grid.B g) r (c - 1))) (EVar (cell (Grid.B g) r (c + 1))))
     RLe (EConst 1) (Some (Neg (cell (Grid.LLA g) r c))) ∈ constraints m).
Proof.
  pose proof grid_dims as [_ Hcols].
  pose proof (built_lone_across _ _ _ _ _ Hb) as H.
  destruct (built_LLA_vars Hb) as [HLLA _]. destruct (built_B_vars Hb) as [HB _].
  apply (ran_for _ _ r) in H; [|intros; solve_mono|by apply elem_of_range].
  do 2 (apply (ran_at2 rows columns) in H; [|done|done|lia]).
  apply ran_Add_seq in H as [H1 H]; [|solve_mono].
  do 2 (apply (ran_at2 rows columns) in H; [|done|done|lia]).
  apply ran_Add_seq in H as [H2 H]; [|solve_mono].
  split_and!; [done..|]. intros Hin.
  apply (ran_for _ _ c) in H; [|intros; solve_mono|by apply elem_of_range2].
  do 3 (apply (ran_at2 rows columns) in H; [|done|done|lia]).
  apply ran_Add_seq in H as [H3 H]; [|solve_mono].
  do 3 (apply (ran_at2 rows columns) in H; [|done|done|lia]).
  apply ran_Add in H. done.
Qed.

Lemma lone_down_constraints :
  Linear (EVar (cell (Grid.LLD g) 0 c)) REq (EVar (cell (Grid.B g) 1 c)) None
    ∈ constraints m ∧
  Linear (EVar (cell (Grid.LLD g) (rows - 1) c)) REq
    (EVar (cell (Grid.B g) (rows - 2) c)) None ∈ constraints m ∧
  (1 ≤ r < rows - 1 →
   Linear (EAdd (EVar (cell (Grid.B g) (r - 1) c)) (EVar (cell (Grid.B g) (r + 1) c)))
     REq (EConst 2) (Some (Pos (cell (Grid.LLD g) r c))) ∈ constraints m ∧
   Linear (EAdd (EVar (cell (Grid.B g) (r - 1) c)) (EVar (cell (Grid.B g) (r + 1) c)))
     RLe (EConst 1) (Some (Neg (cell (Grid.LLD g) r c))) ∈ constraints m).
Proof.
  pose proof grid_dims as [Hrows _].
  pose proof (built_lone_down _ _ _ _ _ Hb) as H.
  destruct (built_LLD_vars Hb) as [HLLD _]. destruct (built_B_vars Hb) as [HB _].
  apply (ran_for _ _ c) in H; [|intros; solve_mono|by apply elem_of_range].
  do 2 (apply (ran_at2 rows columns) in H; [|done|lia|done]).
  apply ran_Add_seq in H as [H1 H]; [|solve_mono].
  do 2 (apply (ran_at2 rows columns) in H; [|done|lia|done]).
  apply ran_Add_seq in H as [H2 H]; [|solve_mono].
  split_and!; [done..|]. intros Hin.
  apply (ran_for _ _ r) in H; [|intros; solve_mono|by apply elem_of_range2].
  do 3 (apply (ran_at2 rows columns) in H; [|done|lia|done]).
  apply ran_Add_seq in H as [H3 H]; [|solve_mono].
  do 3 (apply (ran_at2 rows columns) in H; [|done|lia|done]).
  apply ran_Add in H. done.
Qed.

Lemma bool_cell X r' c' :
  vars_in m 0 1 rows columns X → 0 ≤ r' < rows → 0 ≤ c' < columns →
  0 ≤ σ (cell X r' c') ≤ 1.
Proof. intros HX ??. eapply declared_bounds; [done|]. by eapply vars_in_cell. Qed.

(** [LLA[r][c]] is true exactly when the cells to the left and to the right,
    those that exist, are black. *)
Lemma lone_across_iff :
  σ (cell (Grid.LLA g) r c) = 1 ↔
  ∀ c', c' ∈ neighbours columns c → σ (cell (Grid.B g) r c') = 1.
Proof.
  pose proof grid_dims as [_ Hcols].
  destruct lone_across_constraints as (H1 & H2 & H3).
  apply (solution_sat m σ) in H1; [|done]. apply (solution_sat m σ) in H2; [|done].
  simpl in H1, H2.
  pose proof (bool_cell _ r c (built_LLA_vars Hb) Hr Hc) as HLLA.
  setoid_rewrite elem_of_neighbours.
  destruct (decide (c = 0)) as [->|Hc0]; [|destruct (decide (c = columns - 1)) as [->|Hc1]].
  - rewrite H1. split.
    + intros HB c' [[->| ->] ?]; [lia|done].
    + intros HB. apply HB. lia.
  - rewrite H2. split.
    + intros HB c' [[->| ->] ?]; [|lia]. by replace (columns - 1 - 1) with (columns - 2) by lia.
    + intros HB. apply HB. lia.
  - destruct H3 as [H3 H4]; [lia|].
    apply (solution_sat m σ) in H3; [|done]. apply (solution_sat m σ) in H4; [|done].
    simpl in H3, H4.
    pose proof (bool_cell _ r (c - 1) (built_B_vars Hb) Hr ltac:(lia)) as HB1.
    pose proof (bool_cell _ r (c + 1) (built_B_vars Hb) Hr ltac:(lia)) as HB2.
    split.
    + intros H c' [[->| ->] ?]; specialize (H3 H); lia.
    + intros HB. destruct (decide (σ (cell (Grid.LLA g) r c) = 0)) as [H0|]; [|lia].
      specialize (H4 H0).
      pose proof (HB (c - 1) ltac:(lia)). pose proof (HB (c + 1) ltac:(lia)). lia.
Qed.

Lemma lone_down_iff :
  σ (cell (Grid.LLD g) r c) = 1 ↔
  ∀ r', r' ∈ neighbours rows r → σ (cell (Grid.B g) r' c) = 1.
Proof.
  pose proof grid_dims as [Hrows _].
  destruct lone_down_constraints as (H1 & H2 & H3).
  apply (solution_sat m σ) in H1; [|done]. apply (solution_sat m σ) in H2; [|done].
  simpl in H1, H2.
  pose proof (bool_cell _ r c (built_LLD_vars Hb) Hr Hc) as HLLD.
  setoid_rewrite elem_of_neighbours.
  destruct (decide (r = 0)) as [->|Hr0]; [|destruct (decide (r = rows - 1)) as [->|Hr1]].
  - rewrite H1. split.
    + intros HB r' [[->| ->] ?]; [lia|done].
    + intros HB. apply HB. lia.
  - rewrite H2. split.
    + intros HB r' [[->| ->] ?]; [|lia]. by replace (rows - 1 - 1) with (rows - 2) by lia.
    + intros HB. apply HB. lia.
  - destruct H3 as [H3 H4]; [lia|].
    apply (solution_sat m σ) in H3; [|done]. apply (solution_sat m σ) in H4; [|done].
    simpl in H3, H4.
    pose proof (bool_cell _ (r - 1) c (built_B_vars Hb) ltac:(lia) Hc) as HB1.
    pose proof (bool_cell _ (r + 1) c (built_B_vars Hb) ltac:(lia) Hc) as HB2.
    split.
    + intros H r' [[->| ->] ?]; specialize (H3 H); lia.
    + intros HB. destruct (decide (σ (cell (Grid.LLD g) r c) = 0)) as [H0|]; [|lia].
      specialize (H4 H0).
      pose proof (HB (r - 1) ltac:(lia)). pose proof (HB (r + 1) ltac:(lia)). lia.
Qed.

(** [LLAB[r][c]] ([LLDB[r][c]]) is true exactly when the cell is an across
    (a down) lone letter or black. *)
Lemma lone_or_black_iff :
  (σ (cell (Grid.LLAB g) r c) = 1 ↔
   σ (cell (Grid.LLA g) r c) = 1 ∨ σ (cell (Grid.B g) r c) = 1) ∧
  (σ (cell (Grid.LLDB g) r c) = 1 ↔
   σ (cell (Grid.LLD g) r c) = 1 ∨ σ (cell (Grid.B g) r c) = 1).
Proof.
  pose proof (bool_cell _ r c (built_B_vars Hb) Hr Hc) as HB.
  pose proof (bool_cell _ r c (built_LLA_vars Hb) Hr Hc) as HLLA.
  pose proof (bool_cell _ r c (built_LLD_vars Hb) Hr Hc) as HLLD.
  pose proof (bool_cell _ r c (built_LLAB_vars Hb) Hr Hc) as HLLAB.
  pose proof (bool_cell _ r c (built_LLDB_vars Hb) Hr Hc) as HLLDB.
  destruct (lone_or_black_constraints Hb r c Hr Hc (Grid.LLA g) (Grid.LLAB g))
    as [H1 H2]; [apply (built_LLA_vars Hb) | apply (built_LLAB_vars Hb) | apply Hb |].
  destruct (lone_or_black_constraints Hb r c Hr Hc (Grid.LLD g) (Grid.LLDB g))
    as [H3 H4]; [apply (built_LLD_vars Hb) | apply (built_LLDB_vars Hb) | apply Hb |].
  apply (solution_sat m σ) in H1; [|done]. apply (solution_sat m σ) in H2; [|done].
  apply (solution_sat m σ) in H3; [|done]. apply (solution_sat m σ) in H4; [|done].
  simpl in H1, H2, H3, H4. split; split.
  - intros H. specialize (H1 H). lia.
  - intros H. destruct (decide (σ (cell (Grid.LLAB g) r c) = 0)) as [H0|]; [|lia].
    specialize (H2 H0). lia.
  - intros H. specialize (H3 H). lia.
  - intros H. destruct (decide (σ (cell (Grid.LLDB g) r c) = 0)) as [H0|]; [|lia].
    specialize (H4 H0). lia.
Qed.
End LoneLetters.

(** ** Words are delimited *)

Lemma range2_NoDup a b : NoDup (range2 a b).
Proof. apply NoDup_seqZ. Qed.

Lemma across_window_NoDup columns l c : NoDup (across_window columns l c).
Proof. unfold across_window. repeat case_bool_decide; apply range2_NoDup. Qed.

Lemma down_window_NoDup rows l r : NoDup (down_window rows l r).
Proof. unfold down_window. repeat case_bool_decide; apply range2_NoDup. Qed.

(** The window of a placement that does not end on the far edge: the columns
    of the word, the one after it, and the one before it when the window
    reaches it. *)
Lemma elem_of_across_window columns l c c' :
  0 ≤ l → 0 ≤ c → c + l < columns → c ≤ c' ≤ c + l →
  c' ∈ across_window columns l c.
Proof.
  intros. unfold across_window.
  repeat case_bool_decide; apply elem_of_range2; lia.
Qed.

Lemma elem_of_down_window rows l r r' :
  0 ≤ l → 0 ≤ r → r + l < rows → r ≤ r' ≤ r + l →
  r' ∈ down_window rows l r.
Proof.
  intros. unfold down_window.
  repeat case_bool_decide; apply elem_of_range2; lia.
Qed.

Section Delimited.
Context {wordlist : gmap Z (list (list Z))} {rows columns : Z}.
Context {g : Grid.t} {m : CpModel} {σ : assignment}.
Hypothesis Hb : built wordlist rows columns g m.
Hypothesis Hσ : solution m σ.
Hypothesis Hwl : letter_lists wordlist.

(** No other word starts in the window of an active start. *)
Lemma across_window_exclusive l r c l' c' :
  0 ≤ r < rows → 0 ≤ c < columns → 0 ≤ l ≤ columns →
  σ (cell3 (Grid.A g) l r c) = 1 →
  c ∈ across_window columns l c →
  0 ≤ l' ≤ columns → 0 ≤ c' < columns → c' ∈ across_window columns l c →
  σ (cell3 (Grid.A g) l' r c') = 1 → l' = l ∧ c' = c.
Proof.
  intros Hr Hc Hl HA Hcin Hl' Hc' Hc'in HA'.
  destruct (across_start_possible Hb Hσ l r c Hr Hc Hl HA) as (ws & Hws & Hfit).
  pose proof (across_on_constraint Hb l r c Hr Hc Hl ltac:(by rewrite Hws) Hfit) as H.
  apply (solution_sat m σ) in H; [|done]. apply sat_sum_eq in H; [|done].
  unfold across_starts in H. rewrite <- list_fmap_compose in H.
  destruct (sumZ_one_unique (σ ∘ (λ p, cell3 (Grid.A g) p.1 r p.2))
              (pairs (range (columns + 1)) (λ _, across_window columns l c)))
    as (p & Hp & Hp1 & Huniq); [| |done|].
  - apply NoDup_pairs; [apply range_NoDup|]. intros _. apply across_window_NoDup.
  - intros [i j] [Hi%elem_of_range Hj]%elem_of_pairs. simpl.
    assert (0 ≤ j < columns) as Hjr.
    { unfold across_window in Hj.
      repeat case_bool_decide; apply elem_of_range2 in Hj; lia. }
    eapply declared_bounds; [done|].
    eapply cube_declared; [apply (built_A_vars Hb) | lia..].
  - assert ((l', c') = p) as E1.
    { apply Huniq; [|done]. apply elem_of_pairs. split; [|done].
      apply elem_of_range. lia. }
    assert ((l, c) = p) as E2.
    { apply Huniq; [|done]. apply elem_of_pairs. split; [|done].
      apply elem_of_range. lia. }
    rewrite <- E2 in E1. by injection E1.
Qed.

Lemma down_window_exclusive l r c l' r' :
  0 ≤ r < rows → 0 ≤ c < columns → 0 ≤ l ≤ rows →
  σ (cell3 (Grid.D g) l r c) = 1 →
  r ∈ down_window rows l r →
  0 ≤ l' ≤ rows → 0 ≤ r' < rows → r' ∈ down_window rows l r →
  σ (cell3 (Grid.D g) l' r' c) = 1 → l' = l ∧ r' = r.
Proof.
  intros Hr Hc Hl HD Hrin Hl' Hr' Hr'in HD'.
  destruct (down_start_possible Hb Hσ l r c Hr Hc Hl HD) as (ws & Hws & Hfit).
  pose proof (down_on_constraint Hb l r c Hr Hc Hl ltac:(by rewrite Hws) Hfit) as H.
  apply (solution_sat m σ) in H; [|done]. apply sat_sum_eq in H; [|done].
  unfold down_starts in H. rewrite <- list_fmap_compose in H.
  destruct (sumZ_one_unique (σ ∘ (λ p, cell3 (Grid.D g) p.1 p.2 c))
              (pairs (range (rows + 1)) (λ _, down_window rows l r)))
    as (p & Hp & Hp1 & Huniq); [| |done|].
  - apply NoDup_pairs; [apply range_NoDup|]. intros _. apply down_window_NoDup.
  - intros [i j] [Hi%elem_of_range Hj]%elem_of_pairs. simpl.
    assert (0 ≤ j < rows) as Hjr.
    { unfold down_window in Hj.
      repeat case_bool_decide; apply elem_of_range2 in Hj; lia. }
    eapply declared_bounds; [done|].
    eapply cube_declared; [apply (built_D_vars Hb) | lia..].
  - assert ((l', r') = p) as E1.
    { apply Huniq; [|done]. apply elem_of_pairs. split; [|done].
      apply elem_of_range. lia. }
    assert ((l, r) = p) as E2.
    { apply Huniq; [|done]. apply elem_of_pairs. split; [|done].
      apply elem_of_range. lia. }
    rewrite <- E2 in E1. by injection E1.
Qed.

(** The cells of an active across start hold letters. *)
Lemma across_word_letters l r c j :
  0 ≤ r < rows → 0 ≤ c < columns → 0 ≤ l ≤ columns →
  σ (cell3 (Grid.A g) l r c) = 1 → 0 ≤ j < l →
  c + j < columns ∧ 1 ≤ σ (cell (Grid.L g) r (c + j)) ≤ 26.
Proof.
  intros Hr Hc Hl HA Hj.
  destruct (across_start_spells Hb Hσ Hwl l r c Hr Hc Hl HA)
    as (ws & codes & i & _ & Hfit & _ & Hlen & Hcodes & Hspell & _).
  split; [lia|]. rewrite Hspell by done.
  apply (proj1 (Forall_forall _ _) Hcodes), list_elem_of_lookup_total_2.
  unfold len in Hlen. lia.
Qed.

Lemma down_word_letters l r c j :
  0 ≤ r < rows → 0 ≤ c < columns → 0 ≤ l ≤ rows →
  σ (cell3 (Grid.D g) l r c) = 1 → 0 ≤ j < l →
  r + j < rows ∧ 1 ≤ σ (cell (Grid.L g) (r + j) c) ≤ 26.
Proof.
  intros Hr Hc Hl HD Hj.
  destruct (down_start_spells Hb Hσ Hwl l r c Hr Hc Hl HD)
    as (ws & codes & i & _ & Hfit & _ & Hlen & Hcodes & Hspell & _).
  split; [lia|]. rewrite Hspell by done.
  apply (proj1 (Forall_forall _ _) Hcodes), list_elem_of_lookup_total_2.
  unfold len in Hlen. lia.
Qed.

(** A cell next to a letter is not a lone letter. *)
Lemma not_lone_across r c c' :
  0 ≤ r < rows → 0 ≤ c < columns → c' ∈ neighbours columns c →
  σ (cell (Grid.L g) r c') ≠ 0 → σ (cell (Grid.LLA g) r c) = 0.
Proof.
  intros Hr Hc Hc' HL.
  pose proof (bool_cell Hσ _ r c (built_LLA_vars Hb) Hr Hc) as HLLA.
  destruct (decide (σ (cell (Grid.LLA g) r c) = 1)) as [H1|]; [|lia].
  exfalso. apply HL.
  pose proof (proj1 (elem_of_neighbours _ _ _) Hc') as [_ Hin].
  apply (black_iff Hb Hσ r c' Hr Hin).
  by apply (proj1 (lone_across_iff Hb Hσ r c Hr Hc) H1).
Qed.

Lemma not_lone_down r c r' :
  0 ≤ r < rows → 0 ≤ c < columns → r' ∈ neighbours rows r →
  σ (cell (Grid.L g) r' c) ≠ 0 → σ (cell (Grid.LLD g) r c) = 0.
Proof.
  intros Hr Hc Hr' HL.
  pose proof (bool_cell Hσ _ r c (built_LLD_vars Hb) Hr Hc) as HLLD.
  destruct (decide (σ (cell (Grid.LLD g) r c) = 1)) as [H1|]; [|lia].
  exfalso. apply HL.
  pose proof (proj1 (elem_of_neighbours _ _ _) Hr') as [_ Hin].
  apply (black_iff Hb Hσ r' c Hin Hc).
  by apply (proj1 (lone_down_iff Hb Hσ r c Hr Hc) H1).
Qed.

(** An across word of two letters or more ends at the edge of the grid or at
    a black square, on both sides. *)
Lemma across_word_delimited l r c :
  0 ≤ r < rows → 0 ≤ c < columns → 2 ≤ l ≤ columns →
  σ (cell3 (Grid.A g) l r c) = 1 →
  (1 ≤ c → σ (cell (Grid.L g) r (c - 1)) = 0) ∧
  (c + l < columns → σ (cell (Grid.L g) r (c + l)) = 0).
Proof.
  intros Hr Hc Hl HA.
  assert (∀ j, 0 ≤ j < l →
            c + j < columns ∧ 1 ≤ σ (cell (Grid.L g) r (c + j)) ≤ 26) as Hword.
  { intros j Hj. apply (across_word_letters l); (done || lia). }
  assert (∀ l' c0 c1, c ≤ c1 < c + l →
            across_run_covers σ g columns r c1 l' c0 → l' = l ∧ c0 = c) as Hsame.
  { intros l' c0 c1 Hc1 Hcov.
    destruct (Hword (c1 - c) ltac:(lia)) as [Hin HL1].
    replace (c + (c1 - c)) with c1 in * by lia.
    assert (σ (cell (Grid.LLA g) r c1) = 0) as Hnot.
    { destruct (decide (c1 = c)) as [->|].
      - destruct (Hword 1 ltac:(lia)).
        apply (not_lone_across r c (c + 1)); [done|lia| |lia].
        apply elem_of_neighbours. lia.
      - destruct (Hword (c1 - 1 - c) ltac:(lia)) as [_ HL0].
        replace (c + (c1 - 1 - c)) with (c1 - 1) in HL0 by lia.
        apply (not_lone_across r c1 (c1 - 1)); [done|lia| |lia].
        apply elem_of_neighbours. lia. }
    destruct (letter_across_covered Hb Hσ r c1 Hr ltac:(lia) ltac:(lia) Hnot)
      as (a & b & _ & Huniq).
    destruct (Huniq l' c0 Hcov) as [-> ->].
    destruct (Huniq l c) as [-> ->]; [|done].
    unfold across_run_covers. split_and!; (done || lia). }
  split.
  - intros Hc1.
    destruct (decide (σ (cell (Grid.L g) r (c - 1)) = 0)) as [|HL]; [done|]. exfalso.
    destruct (Hword 0 ltac:(lia)) as [_ HL0]. rewrite Z.add_0_r in HL0.
    assert (σ (cell (Grid.LLA g) r (c - 1)) = 0) as Hnot.
    { apply (not_lone_across r (c - 1) c); [done|lia| |lia].
      apply elem_of_neighbours. lia. }
    destruct (letter_across_covered Hb Hσ r (c - 1) Hr ltac:(lia) HL Hnot)
      as (l' & c0 & (Hl' & Hc0 & Hspan & HA') & _).
    destruct (decide (c < c0 + l')).
    + destruct (Hsame l' c0 c ltac:(lia)) as [_ ->]; [|lia].
      unfold across_run_covers. split_and!; (done || lia).
    + destruct (across_start_possible Hb Hσ l' r c0 Hr ltac:(lia) Hl' HA')
        as (_ & _ & Hfit).
      destruct (across_window_exclusive l' r c0 l c); try (done || lia).
      * apply elem_of_across_window; lia.
      * apply elem_of_across_window; lia.
  - intros Hend.
    destruct (decide (σ (cell (Grid.L g) r (c + l)) = 0)) as [|HL]; [done|]. exfalso.
    destruct (Hword (l - 1) ltac:(lia)) as [_ HL0].
    assert (σ (cell (Grid.LLA g) r (c + l)) = 0) as Hnot.
    { apply (not_lone_across r (c + l) (c + (l - 1))); [done|lia| |lia].
      apply elem_of_neighbours. lia. }
    destruct (letter_across_covered Hb Hσ r (c + l) Hr ltac:(lia) HL Hnot)
      as (l' & c0 & (Hl' & Hc0 & Hspan & HA') & _).
    destruct (decide (c0 ≤ c)).
    + destruct (Hsame l' c0 c ltac:(lia)) as [-> ->]; [|lia].
      unfold across_run_covers. split_and!; (done || lia).
    + destruct (across_window_exclusive l r c l' c0); try (done || lia).
      * apply elem_of_across_window; lia.
      * apply elem_of_across_window; lia.
Qed.

Lemma down_word_delimited l r c :
  0 ≤ r < rows → 0 ≤ c < columns → 2 ≤ l ≤ rows →
  σ (cell3 (Grid.D g) l r c) = 1 →
  (1 ≤ r → σ (cell (Grid.L g) (r - 1) c) = 0) ∧
  (r + l < rows → σ (cell (Grid.L g) (r + l) c) = 0).
Proof.
  intros Hr Hc Hl HD.
  assert (∀ j, 0 ≤ j < l →
            r + j < rows ∧ 1 ≤ σ (cell (Grid.L g) (r + j) c) ≤ 26) as Hword.
  { intros j Hj. apply (down_word_letters l); (done || lia). }
  assert (∀ l' r0 r1, r ≤ r1 < r + l →
            down_run_covers σ g rows r1 c l' r0 → l' = l ∧ r0 = r) as Hsame.
  { intros l' r0 r1 Hr1 Hcov.
    destruct (Hword (r1 - r) ltac:(lia)) as [Hin HL1].
    replace (r + (r1 - r)) with r1 in * by lia.
    assert (σ (cell (Grid.LLD g) r1 c) = 0) as Hnot.
    { destruct (decide (r1 = r)) as [->|].
      - destruct (Hword 1 ltac:(lia)).
        apply (not_lone_down r c (r + 1)); [done|lia| |lia].
        apply elem_of_neighbours. lia.
      - destruct (Hword (r1 - 1 - r) ltac:(lia)) as [_ HL0].
        replace (r + (r1 - 1 - r)) with (r1 - 1) in HL0 by lia.
        apply (not_lone_down r1 c (r1 - 1)); [lia|done| |lia].
        apply elem_of_neighbours. lia. }
    destruct (letter_down_covered Hb Hσ r1 c ltac:(lia) Hc ltac:(lia) Hnot)
      as (a & b & _ & Huniq).
    destruct (Huniq l' r0 Hcov) as [-> ->].
    destruct (Huniq l r) as [-> ->]; [|done].
    unfold down_run_covers. split_and!; (done || lia). }
  split.
  - intros Hr1.
    destruct (decide (σ (cell (Grid.L g) (r - 1) c) = 0)) as [|HL]; [done|]. exfalso.
    destruct (Hword 0 ltac:(lia)) as [_ HL0]. rewrite Z.add_0_r in HL0.
    assert (σ (cell (Grid.LLD g) (r - 1) c) = 0) as Hnot.
    { apply (not_lone_down (r - 1) c r); [lia|done| |lia].
      apply elem_of_neighbours. lia. }
    destruct (letter_down_covered Hb Hσ (r - 1) c ltac:(lia) Hc HL Hnot)
      as (l' & r0 & (Hl' & Hr0 & Hspan & HD') & _).
    destruct (decide (r < r0 + l')).
    + destruct (Hsame l' r0 r ltac:(lia)) as [_ ->]; [|lia].
      unfold down_run_covers. split_and!; (done || lia).
    + destruct (down_start_possible Hb Hσ l' r0 c ltac:(lia) Hc Hl' HD')
        as (_ & _ & Hfit).
      destruct (down_window_exclusive l' r0 c l r); try (done || lia).
      * apply elem_of_down_window; lia.
      * apply elem_of_down_window; lia.
  - intros Hend.
    destruct (decide (σ (cell (Grid.L g) (r + l) c) = 0)) as [|HL]; [done|]. exfalso.
    destruct (Hword (l - 1) ltac:(lia)) as [_ HL0].
    assert (σ (cell (Grid.LLD g) (r + l) c) = 0) as Hnot.
    { apply (not_lone_down (r + l) c (r + (l - 1))); [lia|done| |lia].
      apply elem_of_neighbours. lia. }
    destruct (letter_down_covered Hb Hσ (r + l) c ltac:(lia) Hc HL Hnot)
      as (l' & r0 & (Hl' & Hr0 & Hspan & HD') & _).
    destruct (decide (r0 ≤ r)).
    + destruct (Hsame l' r0 r ltac:(lia)) as [-> ->]; [|lia].
      unfold down_run_covers. split_and!; (done || lia).
    + destruct (down_window_exclusive l r c l' r0); try (done || lia).
      * apply elem_of_down_window; lia.
      * apply elem_of_down_window; lia.
Qed.
End Delimited.

(** ** The outcomes of [table], as theorems *)

(** X6.  [table] on a tuple set that holds an empty tuple raises
    [ValueError]: [max] of an empty sequence. *)
Theorem table_empty_tuple_raises (vars : list var) (tuples : list (list Z))
    (option : var) (m : CpModel) :
  [] ∈ tuples → table vars tuples option m = Raise ValueError.
Proof. intros H. apply table_value_error. by right. Qed.

(** X7.  [table] on non-empty tuples of which one is longer than the list of
    variables raises [KeyError]: [possible_values] has one key per
    variable. *)
Theorem table_long_tuple_raises (vars : list var) (tuples : list (list Z))
    (option : var) (m : CpModel) (t : list Z) :
  Forall (λ t, t ≠ []) tuples → t ∈ tuples → (length vars < length t)%nat →
  table vars tuples option m = Raise KeyError.
Proof. apply table_key_error. Qed.

(** X8.  [table] on non-empty tuples no longer than the variables, with
    largest entry [mv], raises [IndexError] when an entry is below
    [-(mv + 1)], or when every entry is negative: a row of [is_assigned] has
    [mv + 1] entries, none when [mv] is negative. *)
Theorem table_low_entry_raises (vars : list var) (tuples : list (list Z))
    (option : var) (m : CpModel) (mv : Z) (t : list Z) (v : Z) :
  tuples ≠ [] →
  Forall (λ t, t ≠ [] ∧ (length t ≤ length vars)%nat) tuples →
  is_max mv tuples →
  t ∈ tuples → v ∈ t → v < - (mv + 1) ∨ mv < 0 →
  table vars tuples option m = Raise IndexError.
Proof. apply table_index_error. Qed.

(** X9.  In every other case [table] returns: for non-empty tuples no longer
    than the variables whose entries are at least [-(mv + 1)], [mv] being
    the largest entry, the call adds [len(tuples) + len(variables) * (mv + 1)]
    Boolean variables and some constraints to the model, and changes nothing
    else. *)
Theorem table_adds_booleans (vars : list var) (tuples : list (list Z))
    (option : var) (m : CpModel) (mv : Z) :
  tuples ≠ [] →
  Forall (λ t, t ≠ [] ∧ (length t ≤ length vars)%nat) tuples →
  is_max mv tuples →
  Forall (Forall (λ v, - (mv + 1) ≤ v)) tuples →
  ∃ ds cs,
    table vars tuples option m = Ok ((), post (declare m ds) cs) ∧
    length ds = (length tuples + length vars * Z.to_nat (mv + 1))%nat ∧
    Forall (λ d, lb d = 0 ∧ ub d = 1) ds.
Proof.
  intros Hne Hall Hmax Hlow.
  destruct (table_wrap_run vars tuples option m mv Hne Hall Hmax Hlow)
    as (ia & pv & ds & _ & Hrun & _ & _ & Hcount & Hbool).
  by eexists ds, _.
Qed.

(** X10.  A negative entry of a tuple is read as a subscript from the end of
    a row of [is_assigned]: with tuples as long as the variables, under a
    true guard the variables take the values of some tuple in which an entry
    [v < 0] stands for [v + mv + 1]. *)
Theorem table_negative_entry_wraps (vars : list var) (tuples : list (list Z))
    (option : var) (m : CpModel) (mv : Z) :
  tuples ≠ [] →
  Forall (λ t, t ≠ [] ∧ length t = length vars) tuples →
  is_max mv tuples →
  Forall (Forall (λ v, - (mv + 1) ≤ v)) tuples →
  ∃ ds cs,
    table vars tuples option m = Ok ((), post (declare m ds) cs) ∧
    ∀ σ, (∀ i d, ds !! i = Some d →
                 in_domain σ (length (variables m) + i)%nat d) →
         Forall (sat σ) cs → σ option = 1 →
         ∃ t, t ∈ tuples ∧ σ <$> vars = position (mv + 1) <$> t.
Proof.
  intros Hne Hall Hmax Hlow.
  destruct (table_wrap_run vars tuples option m mv Hne) as
    (ia & pv & ds & _ & Hrun & Hia & Hfresh & _ & Hbool); [|done..|].
  { eapply Forall_impl; [exact Hall|]. intros t [? Heq]. split; [done|].
    by rewrite Heq. }
  eexists ds, _. split; [exact Hrun|]. intros σ Hdom Hsat Hopt.
  assert (0 ≤ mv) as Hmv.
  { destruct Hmax as [(t & Ht & Hv) _].
    pose proof (proj1 (Forall_forall _ _)
                  (proj1 (Forall_forall _ _) Hlow t Ht) mv Hv) as H.
    simpl in H. lia. }
  destruct (table_wrap_sound vars tuples option (length (variables m))
              (seq (length (variables m)) (length tuples)) ia pv mv ds σ)
    as (k & t & Hk & _ & Heq); [done..| |done|done|done|].
  - apply Forall_forall. intros t Ht.
    destruct (proj1 (Forall_forall _ _) Hall t Ht) as [_ ->]. split; [done|].
    apply Forall_forall. intros v Hv. split.
    + by apply (proj1 (Forall_forall _ _) (proj1 (Forall_forall _ _) Hlow t Ht)).
    + by apply (proj2 Hmax t v).
  - exists t. split; [by eapply list_elem_of_lookup_2 | done].
Qed.

(** ** The script as a whole *)

Lemma alphabetic_codes word :
  alphabetic word → Forall (λ v, 1 ≤ v ≤ 26) (word_to_numbers word).
Proof.
  unfold alphabetic, word_to_numbers. intros H. apply Forall_fmap.
  eapply Forall_impl; [done|]. intros a Ha. by destruct (letter_code a Ha).
Qed.

Lemma load_words_letter_lists words :
  Forall alphabetic words → letter_lists (load_words words).
Proof.
  intros Hwords l ws Hl.
  destruct (load_words_word_lists words l ws Hl) as (H0 & Hne & _).
  split_and!; [done..|]. apply Forall_forall. intros t Ht.
  apply (load_words_elem _ _ _ _ Hl) in Ht as (k & w & Hk & Hlen & ->).
  exists (word_to_numbers w), (Z.of_nat k). split_and!; [done| | |lia].
  - unfold len. by rewrite word_to_numbers_length.
  - apply alphabetic_codes.
    apply (proj1 (Forall_forall _ _) Hwords). by eapply list_elem_of_lookup_2.
Qed.


(** X12.  A grid the script builds a model for has at least two rows and two
    columns, or no cell at all: with a single row or a single column the
    lone-letter constraints of the border cells read [B[r][1]] or [B[1][c]]
    out of range. *)
Theorem grid_has_two_rows_and_columns (wordlist : gmap Z (list (list Z)))
    (rows columns : Z) (g : Grid.t) (m : CpModel) :
  build_model wordlist rows columns empty_model = Ok (g, m) →
  (2 ≤ rows ∧ 2 ≤ columns) ∨ (rows ≤ 0 ∧ columns ≤ 0).
Proof. intros Hb%build_model_built. by eapply built_dims. Qed.

(** X13.  In every solved grid each letter variable is between 0 and 26 and
    [B[r][c]] is true exactly when the letter is 0. *)
Theorem black_squares_are_zero (wordlist : gmap Z (list (list Z)))
    (rows columns : Z) (g : Grid.t) (m : CpModel) (σ : assignment) (r c : Z) :
  build_model wordlist rows columns empty_model = Ok (g, m) →
  solution m σ → 0 ≤ r < rows → 0 ≤ c < columns →
  0 ≤ σ (cell (Grid.L g) r c) ≤ 26 ∧
  0 ≤ σ (cell (Grid.B g) r c) ≤ 1 ∧
  (σ (cell (Grid.B g) r c) = 1 ↔ σ (cell (Grid.L g) r c) = 0).
Proof.
  intros Hb%build_model_built Hσ Hr Hc. split; [|split].
  - apply (cell_bounds Hσ r c Hr Hc _ _ _ (built_L_vars Hb)).
  - apply (cell_bounds Hσ r c Hr Hc _ _ _ (built_B_vars Hb)).
  - symmetry. by apply (black_iff Hb Hσ).
Qed.

(** X14.  In every solved grid [LLA[r][c]] is true exactly when the cells to
    the left and to the right of [(r, c)], those inside the grid, are both
    black, whatever the cell itself holds. *)
Theorem lone_across_meaning (wordlist : gmap Z (list (list Z)))
    (rows columns : Z) (g : Grid.t) (m : CpModel) (σ : assignment) (r c : Z) :
  build_model wordlist rows columns empty_model = Ok (g, m) →
  solution m σ → 0 ≤ r < rows → 0 ≤ c < columns →
  (σ (cell (Grid.LLA g) r c) = 1 ↔
   ∀ c', c' ∈ neighbours columns c → σ (cell (Grid.L g) r c') = 0).
Proof.
  intros Hb%build_model_built Hσ Hr Hc.
  rewrite (lone_across_iff Hb Hσ r c Hr Hc). split.
  - intros H c' Hc'. apply (black_iff Hb Hσ); [done| |by apply H].
    by apply elem_of_neighbours in Hc' as [_ ?].
  - intros H c' Hc'. apply (black_iff Hb Hσ); [done| |by apply H].
    by apply elem_of_neighbours in Hc' as [_ ?].
Qed.

(** X15.  In every solved grid [LLD[r][c]] is true exactly when the cells
    above and below [(r, c)], those inside the grid, are both black. *)
Theorem lone_down_meaning (wordlist : gmap Z (list (list Z)))
    (rows columns : Z) (g : Grid.t) (m : CpModel) (σ : assignment) (r c : Z) :
  build_model wordlist rows columns empty_model = Ok (g, m) →
  solution m σ → 0 ≤ r < rows → 0 ≤ c < columns →
  (σ (cell (Grid.LLD g) r c) = 1 ↔
   ∀ r', r' ∈ neighbours rows r → σ (cell (Grid.L g) r' c) = 0).
Proof.
  intros Hb%build_model_built Hσ Hr Hc.
  rewrite (lone_down_iff Hb Hσ r c Hr Hc). split.
  - intros H r' Hr'. apply (black_iff Hb Hσ); [|done|by apply H].
    by apply elem_of_neighbours in Hr' as [_ ?].
  - intros H r' Hr'. apply (black_iff Hb Hσ); [|done|by apply H].
    by apply elem_of_neighbours in Hr' as [_ ?].
Qed.

(** X16.  In every solved grid [LLAB[r][c]] is true exactly when the cell is
    an across lone letter or black, and [LLDB[r][c]] exactly when it is a
    down lone letter or black. *)
Theorem lone_or_black_meaning (wordlist : gmap Z (list (list Z)))
    (rows columns : Z) (g : Grid.t) (m : CpModel) (σ : assignment) (r c : Z) :
  build_model wordlist rows columns empty_model = Ok (g, m) →
  solution m σ → 0 ≤ r < rows → 0 ≤ c < columns →
  (σ (cell (Grid.LLAB g) r c) = 1 ↔
   σ (cell (Grid.LLA g) r c) = 1 ∨ σ (cell (Grid.L g) r c) = 0) ∧
  (σ (cell (Grid.LLDB g) r c) = 1 ↔
   σ (cell (Grid.LLD g) r c) = 1 ∨ σ (cell (Grid.L g) r c) = 0).
Proof.
  intros Hb%build_model_built Hσ Hr Hc.
  rewrite (black_iff Hb Hσ r c Hr Hc).
  apply (lone_or_black_iff Hb Hσ r c Hr Hc).
Qed.

(** X17.  In every solved grid over an index of words made of letters, an
    active across start [A[l][r][c]] is a possible placement, its cells
    [L[r][c .. c+l-1]] hold the codes of one entry of [wordlist[l]], and
    [IA[r][c]] is the id of that entry. *)
Theorem active_across_start_spells (wordlist : gmap Z (list (list Z)))
    (rows columns : Z) (g : Grid.t) (m : CpModel) (σ : assignment) (l r c : Z) :
  build_model wordlist rows columns empty_model = Ok (g, m) →
  solution m σ → letter_lists wordlist →
  0 ≤ l ≤ columns → 0 ≤ r < rows → 0 ≤ c < columns →
  σ (cell3 (Grid.A g) l r c) = 1 →
  ∃ ws codes i,
    wordlist !! l = Some ws ∧ l ≤ columns - c ∧ codes ++ [i] ∈ ws ∧
    len codes = l ∧
    (∀ j, 0 ≤ j < l → σ (cell (Grid.L g) r (c + j)) = codes !!! Z.to_nat j) ∧
    σ (cell (Grid.IA g) r c) = i.
Proof.
  intros Hb%build_model_built Hσ Hwl Hl Hr Hc HA.
  destruct (across_start_spells Hb Hσ Hwl l r c Hr Hc Hl HA)
    as (ws & codes & i & ? & ? & ? & ? & _ & ? & ?).
  by exists ws, codes, i.
Qed.

(** X18.  Likewise an active down start [D[l][r][c]]: the cells
    [L[r .. r+l-1][c]] hold the codes of one entry of [wordlist[l]] and
    [ID[r][c]] is its id. *)
Theorem active_down_start_spells (wordlist : gmap Z (list (list Z)))
    (rows columns : Z) (g : Grid.t) (m : CpModel) (σ : assignment) (l r c : Z) :
  build_model wordlist rows columns empty_model = Ok (g, m) →
  solution m σ → letter_lists wordlist →
  0 ≤ l ≤ rows → 0 ≤ r < rows → 0 ≤ c < columns →
  σ (cell3 (Grid.D g) l r c) = 1 →
  ∃ ws codes i,
    wordlist !! l = Some ws ∧ l ≤ rows - r ∧ codes ++ [i] ∈ ws ∧
    len codes = l ∧
    (∀ j, 0 ≤ j < l → σ (cell (Grid.L g) (r + j) c) = codes !!! Z.to_nat j) ∧
    σ (cell (Grid.ID g) r c) = i.
Proof.
  intros Hb%build_model_built Hσ Hwl Hl Hr Hc HD.
  destruct (down_start_spells Hb Hσ Hwl l r c Hr Hc Hl HD)
    as (ws & codes & i & ? & ? & ? & ? & _ & ? & ?).
  by exists ws, codes, i.
Qed.

(** X19.  In every solved grid over an index of words made of letters, an
    across word of two letters or more is delimited: the cell before its
    first letter and the cell after its last letter, when they are inside
    the grid, are black. *)
Theorem across_words_delimited (wordlist : gmap Z (list (list Z)))
    (rows columns : Z) (g : Grid.t) (m : CpModel) (σ : assignment) (l r c : Z) :
  build_model wordlist rows columns empty_model = Ok (g, m) →
  solution m σ → letter_lists wordlist →
  2 ≤ l ≤ columns → 0 ≤ r < rows → 0 ≤ c < columns →
  σ (cell3 (Grid.A g) l r c) = 1 →
  (1 ≤ c → σ (cell (Grid.L g) r (c - 1)) = 0) ∧
  (c + l < columns → σ (cell (Grid.L g) r (c + l)) = 0).
Proof.
  intros Hb%build_model_built Hσ Hwl Hl Hr Hc HA.
  by apply (across_word_delimited Hb Hσ Hwl).
Qed.

(** X20.  Likewise a down word of two letters or more: the cell above its
    first letter and the cell below its last letter, when they are inside the
    grid, are black. *)
Theorem down_words_delimited (wordlist : gmap Z (list (list Z)))
    (rows columns : Z) (g : Grid.t) (m : CpModel) (σ : assignment) (l r c : Z) :
  build_model wordlist rows columns empty_model = Ok (g, m) →
  solution m σ → letter_lists wordlist →
  2 ≤ l ≤ rows → 0 ≤ r < rows → 0 ≤ c < columns →
  σ (cell3 (Grid.D g) l r c) = 1 →
  (1 ≤ r → σ (cell (Grid.L g) (r - 1) c) = 0) ∧
  (r + l < rows → σ (cell (Grid.L g) (r + l) c) = 0).
Proof.
  intros Hb%build_model_built Hσ Hwl Hl Hr Hc HD.
  by apply (down_word_delimited Hb Hσ Hwl).
Qed.

Lemma across_start_from_file (words : list string) (rows columns : Z)
    (g : Grid.t) (m : CpModel) (σ : assignment) (l r c : Z) :
  built (load_words words) rows columns g m →
  solution m σ → Forall alphabetic words →
  0 ≤ l ≤ columns → 0 ≤ r < rows → 0 ≤ c < columns →
  σ (cell3 (Grid.A g) l r c) = 1 →
  ∃ (k : nat) word,
    words !! k = Some word ∧ Z.of_nat (String.length word) = l ∧
    σ (cell (Grid.IA g) r c) = Z.of_nat k ∧
    ∀ (j : nat) a, letters word !! j = Some a →
      getchar printed_alphabet (σ (cell (Grid.L g) r (c + Z.of_nat j))) =
        Ok (String (upper_ascii a) EmptyString).
Proof.
  intros Hb Hσ Hwords Hl Hr Hc HA.
  destruct (across_start_spells Hb Hσ (load_words_letter_lists words Hwords)
              l r c Hr Hc Hl HA)
    as (ws & codes & i & Hws & _ & Hin & Hlen & _ & Hspell & Hid).
  apply (load_words_elem _ _ _ _ Hws) in Hin as (k & w & Hk & Hw & Heq).
  apply app_inj_2 in Heq as [-> [= ->]]; [|done].
  exists k, w. split_and!; [done..|]. intros j a Hj.
  pose proof (lookup_lt_Some _ _ _ Hj) as Hlt. rewrite letters_length in Hlt.
  rewrite Hspell, Nat2Z.id by lia.
  rewrite (list_lookup_total_correct _ _ _ (word_to_numbers_lookup w j a Hj)).
  apply letter_code.
  apply (proj1 (Forall_forall _ _)
           (proj1 (Forall_forall _ _) Hwords w ltac:(by eapply list_elem_of_lookup_2))).
  by eapply list_elem_of_lookup_2.
Qed.

(** X21.  From the file to the printed grid: for a file of words made of
    letters, an active across start [A[l][r][c]] of a solved grid stands for
    a line of the file, numbered [IA[r][c]] from 0, that is [l] characters
    long, and the characters the script prints for the cells
    [L[r][c .. c+l-1]] are that word in upper case. *)
Theorem placed_across_word_printed (words : list string) (rows columns : Z)
    (g : Grid.t) (m : CpModel) (σ : assignment) (l r c : Z) :
  build_model (load_words words) rows columns empty_model = Ok (g, m) →
  solution m σ → Forall alphabetic words →
  0 ≤ l ≤ columns → 0 ≤ r < rows → 0 ≤ c < columns →
  σ (cell3 (Grid.A g) l r c) = 1 →
  ∃ (k : nat) word,
    words !! k = Some word ∧ Z.of_nat (String.length word) = l ∧
    σ (cell (Grid.IA g) r c) = Z.of_nat k ∧
    ∀ (j : nat) a, letters word !! j = Some a →
      getchar printed_alphabet (σ (cell (Grid.L g) r (c + Z.of_nat j))) =
        Ok (String (upper_ascii a) EmptyString).
Proof.
  intros Hb%build_model_built. by apply across_start_from_file.
Qed.

(** X22.  In a solved grid over a file of words made of letters, two letters
    side by side in a row are part of a word of the file: a letter with a
    letter to its left or to its right lies in the span of an active across
    start, whose cells print a line of the file in upper case. *)
Theorem letters_side_by_side_are_words (words : list string) (rows columns : Z)
    (g : Grid.t) (m : CpModel) (σ : assignment) (r c c' : Z) :
  build_model (load_words words) rows columns empty_model = Ok (g, m) →
  solution m σ → Forall alphabetic words →
  0 ≤ r < rows → 0 ≤ c < columns →
  σ (cell (Grid.L g) r c) ≠ 0 →
  c' ∈ neighbours columns c → σ (cell (Grid.L g) r c') ≠ 0 →
  ∃ (k : nat) word c0,
    words !! k = Some word ∧
    0 ≤ c0 ∧ c0 ≤ c < c0 + Z.of_nat (String.length word) ∧
    σ (cell3 (Grid.A g) (Z.of_nat (String.length word)) r c0) = 1 ∧
    σ (cell (Grid.IA g) r c0) = Z.of_nat k ∧
    ∀ (j : nat) a, letters word !! j = Some a →
      getchar printed_alphabet (σ (cell (Grid.L g) r (c0 + Z.of_nat j))) =
        Ok (String (upper_ascii a) EmptyString).
Proof.
  intros Hb%build_model_built Hσ Hwords Hr Hc HL Hc' HL'.
  pose proof (not_lone_across Hb Hσ r c c' Hr Hc Hc' HL') as Hnot.
  destruct (letter_across_covered Hb Hσ r c Hr Hc HL Hnot)
    as (l & c0 & (Hl & Hc0 & Hspan & HA) & _).
  destruct (across_start_from_file words rows columns g m σ l r c0)
    as (k & w & Hk & Hw & Hid & Hprint); [done..|lia|done|].
  exists k, w, c0. rewrite Hw. split_and!; (done || lia).
Qed.


(** ** The further properties on the worked examples *)

Lemma example_alphabetic : Forall alphabetic example_words.
Proof. repeat constructor. Defined.

Lemma alphabetic_word_round_trip_witness :
  Forall (λ v, 1 ≤ v ≤ 26) (word_to_numbers "Cat") ∧
  traverse (getchar printed_alphabet) (word_to_numbers "Cat") =
    Ok ((λ a, String (upper_ascii a) EmptyString) <$> letters "Cat").
Proof.
  apply (alphabetic_word_round_trip "Cat"). repeat constructor.
Defined.


Lemma table_empty_tuple_raises_witness :
  table [0%nat] [[1]; []] 1%nat small_model = Raise ValueError.
Proof. apply table_empty_tuple_raises. right. left. Defined.

Lemma table_long_tuple_raises_witness :
  table [0%nat] [[1; 0]] 1%nat small_model = Raise KeyError.
Proof.
  apply (table_long_tuple_raises _ _ _ _ [1; 0]).
  - by repeat constructor.
  - left.
  - simpl. lia.
Defined.

Lemma table_low_entry_raises_witness :
  table [0; 1]%nat [[-5; 0]] 2%nat small_model = Raise IndexError.
Proof.
  apply (table_low_entry_raises _ _ _ _ 0 [-5; 0] (-5)).
  - done.
  - repeat constructor; (done || simpl; lia).
  - split.
    + exists [-5; 0]. split; [left | right; left].
    + intros t v ->%list_elem_of_singleton Hv.
      repeat (apply elem_of_cons in Hv as [->|Hv]; [lia|]). by apply elem_of_nil in Hv.
  - left.
  - left.
  - lia.
Defined.

Lemma small_tuples_max : is_max 2 small_tuples.
Proof.
  split.
  - exists [2; 1]. split; [right; left | left].
  - intros t v Ht Hv. unfold small_tuples in Ht.
    repeat (apply elem_of_cons in Ht as [->|Ht];
            [repeat (apply elem_of_cons in Hv as [->|Hv]; [lia|]);
             by apply elem_of_nil in Hv|]).
    by apply elem_of_nil in Ht.
Defined.

Lemma wrap_tuples_max : is_max 2 wrap_tuples.
Proof.
  split.
  - exists [2; 1]. split; [right; left | left].
  - intros t v Ht Hv. unfold wrap_tuples in Ht.
    repeat (apply elem_of_cons in Ht as [->|Ht];
            [repeat (apply elem_of_cons in Hv as [->|Hv]; [lia|]);
             by apply elem_of_nil in Hv|]).
    by apply elem_of_nil in Ht.
Defined.

Lemma table_adds_booleans_witness :
  ∃ ds cs,
    table [0; 1]%nat small_tuples 2%nat small_model =
      Ok ((), post (declare small_model ds) cs) ∧
    length ds = (length small_tuples + length [0; 1]%nat * Z.to_nat (2 + 1))%nat ∧
    Forall (λ d, lb d = 0 ∧ ub d = 1) ds.
Proof.
  apply (table_adds_booleans [0; 1]%nat small_tuples 2%nat small_model 2).
  - done.
  - repeat constructor; (done || simpl; lia).
  - exact small_tuples_max.
  - repeat constructor; lia.
Defined.

Lemma table_negative_entry_wraps_witness :
  ∃ ds cs,
    table [0; 1]%nat wrap_tuples 2%nat small_model =
      Ok ((), post (declare small_model ds) cs) ∧
    ∀ σ, (∀ i d, ds !! i = Some d →
                 in_domain σ (length (variables small_model) + i)%nat d) →
         Forall (sat σ) cs → σ 2%nat = 1 →
         ∃ t, t ∈ wrap_tuples ∧ σ <$> [0; 1]%nat = position (2 + 1) <$> t.
Proof.
  apply (table_negative_entry_wraps [0; 1]%nat wrap_tuples 2%nat small_model 2).
  - done.
  - repeat constructor; done.
  - exact wrap_tuples_max.
  - repeat constructor; lia.
Defined.


Lemma grid_has_two_rows_and_columns_witness :
  (2 ≤ 3 ∧ 2 ≤ 3) ∨ (3 ≤ 0 ∧ 3 ≤ 0).
Proof.
  apply (grid_has_two_rows_and_columns (load_words example_words) 3 3
           example_grid example_model).
  vm_compute. reflexivity.
Defined.

Lemma black_squares_are_zero_witness :
  0 ≤ assign example_values (cell (Grid.L example_grid) 0 0) ≤ 26 ∧
  0 ≤ assign example_values (cell (Grid.B example_grid) 0 0) ≤ 1 ∧
  (assign example_values (cell (Grid.B example_grid) 0 0) = 1 ↔
   assign example_values (cell (Grid.L example_grid) 0 0) = 0).
Proof.
  apply (black_squares_are_zero (load_words example_words) 3 3 example_grid
           example_model (assign example_values) 0 0);
    [vm_compute; reflexivity
    | apply check_solution_sound; vm_compute; reflexivity | lia | lia].
Defined.

Lemma lone_across_meaning_witness :
  assign example_values (cell (Grid.LLA example_grid) 0 1) = 1 ↔
  ∀ c', c' ∈ neighbours 3 1 →
        assign example_values (cell (Grid.L example_grid) 0 c') = 0.
Proof.
  apply (lone_across_meaning (load_words example_words) 3 3 example_grid
           example_model (assign example_values) 0 1);
    [vm_compute; reflexivity
    | apply check_solution_sound; vm_compute; reflexivity | lia | lia].
Defined.

Lemma lone_down_meaning_witness :
  assign example_values (cell (Grid.LLD example_grid) 1 0) = 1 ↔
  ∀ r', r' ∈ neighbours 3 1 →
        assign example_values (cell (Grid.L example_grid) r' 0) = 0.
Proof.
  apply (lone_down_meaning (load_words example_words) 3 3 example_grid
           example_model (assign example_values) 1 0);
    [vm_compute; reflexivity
    | apply check_solution_sound; vm_compute; reflexivity | lia | lia].
Defined.

Lemma lone_or_black_meaning_witness :
  (assign example_values (cell (Grid.LLAB example_grid) 0 0) = 1 ↔
   assign example_values (cell (Grid.LLA example_grid) 0 0) = 1 ∨
   assign example_values (cell (Grid.L example_grid) 0 0) = 0) ∧
  (assign example_values (cell (Grid.LLDB example_grid) 0 0) = 1 ↔
   assign example_values (cell (Grid.LLD example_grid) 0 0) = 1 ∨
   assign example_values (cell (Grid.L example_grid) 0 0) = 0).
Proof.
  apply (lone_or_black_meaning (load_words example_words) 3 3 example_grid
           example_model (assign example_values) 0 0);
    [vm_compute; reflexivity
    | apply check_solution_sound; vm_compute; reflexivity | lia | lia].
Defined.

Lemma active_across_start_spells_witness :
  ∃ ws codes i,
    load_words example_words !! 2 = Some ws ∧ 2 ≤ 3 - 1 ∧ codes ++ [i] ∈ ws ∧
    len codes = 2 ∧
    (∀ j, 0 ≤ j < 2 →
       assign example_values (cell (Grid.L example_grid) 0 (1 + j)) =
       codes !!! Z.to_nat j) ∧
    assign example_values (cell (Grid.IA example_grid) 0 1) = i.
Proof.
  apply (active_across_start_spells (load_words example_words) 3 3 example_grid
           example_model (assign example_values) 2 0 1);
    [vm_compute; reflexivity
    | apply check_solution_sound; vm_compute; reflexivity
    | exact (load_words_letter_lists _ example_alphabetic)
    | lia | lia | lia | vm_compute; reflexivity].
Defined.

Lemma active_down_start_spells_witness :
  ∃ ws codes i,
    load_words example_words !! 2 = Some ws ∧ 2 ≤ 3 - 1 ∧ codes ++ [i] ∈ ws ∧
    len codes = 2 ∧
    (∀ j, 0 ≤ j < 2 →
       assign example_values (cell (Grid.L example_grid) (1 + j) 0) =
       codes !!! Z.to_nat j) ∧
    assign example_values (cell (Grid.ID example_grid) 1 0) = i.
Proof.
  apply (active_down_start_spells (load_words example_words) 3 3 example_grid
           example_model (assign example_values) 2 1 0);
    [vm_compute; reflexivity
    | apply check_solution_sound; vm_compute; reflexivity
    | exact (load_words_letter_lists _ example_alphabetic)
    | lia | lia | lia | vm_compute; reflexivity].
Defined.

Lemma across_words_delimited_witness :
  (1 ≤ 1 → assign example_values (cell (Grid.L example_grid) 0 (1 - 1)) = 0) ∧
  (1 + 2 < 3 → assign example_values (cell (Grid.L example_grid) 0 (1 + 2)) = 0).
Proof.
  apply (across_words_delimited (load_words example_words) 3 3 example_grid
           example_model (assign example_values) 2 0 1);
    [vm_compute; reflexivity
    | apply check_solution_sound; vm_compute; reflexivity
    | exact (load_words_letter_lists _ example_alphabetic)
    | lia | lia | lia | vm_compute; reflexivity].
Defined.

Lemma down_words_delimited_witness :
  (1 ≤ 1 → assign example_values (cell (Grid.L example_grid) (1 - 1) 0) = 0) ∧
  (1 + 2 < 3 → assign example_values (cell (Grid.L example_grid) (1 + 2) 0) = 0).
Proof.
  apply (down_words_delimited (load_words example_words) 3 3 example_grid
           example_model (assign example_values) 2 1 0);
    [vm_compute; reflexivity
    | apply check_solution_sound; vm_compute; reflexivity
    | exact (load_words_letter_lists _ example_alphabetic)
    | lia | lia | lia | vm_compute; reflexivity].
Defined.

Lemma placed_across_word_printed_witness :
  ∃ (k : nat) word,
    example_words !! k = Some word ∧ Z.of_nat (String.length word) = 3 ∧
    assign example_values (cell (Grid.IA example_grid) 1 0) = Z.of_nat k ∧
    ∀ (j : nat) a, letters word !! j = Some a →
      getchar printed_alphabet
        (assign example_values (cell (Grid.L example_grid) 1 (0 + Z.of_nat j))) =
        Ok (String (upper_ascii a) EmptyString).
Proof.
  apply (placed_across_word_printed example_words 3 3 example_grid
           example_model (assign example_values) 3 1 0);
    [vm_compute; reflexivity
    | apply check_solution_sound; vm_compute; reflexivity | exact example_alphabetic
    | lia | lia | lia | vm_compute; reflexivity].
Defined.

Lemma letters_side_by_side_are_words_witness :
  ∃ (k : nat) word c0,
    example_words !! k = Some word ∧
    0 ≤ c0 ∧ c0 ≤ 1 < c0 + Z.of_nat (String.length word) ∧
    assign example_values
      (cell3 (Grid.A example_grid) (Z.of_nat (String.length word)) 1 c0) = 1 ∧
    assign example_values (cell (Grid.IA example_grid) 1 c0) = Z.of_nat k ∧
    ∀ (j : nat) a, letters word !! j = Some a →
      getchar printed_alphabet
        (assign example_values
           (cell (Grid.L example_grid) 1 (c0 + Z.of_nat j))) =
        Ok (String (upper_ascii a) EmptyString).
Proof.
  apply (letters_side_by_side_are_words example_words 3 3 example_grid
           example_model (assign example_values) 1 1 0);
    [vm_compute; reflexivity
    | apply check_solution_sound; vm_compute; reflexivity | exact example_alphabetic
    | lia | lia | vm_compute; discriminate
    | apply elem_of_neighbours; lia | vm_compute; discriminate].
Defined.

